(** * Turn-based collector environments: a shallow embedding

    The two environments of the repository, the continuous-plane
    [collector] and the [graph_collector], are embedded as state-passing
    functions over records.  Python exceptions are values of [result];
    floats are idealised as real numbers; Python integers are [Z].

    Dictionaries keyed by agent whose iteration order is never observed
    are [gmap]s; dictionaries whose [values()] order reaches an
    observation array (collectors, graph points, adjacency) are
    insertion-ordered association lists. *)

From Stdlib Require Import ZArith Reals Lra Lia.
From stdpp Require Import base option list gmap strings pretty.

Open Scope Z_scope.

(** ** Exceptions and the error monad *)

(** The [ValueError]s the code raises, told apart by their message. *)
Inductive value_error :=
  | InvalidAction      (* "Action ... is invalid / not in the action space" *)
  | EdgeNotFound       (* "There is no edge between node ... and ..." *)
  | DeadAgentAction    (* "when an agent is dead, the only valid action is None" *)
  | NotInList          (* list.remove(x): x not in list *)
  | EmptySequence.     (* min() of an empty sequence *)

Inductive exn :=
  | AssertionError
  | ValueError (why : value_error)
  | KeyError
  | IndexError
  | ZeroDivisionError
  | NetworkXError
  | GymnasiumError.    (* [gymnasium.error.Error] *)

Inductive result (A : Type) :=
  | Ok (a : A)
  | Raise (e : exn).
Arguments Ok {A} a.
Arguments Raise {A} e.

#[global] Instance result_ret : MRet result := λ A a, Ok a.
#[global] Instance result_bind : MBind result := λ A B f m,
  match m with
  | Ok a => f a
  | Raise e => Raise e
  end.

Definition is_ok {A} (m : result A) : bool :=
  match m with Ok _ => true | Raise _ => false end.

(** ** Python containers *)

(** [l[i]] on a Python list: negative indices count from the end. *)
Definition py_index {A} (l : list A) (i : Z) : result A :=
  let n := Z.of_nat (length l) in
  if (0 <=? i) && (i <? n) then
    match l !! Z.to_nat i with Some x => Ok x | None => Raise IndexError end
  else if (- n <=? i) && (i <? 0) then
    match l !! Z.to_nat (n + i) with Some x => Ok x | None => Raise IndexError end
  else Raise IndexError.

(** [l.remove(x)]: drops the first occurrence, [ValueError] when absent. *)
Fixpoint list_remove_first `{EqDecision A} (x : A) (l : list A) : result (list A) :=
  match l with
  | [] => Raise (ValueError NotInList)
  | y :: l' =>
      if decide (x = y) then Ok l'
      else l'' ← list_remove_first x l'; Ok (y :: l'')
  end.

(** [d[k]] and [del d[k]] on a dict whose order is never observed. *)
Definition dict_get `{Countable K} {V} (d : gmap K V) (k : K) : result V :=
  match d !! k with Some v => Ok v | None => Raise KeyError end.

Definition dict_del `{Countable K} {V} (d : gmap K V) (k : K) : result (gmap K V) :=
  match d !! k with Some _ => Ok (delete k d) | None => Raise KeyError end.

(** [all(d.values())] *)
Definition all_values `{Countable K} (d : gmap K bool) : bool :=
  bool_decide (map_Forall (λ _ b, b = true) d).

(** Insertion-ordered dicts: the order of [values()] is the order of the
    first insertion of each key. *)
Definition odict (K V : Type) := list (K * V).

Fixpoint oget `{EqDecision K} {V} (d : odict K V) (k : K) : option V :=
  match d with
  | [] => None
  | (k', v) :: d' => if decide (k = k') then Some v else oget d' k
  end.

(** [d[k] = v]: in place when the key exists, appended otherwise. *)
Fixpoint oset `{EqDecision K} {V} (d : odict K V) (k : K) (v : V) : odict K V :=
  match d with
  | [] => [(k, v)]
  | (k', v') :: d' =>
      if decide (k = k') then (k, v) :: d' else (k', v') :: oset d' k v
  end.

Definition okeys {K V} (d : odict K V) : list K := d.*1.
Definition ovalues {K V} (d : odict K V) : list V := d.*2.

(** [{k: v for k, v in items}] *)
Definition odict_of_list `{EqDecision K} {V} (items : list (K * V)) : odict K V :=
  foldl (λ d kv, oset d kv.1 kv.2) [] items.

Definition oget_r `{EqDecision K} {V} (d : odict K V) (k : K) : result V :=
  match oget d k with Some v => Ok v | None => Raise KeyError end.

(** ** Agents *)

Definition agent := string.

(** [f"agent_{i}"] *)
Definition agent_name (i : nat) : agent := "agent_" +:+ pretty i.

(** [[f"agent_{i}" for i in range(n)]] *)
Definition make_agents (n : nat) : list agent := agent_name <$> seq 0 n.

(** An action handed to [step]: [None] or a Python integer. *)
Definition action := option Z.

(** [gymnasium.spaces.Discrete(n, start)]: the integers of
    [start, start + n).  [contains] is false for [None]. *)
Record Discrete := { dn : Z; dstart : Z }.

Definition contains (sp : Discrete) (a : action) : bool :=
  match a with
  | None => false
  | Some x => (dstart sp <=? x) && (x <? dstart sp + dn sp)
  end.

(** [{agent: max_collect[i] for i, agent in enumerate(agents)}], built
    left to right from index [i]; [max_collect[i]] raises [IndexError]
    when the list is too short. *)
Fixpoint build_max_collect (ags : list agent) (i : Z) (mc : list Z)
    (acc : gmap agent Z) : result (gmap agent Z) :=
  match ags with
  | [] => Ok acc
  | a :: ags' =>
      m ← py_index mc i;
      build_max_collect ags' (i + 1) mc (<[a := m]> acc)
  end.

(** [{agent: v for agent in agents}] *)
Definition dict_fromkeys {V} (ags : list agent) (v : V) : gmap agent V :=
  gset_to_gmap v (list_to_set ags).

(** ** The host framework: turn scheduler and dead-agent helper

    [raw_env] extends the framework's [AECEnv] and owns an
    [agent_selector]; [step] calls their [next], [_was_dead_step] and
    [_accumulate_rewards].  They are embedded here as the framework
    defines them. *)

(** [agent_selector]: the cursor of the round-robin scheduler.  Its
    [agent_order] is not a field: [reinit(self.agents)] stores the very
    list object [self.agents], so every later [self.agents.remove] is
    seen by the selector.  The functions below therefore take the
    environment's current [agents] as [order]. *)
Record agent_selector := {
  _current_agent : Z;
  selected_agent : option agent;   (* [None] stands for the initial [0] *)
}.

Definition reinit : agent_selector :=
  {| _current_agent := 0; selected_agent := None |}.

(** [next()]:
      self._current_agent = (self._current_agent + 1) % len(self.agent_order)
      self.selected_agent = self.agent_order[self._current_agent - 1] *)
Definition next (order : list agent) (sel : agent_selector)
  : result (agent_selector * agent) :=
  let n := Z.of_nat (length order) in
  if n =? 0 then Raise ZeroDivisionError
  else
    let cur := (_current_agent sel + 1) `mod` n in
    a ← py_index order (cur - 1);
    Ok ({| _current_agent := cur; selected_agent := Some a |}, a).

(** [reset()]: [reinit(self.agent_order)] then [next()]. *)
Definition selector_reset (order : list agent) : result (agent_selector * agent) :=
  next order reinit.

(** The per-agent bookkeeping every [AECEnv] carries. *)
Record AECEnv := {
  agents : list agent;
  possible_agents : list agent;
  _agent_selector : agent_selector;
  agent_selection : option agent;        (* [None] only before [reset] *)
  rewards : gmap agent R;
  _cumulative_rewards : gmap agent R;
  terminations : gmap agent bool;
  truncations : gmap agent bool;
  infos : gmap agent unit;
  _skip_agent_selection : option agent;
}.

(** [self.terminations[agent] or self.truncations[agent]] *)
Definition is_dead (e : AECEnv) (a : agent) : result bool :=
  t ← dict_get (terminations e) a;
  if t : bool then Ok true else dict_get (truncations e) a.

(** [[a for a in agents if terminations[a] or truncations[a]]] *)
Fixpoint deads_order (term trunc : gmap agent bool) (l : list agent)
  : result (list agent) :=
  match l with
  | [] => Ok []
  | a :: l' =>
      t ← dict_get term a;
      d ← (if t : bool then Ok true else dict_get trunc a);
      r ← deads_order term trunc l';
      Ok (if d : bool then a :: r else r)
  end.

(** [_clear_rewards()] *)
Definition _clear_rewards (rw : gmap agent R) : gmap agent R :=
  (λ _, 0%R) <$> rw.

(** [_accumulate_rewards()]:
      for agent, reward in self.rewards.items():
          self._cumulative_rewards[agent] += reward *)
Definition _accumulate_rewards (rw cum : gmap agent R) : result (gmap agent R) :=
  if decide (dom rw ⊆ dom cum) then
    Ok (merge (λ c r, match c, r with
                      | Some c, Some r => Some (c + r)%R
                      | Some c, None => Some c
                      | None, _ => None
                      end) cum rw)
  else Raise KeyError.

(** [self.agent_selection = self._agent_selector.next()], once [next]
    has returned the new cursor [sel] and the agent [nxt]. *)
Definition select (e : AECEnv) (sel : agent_selector) (nxt : agent) : AECEnv :=
  {| agents := agents e;
     possible_agents := possible_agents e;
     _agent_selector := sel;
     agent_selection := Some nxt;
     rewards := rewards e;
     _cumulative_rewards := _cumulative_rewards e;
     terminations := terminations e;
     truncations := truncations e;
     infos := infos e;
     _skip_agent_selection := _skip_agent_selection e |}.

(** [_was_dead_step(action)]: removes the selected dead agent from
    [agents] and from the five dictionaries, selects the next dead agent
    if there is one (remembering the interrupted selection in
    [_skip_agent_selection]), otherwise restores the remembered
    selection if there is one, and clears [rewards]. *)
Definition _was_dead_step (e : AECEnv) (act : action) : result AECEnv :=
  match act with
  | Some _ => Raise (ValueError DeadAgentAction)
  | None =>
    match agent_selection e with
    | None => Raise KeyError
    | Some agent =>
      d ← is_dead e agent;
      if negb d then Raise AssertionError else
      term ← dict_del (terminations e) agent;
      trunc ← dict_del (truncations e) agent;
      rw ← dict_del (rewards e) agent;
      cum ← dict_del (_cumulative_rewards e) agent;
      inf ← dict_del (infos e) agent;
      ags ← list_remove_first agent (agents e);
      deads ← deads_order term trunc ags;
      let '(sel, skip) :=
        match deads with
        | d0 :: _ =>
            (Some d0,
             match _skip_agent_selection e with
             | None => agent_selection e
             | Some k => Some k
             end)
        | [] =>
            (match _skip_agent_selection e with
             | Some k => Some k
             | None => agent_selection e
             end, None)
        end in
      Ok {| agents := ags;
            possible_agents := possible_agents e;
            _agent_selector := _agent_selector e;
            agent_selection := sel;
            rewards := _clear_rewards rw;
            _cumulative_rewards := cum;
            terminations := term;
            truncations := trunc;
            infos := inf;
            _skip_agent_selection := skip |}
    end
  end.

(** * The continuous variant: [collector/environment/collector.py] *)

(** ** Seeding

    [raw_env.seed] hands the seed to [gymnasium.utils.seeding.np_random].
    A seed that is given must be a non-negative integer; anything else
    makes [np_random] raise [gymnasium.error.Error].  The generator is
    kept as the seed it was made from. *)
Definition np_random (seed : option Z) : result (option Z) :=
  match seed with
  | Some x => if x <? 0 then Raise GymnasiumError else Ok (Some x)
  | None => Ok None
  end.

(** The first lines of [reset]: [if seed is not None: self.seed(seed)]. *)
Definition reseed (rng : option Z) (seed : option Z) : result (option Z) :=
  match seed with
  | Some _ => np_random seed
  | None => Ok rng
  end.

Module Continuous.

Definition position := (R * R)%type.

(** Modelled from the spec: the [Point] class of [collector.utils.objects],
    which is not part of the sources at hand (spec, sections 3 and 4.3):
    a position and a collection counter, incremented by every collection;
    [is_collected] holds once the counter is positive. *)
Module Point.
Record t := {
  position : Continuous.position;
  collect_counter : Z;
}.
Definition new (p : Continuous.position) : t :=
  {| position := p; collect_counter := 0 |}.
Definition is_collected (p : t) : bool := 0 <? collect_counter p.
Definition get_collect_counter (p : t) : Z := collect_counter p.
Definition collect (p : t) : t :=
  {| position := position p; collect_counter := collect_counter p + 1 |}.
End Point.

(** Modelled from the spec: the [Collector] class of
    [collector.utils.objects], which is not part of the sources at hand
    (spec, sections 3 and 4.3).  [collect] counts the collection on the
    point and on the collector: [unique_points_collected] grows iff the
    counter was 0 before, [cheated] iff the point had been collected. *)
Module Collector.
Record t := {
  position : Continuous.position;
  path : list Continuous.position;
  total_points_collected : Z;
  unique_points_collected : Z;
  cheated : Z;
}.
Definition new (p : Continuous.position) : t :=
  {| position := p; path := [];
     total_points_collected := 0; unique_points_collected := 0; cheated := 0 |}.
(** [collector.position = p] *)
Definition set_position (c : t) (p : Continuous.position) : t :=
  {| position := p; path := path c;
     total_points_collected := total_points_collected c;
     unique_points_collected := unique_points_collected c;
     cheated := cheated c |}.
Definition collect (c : t) (p : Point.t) : t * Point.t :=
  let was := Point.is_collected p in
  ({| position := position c; path := path c;
      total_points_collected := total_points_collected c + 1;
      unique_points_collected :=
        (if was then unique_points_collected c else unique_points_collected c + 1);
      cheated := (if was then cheated c + 1 else cheated c) |},
   Point.collect p).
End Collector.

(** The constructor's arguments. *)
Record config := {
  cfg_point_positions : list position;
  cfg_agent_positions : list position;
  cfg_max_collect : list Z;
  cfg_cheat_cost : R;
  cfg_caught_probability : R;
}.

Record env := {
  point_positions : list position;
  agent_positions : list position;
  cheat_cost : R;
  caught_probability : R;
  max_collect : gmap agent Z;
  action_spaces : gmap agent Discrete;
  rng : option Z;                       (* the seed of [self.rng], if any *)
  aec : AECEnv;
  points : list Point.t;
  collectors : odict agent Collector.t;
  has_reset : bool;
  terminate : bool;
  truncate : bool;
}.

(** [__init__]: the agent names, the budgets and the action spaces.
    [Discrete(n)] asserts [n > 0].  The rendering set-up (scaling,
    translation, state and observation space declarations) is not part
    of the model. *)
Definition init (c : config) : result env :=
  let ags := make_agents (length (cfg_agent_positions c)) in
  mc ← build_max_collect ags 0 (cfg_max_collect c) ∅;
  let n_points := Z.of_nat (length (cfg_point_positions c)) in
  if bool_decide (ags ≠ []) && (n_points <=? 0) then Raise AssertionError
  else
    Ok {| point_positions := cfg_point_positions c;
          agent_positions := cfg_agent_positions c;
          cheat_cost := cfg_cheat_cost c;
          caught_probability := cfg_caught_probability c;
          max_collect := mc;
          action_spaces := dict_fromkeys ags {| dn := n_points; dstart := 0 |};
          rng := None;
          aec := {| agents := ags;
                    possible_agents := ags;
                    _agent_selector := reinit;
                    agent_selection := None;
                    rewards := ∅;
                    _cumulative_rewards := ∅;
                    terminations := ∅;
                    truncations := ∅;
                    infos := ∅;
                    _skip_agent_selection := None |};
          points := [];
          collectors := [];
          has_reset := false;
          terminate := false;
          truncate := false |}.

(** [{agent: Collector(position) for agent, position in zip(agents, agent_positions)}] *)
Definition _create_collectors (agent_positions : list position) (ags : list agent)
  : odict agent Collector.t :=
  odict_of_list (zip ags (Collector.new <$> agent_positions)).

Definition _create_points (point_positions : list position) : list Point.t :=
  Point.new <$> point_positions.

Definition cheating_cost (s : env) (p : Point.t) : R :=
  (cheat_cost s * caught_probability s)%R.

(** [np.linalg.norm(a - b)] on two points of the plane. *)
Definition norm_diff (a b : position) : R :=
  sqrt ((a.1 - b.1) * (a.1 - b.1) + (a.2 - b.2) * (a.2 - b.2))%R.

Definition reward (s : env) (c : Collector.t) (p : Point.t) : R :=
  let r := norm_diff (Collector.position c) (Point.position p) in
  let r := if Point.is_collected p then (r + cheating_cost s p)%R else r in
  (- r)%R.

(** The observation, without its rendered image. *)
Record observation := {
  obs_point_positions : list position;
  obs_collected : list Z;
  obs_collector_positions : list position;
}.

Definition _state (pts : list Point.t) (cols : odict agent Collector.t) : observation :=
  {| obs_point_positions := Point.position <$> pts;
     obs_collected := Point.get_collect_counter <$> pts;
     obs_collector_positions := Collector.position <$> ovalues cols |}.

Definition observe (s : env) (a : agent) : observation :=
  _state (points s) (collectors s).

(** [reset(seed)]: the seed first, then the agents, the scheduler, the
    collectors, the points and the bookkeeping. *)
Definition reset (s : env) (seed : option Z) : result (env * gmap agent observation) :=
  rng' ← reseed (rng s) seed;
  let ags := possible_agents (aec s) in
  '(sel, first) ← selector_reset ags;
  let cols := _create_collectors (agent_positions s) ags in
  let pts := _create_points (point_positions s) in
  let obs := _state pts cols in
  Ok ({| point_positions := point_positions s;
         agent_positions := agent_positions s;
         cheat_cost := cheat_cost s;
         caught_probability := caught_probability s;
         max_collect := max_collect s;
         action_spaces := action_spaces s;
         rng := rng';
         aec := {| agents := ags;
                   possible_agents := possible_agents (aec s);
                   _agent_selector := sel;
                   agent_selection := Some first;
                   rewards := dict_fromkeys ags 0%R;
                   _cumulative_rewards := dict_fromkeys ags 0%R;
                   terminations := dict_fromkeys ags false;
                   truncations := dict_fromkeys ags false;
                   infos := dict_fromkeys ags ();
                   _skip_agent_selection := _skip_agent_selection (aec s) |};
         points := pts;
         collectors := cols;
         has_reset := true;
         terminate := false;
         truncate := false |},
      dict_fromkeys ags obs).

(** The fields [step] may change; everything else is carried over. *)
Definition update (s : env) (e : AECEnv) (pts : list Point.t)
    (cols : odict agent Collector.t) (term trunc : bool) : env :=
  {| point_positions := point_positions s;
     agent_positions := agent_positions s;
     cheat_cost := cheat_cost s;
     caught_probability := caught_probability s;
     max_collect := max_collect s;
     action_spaces := action_spaces s;
     rng := rng s;
     aec := e;
     points := pts;
     collectors := cols;
     has_reset := has_reset s;
     terminate := term;
     truncate := trunc |}.

(** The live branch of [step], for a valid integer action [a] of the
    selected [agent_]. *)
Definition step_live (s : env) (agent_ : agent) (a : Z) : result env :=
  let e := aec s in
  point_to_collect ← py_index (points s) a;
  collector ← oget_r (collectors s) agent_;
  let reward_ := reward s collector point_to_collect in
  (* Move collector to point position. *)
  let collector := Collector.set_position collector (Point.position point_to_collect) in
  (* Only collect point after reward has been calculated. *)
  let '(collector, point_) := Collector.collect collector point_to_collect in
  let pts := <[Z.to_nat a := point_]> (points s) in
  let cols := oset (collectors s) agent_ collector in
  let rw := <[agent_ := reward_]> (rewards e) in
  '(sel, nxt) ← next (agents e) (_agent_selector e);
  cum ← _accumulate_rewards rw (<[agent_ := 0%R]> (_cumulative_rewards e));
  (* Update termination and truncation for agent. *)
  c ← oget_r cols agent_;
  budget ← dict_get (max_collect s) agent_;
  let term :=
    if budget <=? Collector.total_points_collected c
    then <[agent_ := true]> (terminations e) else terminations e in
  Ok (update s
        {| agents := agents e;
           possible_agents := possible_agents e;
           _agent_selector := sel;
           agent_selection := Some nxt;
           rewards := rw;
           _cumulative_rewards := cum;
           terminations := term;
           truncations := truncations e;
           infos := infos e;
           _skip_agent_selection := _skip_agent_selection e |}
        pts cols (all_values term) (all_values (truncations e))).

Definition step (s : env) (act : action) : result env :=
  if negb (has_reset s) then Raise AssertionError else
  match agent_selection (aec s) with
  | None => Raise KeyError
  | Some agent_ =>
      dead ← is_dead (aec s) agent_;
      if dead : bool then
        e ← _was_dead_step (aec s) act;
        Ok (update s e (points s) (collectors s) (terminate s) (truncate s))
      else
        sp ← dict_get (action_spaces s) agent_;
        if negb (contains sp act) then Raise (ValueError InvalidAction)
        else match act with
             | None => Raise (ValueError InvalidAction)
             | Some a => step_live s agent_ a
             end
  end.

(** States of an episode: [reset] on a constructed environment, then
    any number of calls of [step] and [reset] that return.  A call that
    raises is no transition: on these states every [raise] of [step]
    comes before its first write. *)
Inductive reachable (c : config) : env → Prop :=
  | reach_reset s0 seed s obs :
      init c = Ok s0 → reset s0 seed = Ok (s, obs) → reachable c s
  | reach_again s seed s' obs :
      reachable c s → reset s seed = Ok (s', obs) → reachable c s'
  | reach_step s act s' :
      reachable c s → step s act = Ok s' → reachable c s'.

(** An episode from construction: [reset()], then the actions in turn. *)
Definition run (c : config) (acts : list action) : result env :=
  s0 ← init c;
  '(s, _) ← reset s0 None;
  foldl (λ r act, s ← r; step s act) (Ok s) acts.

End Continuous.

(** * The graph variant:
      [datacollect/environments/graph_collector/graph_collector.py] *)

(** The part of [networkx] the environment uses.  A graph is its
    adjacency dict-of-dicts [G._adj]: every node is a key, and each edge
    carries its data dict, of which only the optional ["weight"] entry
    is read. *)
Module nx.
Definition Graph := odict Z (odict Z (option R)).
Definition nodes (g : Graph) : list Z := okeys g.
(** [nx.neighbors(G, n)] *)
Definition neighbors (g : Graph) (n : Z) : result (list Z) :=
  match oget g n with
  | Some nbrs => Ok (okeys nbrs)
  | None => Raise NetworkXError
  end.
(** [G.adj[u][v]["weight"]]: a [KeyError] at any of the three lookups. *)
Definition weight (g : Graph) (u v : Z) : result R :=
  nbrs ← oget_r g u;
  data ← oget_r nbrs v;
  match data with Some w => Ok w | None => Raise KeyError end.
(** [nx.to_numpy_array(G)]: rows and columns in node order, 0 for a
    missing edge, 1 for an edge without weight. *)
Definition to_numpy_array (g : Graph) : list (list R) :=
  (λ u, (λ v, match oget g u ≫= (λ nbrs, oget nbrs v) with
              | Some (Some w) => w
              | Some None => 1%R
              | None => 0%R
              end) <$> nodes g) <$> nodes g.
(** [G.has_edge(u, v)] *)
Definition has_edge (g : Graph) (u v : Z) : bool :=
  match oget g u with
  | Some nbrs => bool_decide (v ∈ okeys nbrs)
  | None => false
  end.
(** Every edge carries a weight: the weighted graph the constructor is
    documented to take. *)
Definition weighted (g : Graph) : bool :=
  forallb (λ nbrs : odict Z (option R),
             forallb (λ d : option R, bool_decide (is_Some d)) (ovalues nbrs))
          (ovalues g).
(** Every neighbour is a node, as in any [networkx] graph. *)
Definition closed (g : Graph) : bool :=
  forallb (λ nbrs : odict Z (option R),
             forallb (λ v, bool_decide (v ∈ nodes g)) (okeys nbrs))
          (ovalues g).
(** The documented constraint on labels: the N nodes are labelled by
    integers of 0..N-1. *)
Definition contiguous (g : Graph) : bool :=
  forallb (λ v, (0 <=? v) && (v <? Z.of_nat (length (nodes g)))) (nodes g).

End nx.

Module Graph.

Definition SCREEN_WIDTH : R := 1000.
Definition SCREEN_HEIGHT : R := 1000.

Definition position := (R * R)%type.

(** Modelled from the spec: the [Point] class of [datacollect.utils.objects],
    which is not part of the sources at hand (spec, sections 3 and 4.3):
    a display position, a node label and a collection counter,
    incremented by every collection; [is_collected] holds once the
    counter is positive. *)
Module Point.
Record t := {
  position : Graph.position;
  label : Z;
  collect_counter : Z;
}.
Definition new (pos : Graph.position) (l : Z) : t :=
  {| position := pos; label := l; collect_counter := 0 |}.
Definition is_collected (p : t) : bool := 0 <? collect_counter p.
Definition get_collect_counter (p : t) : Z := collect_counter p.
Definition collect (p : t) : t :=
  {| position := position p; label := label p;
     collect_counter := collect_counter p + 1 |}.
End Point.

(** Modelled from the spec: the [Collector] class of
    [datacollect.utils.objects], which is not part of the sources at hand
    (spec, sections 3 and 4.3).  [move] sets position and label and
    appends to the path without any check; [collect] counts the
    collection on the point and on the collector:
    [unique_points_collected] grows iff the counter was 0 before,
    [cheated] iff the point had been collected. *)
Module Collector.
Record t := {
  position : Graph.position;
  label : Z;
  path_positions : list Graph.position;
  total_points_collected : Z;
  unique_points_collected : Z;
  cheated : Z;
}.
Definition new (pos : Graph.position) (l : Z) : t :=
  {| position := pos; label := l; path_positions := [];
     total_points_collected := 0; unique_points_collected := 0; cheated := 0 |}.
Definition move (c : t) (pos : Graph.position) (l : Z) : t :=
  {| position := pos; label := l;
     path_positions := path_positions c ++ [pos];
     total_points_collected := total_points_collected c;
     unique_points_collected := unique_points_collected c;
     cheated := cheated c |}.
Definition collect (c : t) (p : Point.t) : t * Point.t :=
  let was := Point.is_collected p in
  ({| position := position c; label := label c;
      path_positions := path_positions c;
      total_points_collected := total_points_collected c + 1;
      unique_points_collected :=
        (if was then unique_points_collected c else unique_points_collected c + 1);
      cheated := (if was then cheated c + 1 else cheated c) |},
   Point.collect p).
End Collector.

(** The constructor's arguments. *)
Record config := {
  cfg_graph : nx.Graph;
  cfg_point_labels : list Z;
  cfg_init_agent_labels : list Z;
  cfg_max_collect : list Z;
  cfg_nodes_per_row : option Z;
  cfg_cheat_cost : R;
  cfg_caught_probability : R;
  cfg_static_graph : bool;
}.

Record env := {
  graph : nx.Graph;
  point_labels : list Z;
  init_agent_labels : list Z;
  cheat_cost : R;
  caught_probability : R;
  static_graph : bool;
  nodes_per_row : Z;
  node_width : R;
  node_height : R;
  max_collect : gmap agent Z;
  action_spaces : gmap agent Discrete;
  rng : option Z;                       (* the seed of [self.rng], if any *)
  aec : AECEnv;
  iteration : Z;
  points : odict Z Point.t;
  collectors : odict agent Collector.t;
  cumulative_rewards : gmap agent R;
  has_reset : bool;
  terminate : bool;
  truncate : bool;
}.

(** [math.ceil(n / m)] on integers, [ZeroDivisionError] for [m = 0].
    The code divides as floats and rounds up; that is this integer for
    [n] below 2^52 and a positive [m] below 2^52, and the model stands
    for the code on such sizes only. *)
Definition ceil_div (n m : Z) : result Z :=
  if m =? 0 then Raise ZeroDivisionError else Ok (- ((- n) `div` m)).

(** [_get_node_shape]:
      width = screen_width / nodes_per_row
      height = screen_height / math.ceil(n_nodes / nodes_per_row)
    The two quotients are floats in the code and reals here: the model
    keeps the operations, not their rounding. *)
Definition _get_node_shape (n_nodes nodes_per_row : Z) : result (R * R) :=
  if nodes_per_row =? 0 then Raise ZeroDivisionError else
  rows ← ceil_div n_nodes nodes_per_row;
  if rows =? 0 then Raise ZeroDivisionError else
  Ok ((SCREEN_WIDTH / IZR nodes_per_row)%R, (SCREEN_HEIGHT / IZR rows)%R).

(** [_get_node_position]; [nodes_per_row] is never 0 in a constructed
    environment.  The column and the row are exact integers; the two
    products are floats in the code and reals here. *)
Definition _get_node_position (node_label nodes_per_row : Z)
    (node_width node_height : R) : position :=
  ((IZR (node_label `mod` nodes_per_row) * node_width)%R,
   (IZR (node_label `div` nodes_per_row) * node_height)%R).

(** [min(nodes)] *)
Definition py_min (l : list Z) : result Z :=
  match l with
  | [] => Raise (ValueError EmptySequence)
  | x :: l' => Ok (foldl Z.min x l')
  end.

(** [__init__]: node geometry, agent names, budgets and action spaces
    ([Discrete(len(nodes), start=min(nodes))], which asserts a positive
    size).  [nodes_per_row] defaults to [ceil(sqrt(len(nodes)))].  The
    observation and state space declarations are not part of the model. *)
Definition init (c : config) : result env :=
  let n_nodes := Z.of_nat (length (nx.nodes (cfg_graph c))) in
  let npr := match cfg_nodes_per_row c with
             | Some n => n
             | None => Z.sqrt_up n_nodes
             end in
  '(w, h) ← _get_node_shape n_nodes npr;
  let ags := make_agents (length (cfg_init_agent_labels c)) in
  mc ← build_max_collect ags 0 (cfg_max_collect c) ∅;
  spaces ← match ags with
           | [] => Ok ∅
           | _ :: _ =>
               start ← py_min (nx.nodes (cfg_graph c));
               if n_nodes <=? 0 then Raise AssertionError
               else Ok (dict_fromkeys ags {| dn := n_nodes; dstart := start |})
           end;
  Ok {| graph := cfg_graph c;
        point_labels := cfg_point_labels c;
        init_agent_labels := cfg_init_agent_labels c;
        cheat_cost := cfg_cheat_cost c;
        caught_probability := cfg_caught_probability c;
        static_graph := cfg_static_graph c;
        nodes_per_row := npr;
        node_width := w;
        node_height := h;
        max_collect := mc;
        action_spaces := spaces;
        rng := None;
        aec := {| agents := ags;
                  possible_agents := ags;
                  _agent_selector := reinit;
                  agent_selection := None;
                  rewards := ∅;
                  _cumulative_rewards := ∅;
                  terminations := ∅;
                  truncations := ∅;
                  infos := ∅;
                  _skip_agent_selection := None |};
        iteration := 0;
        points := [];
        collectors := [];
        cumulative_rewards := ∅;
        has_reset := false;
        terminate := false;
        truncate := false |}.

Definition node_position (s : env) (node_label : Z) : position :=
  _get_node_position node_label (nodes_per_row s) (node_width s) (node_height s).

(** [{agent: Collector(pos, label) for agent, label in zip(agents, init_agent_labels)}] *)
Definition _create_collectors (s : env) (init_agent_labels : list Z)
    (ags : list agent) : odict agent Collector.t :=
  odict_of_list
    (zip ags ((λ l, Collector.new (node_position s l) l) <$> init_agent_labels)).

(** [{label: Point(pos, label) for label in point_labels}] *)
Definition _create_points (s : env) (point_labels : list Z) : odict Z Point.t :=
  odict_of_list ((λ l, (l, Point.new (node_position s l) l)) <$> point_labels).

Definition cheating_cost (s : env) (p : Point.t) : R :=
  (cheat_cost s * caught_probability s)%R.

(** [reward(cur_node, new_node)]: the [KeyError] of the weight lookup
    becomes the [ValueError] "There is no edge between ...". *)
Definition reward (s : env) (cur_node new_node : Z) : result R :=
  match nx.weight (graph s) cur_node new_node with
  | Raise KeyError => Raise (ValueError EdgeNotFound)
  | Raise e => Raise e
  | Ok cost =>
      let cost :=
        match oget (points s) new_node with
        | Some p =>
            if Point.is_collected p then (cost + cheating_cost s p)%R else cost
        | None => cost
        end in
      Ok (- cost)%R
  end.

(** The global state, without its rendered image. *)
Record state_view := {
  obs_graph : list (list R);
  obs_point_labels : list Z;
  obs_collector_labels : list Z;
  obs_collected : list Z;
}.

Record observation := {
  obs_state : state_view;
  action_mask : list Z;
}.

Definition _state (g : nx.Graph) (pts : odict Z Point.t)
    (cols : odict agent Collector.t) : state_view :=
  {| obs_graph := nx.to_numpy_array g;
     obs_point_labels := Point.label <$> ovalues pts;
     obs_collector_labels := Collector.label <$> ovalues cols;
     obs_collected := Point.get_collect_counter <$> ovalues pts |}.

(** [mask[i] = v] on a numpy vector: negative indices count from the
    end, anything else out of range is an [IndexError]. *)
Definition np_setitem (mask : list Z) (i v : Z) : result (list Z) :=
  let n := Z.of_nat (length mask) in
  if (0 <=? i) && (i <? n) then Ok (<[Z.to_nat i := v]> mask)
  else if (- n <=? i) && (i <? 0) then Ok (<[Z.to_nat (n + i) := v]> mask)
  else Raise IndexError.

(** [for neighbor in neighbors: action_mask[neighbor] = 1] *)
Fixpoint mark_neighbors (mask : list Z) (nbrs : list Z) : result (list Z) :=
  match nbrs with
  | [] => Ok mask
  | nb :: nbrs' => mask' ← np_setitem mask nb 1; mark_neighbors mask' nbrs'
  end.

Definition _get_action_mask (s : env) (a : agent) : result (list Z) :=
  let zeros := replicate (length (nx.nodes (graph s))) 0 in
  c ← oget_r (collectors s) a;
  nbrs ← nx.neighbors (graph s) (Collector.label c);
  mark_neighbors zeros nbrs.

Definition observe (s : env) (a : agent) : result observation :=
  let obs := _state (graph s) (points s) (collectors s) in
  mask ← _get_action_mask s a;
  Ok {| obs_state := obs; action_mask := mask |}.

Definition state (s : env) : state_view :=
  _state (graph s) (points s) (collectors s).

(** [{agent: self.observe(agent) for agent in self.agents}] *)
Fixpoint observe_all (s : env) (ags : list agent) (acc : gmap agent observation)
  : result (gmap agent observation) :=
  match ags with
  | [] => Ok acc
  | a :: ags' => o ← observe s a; observe_all s ags' (<[a := o]> acc)
  end.

(** The [sample] override installed on every action space.  The draw of
    [self.rng.choice] is the argument [draw]. *)
Definition sample (s : env) (draw : nat) : result (option Z) :=
  match agent_selection (aec s) with
  | None => Raise AssertionError
  | Some agent_ =>
      if negb (has_reset s) then Raise AssertionError else
      c ← oget_r (collectors s) agent_;
      possible_actions ← nx.neighbors (graph s) (Collector.label c);
      match possible_actions with
      | [] => Ok None
      | _ :: _ =>
          Ok (possible_actions !! (draw `mod` length possible_actions)%nat)
      end
  end.

(** The fields [reset] and [step] may change; everything else is
    carried over. *)
Definition update (s : env) (seed : option Z) (e : AECEnv) (it : Z)
    (pts : odict Z Point.t) (cols : odict agent Collector.t)
    (cr : gmap agent R) (reset_done term trunc : bool) : env :=
  {| graph := graph s;
     point_labels := point_labels s;
     init_agent_labels := init_agent_labels s;
     cheat_cost := cheat_cost s;
     caught_probability := caught_probability s;
     static_graph := static_graph s;
     nodes_per_row := nodes_per_row s;
     node_width := node_width s;
     node_height := node_height s;
     max_collect := max_collect s;
     action_spaces := action_spaces s;
     rng := seed;
     aec := e;
     iteration := it;
     points := pts;
     collectors := cols;
     cumulative_rewards := cr;
     has_reset := reset_done;
     terminate := term;
     truncate := trunc |}.

(** [reset(seed)]: the seed first, then the agents, the scheduler, the
    collectors, the points, the bookkeeping and the observations. *)
Definition reset (s : env) (seed : option Z) : result (env * gmap agent observation) :=
  rng' ← reseed (rng s) seed;
  let ags := possible_agents (aec s) in
  '(sel, first) ← selector_reset ags;
  let cols := _create_collectors s (init_agent_labels s) ags in
  let pts := _create_points s (point_labels s) in
  let s' :=
    update s rng'
      {| agents := ags;
         possible_agents := possible_agents (aec s);
         _agent_selector := sel;
         agent_selection := Some first;
         rewards := dict_fromkeys ags 0%R;
         _cumulative_rewards := dict_fromkeys ags 0%R;
         terminations := dict_fromkeys ags false;
         truncations := dict_fromkeys ags false;
         infos := dict_fromkeys ags ();
         _skip_agent_selection := _skip_agent_selection (aec s) |}
      0 pts cols (dict_fromkeys ags 0%R) true false false in
  observations ← observe_all s' ags ∅;
  Ok (s', observations).

(** The move of the live branch: reward, new collectors and new points.
    [action in neighbors and action is not None] guards the move;
    otherwise the reward is 0 and nothing changes. *)
Definition move_and_collect (s : env) (agent_ : agent) (collector : Collector.t)
    (neighbors : list Z) (act : action)
  : result (R * odict agent Collector.t * odict Z Point.t) :=
  match act with
  | Some a =>
      if bool_decide (a ∈ neighbors) then
        reward_ ← reward s (Collector.label collector) a;
        (* Move agent to new node. *)
        let collector := Collector.move collector (node_position s a) a in
        (* Check if agent has collected a point. *)
        match oget (points s) a with
        | Some p =>
            let '(collector, p) := Collector.collect collector p in
            Ok (reward_, oset (collectors s) agent_ collector, oset (points s) a p)
        | None => Ok (reward_, oset (collectors s) agent_ collector, points s)
        end
      else Ok (0%R, collectors s, points s)
  | None => Ok (0%R, collectors s, points s)
  end.

(** The live branch of [step], after the action-space check. *)
Definition step_live (s : env) (agent_ : agent) (act : action) : result env :=
  let e := aec s in
  collector ← oget_r (collectors s) agent_;
  let cur_node := Collector.label collector in
  neighbors ← nx.neighbors (graph s) cur_node;
  '(reward_, cols, pts) ← move_and_collect s agent_ collector neighbors act;
  (* Update termination and truncation for agent. *)
  c ← oget_r cols agent_;
  budget ← dict_get (max_collect s) agent_;
  let term :=
    if budget <=? Collector.total_points_collected c
    then <[agent_ := true]> (terminations e) else terminations e in
  let rw := <[agent_ := reward_]> (rewards e) in
  total ← dict_get (cumulative_rewards s) agent_;
  let cr := <[agent_ := (total + reward_)%R]> (cumulative_rewards s) in
  (* Cumulative reward since agent has last acted. *)
  cum ← _accumulate_rewards rw (<[agent_ := 0%R]> (_cumulative_rewards e));
  '(sel, nxt) ← next (agents e) (_agent_selector e);
  Ok (update s (rng s)
        {| agents := agents e;
           possible_agents := possible_agents e;
           _agent_selector := sel;
           agent_selection := Some nxt;
           rewards := rw;
           _cumulative_rewards := cum;
           terminations := term;
           truncations := truncations e;
           infos := infos e;
           _skip_agent_selection := _skip_agent_selection e |}
        (iteration s + 1) pts cols cr (has_reset s)
        (all_values term) (all_values (truncations e))).

(** [self.agent_selection not in self.agents and self.agents] *)
Definition selection_lost (e : AECEnv) : bool :=
  match agent_selection e with
  | Some a => bool_decide (a ∉ agents e) && bool_decide (agents e ≠ [])
  | None => bool_decide (agents e ≠ [])
  end.

(** The dead branch of [step]: the framework's helper, then the guard
    against the first agent dying first. *)
Definition step_dead (s : env) (act : action) : result env :=
  e ← _was_dead_step (aec s) act;
  e ← (if selection_lost e then
         '(sel, nxt) ← next (agents e) (_agent_selector e);
         Ok (select e sel nxt)
       else Ok e);
  Ok (update s (rng s) e (iteration s) (points s) (collectors s)
        (cumulative_rewards s) (has_reset s) (terminate s) (truncate s)).

Definition step (s : env) (act : action) : result env :=
  if negb (has_reset s) then Raise AssertionError else
  match agent_selection (aec s) with
  | None => Raise KeyError
  | Some agent_ =>
      dead ← is_dead (aec s) agent_;
      if dead : bool then step_dead s act
      else
        sp ← dict_get (action_spaces s) agent_;
        if negb (contains sp act) && bool_decide (act ≠ None)
        then Raise (ValueError InvalidAction)
        else step_live s agent_ act
  end.

(** States of an episode: [reset] on a constructed environment, then
    any number of calls of [step] and [reset] that return.  A call that
    raises is no transition: on these states every [raise] of [step]
    comes before its first write. *)
Inductive reachable (c : config) : env → Prop :=
  | reach_reset s0 seed s obs :
      init c = Ok s0 → reset s0 seed = Ok (s, obs) → reachable c s
  | reach_again s seed s' obs :
      reachable c s → reset s seed = Ok (s', obs) → reachable c s'
  | reach_step s act s' :
      reachable c s → step s act = Ok s' → reachable c s'.

(** An episode from construction: [reset()], then the actions in turn. *)
Definition run (c : config) (acts : list action) : result env :=
  s0 ← init c;
  '(s, _) ← reset s0 None;
  foldl (λ r act, s ← r; step s act) (Ok s) acts.

(** One entry of the [stats] dict of [_get_stats]. *)
Record collector_stats := {
  st_total_points_collected : Z;
  st_unique_points_collected : Z;
  st_cheated : Z;
}.

Definition stats_of (c : Collector.t) : collector_stats :=
  {| st_total_points_collected := Collector.total_points_collected c;
     st_unique_points_collected := Collector.unique_points_collected c;
     st_cheated := Collector.cheated c |}.

(** [_get_stats]: the per-agent entries and the three running totals,
    accumulated over [self.collectors] in its order. *)
Definition _get_stats (s : env) : odict agent collector_stats * Z * Z * Z :=
  foldl (λ acc kv,
           let '(stats, total, unique, cheated) := acc in
           let collector : Collector.t := kv.2 in
           (oset stats kv.1 (stats_of collector),
            total + Collector.total_points_collected collector,
            unique + Collector.unique_points_collected collector,
            cheated + Collector.cheated collector))
        ([], 0, 0, 0) (collectors s).

(** The configurations the constructor is documented for: the initial
    agent labels are nodes of a graph whose neighbours are nodes. *)
Definition valid (c : config) : bool :=
  nx.closed (cfg_graph c) &&
  forallb (λ l, bool_decide (l ∈ nx.nodes (cfg_graph c))) (cfg_init_agent_labels c).

(** The topology replaced from outside, as [static_graph=False] allows. *)
Definition set_graph (s : env) (g : nx.Graph) : env :=
  {| graph := g;
     point_labels := point_labels s;
     init_agent_labels := init_agent_labels s;
     cheat_cost := cheat_cost s;
     caught_probability := caught_probability s;
     static_graph := static_graph s;
     nodes_per_row := nodes_per_row s;
     node_width := node_width s;
     node_height := node_height s;
     max_collect := max_collect s;
     action_spaces := action_spaces s;
     rng := rng s;
     aec := aec s;
     iteration := iteration s;
     points := points s;
     collectors := collectors s;
     cumulative_rewards := cumulative_rewards s;
     has_reset := has_reset s;
     terminate := terminate s;
     truncate := truncate s |}.

End Graph.

(** * Invariants of the bookkeeping *)

(** The keys of a per-agent dictionary are exactly the agents of [l]. *)
Definition keys_are {V} (d : gmap agent V) (l : list agent) : Prop :=
  ∀ a, is_Some (d !! a) ↔ a ∈ l.

(** What [reset] establishes and [step] keeps about the framework's
    fields: the five dictionaries are keyed by the active agents, and no
    agent is ever truncated. *)
Record aec_wf (e : AECEnv) : Prop := {
  wf_nodup : NoDup (agents e);
  wf_sub : ∀ a, a ∈ agents e → a ∈ possible_agents e;
  wf_rewards : keys_are (rewards e) (agents e);
  wf_cumulative : keys_are (_cumulative_rewards e) (agents e);
  wf_terminations : keys_are (terminations e) (agents e);
  wf_truncations : keys_are (truncations e) (agents e);
  wf_infos : keys_are (infos e) (agents e);
  wf_not_truncated : map_Forall (λ _ b, b = false) (truncations e);
  wf_selected : is_Some (agent_selection e);
  wf_possible : NoDup (possible_agents e);
}.

(** The selected agent is neither terminated nor truncated. *)
Definition live (e : AECEnv) (a : agent) : Prop :=
  agent_selection e = Some a ∧
  terminations e !! a = Some false ∧ truncations e !! a = Some false.

(** The episode flags agree with the per-agent flags. *)
Definition terminate_ok (e : AECEnv) (term : bool) : Prop :=
  term = all_values (terminations e).
Definition truncate_ok (e : AECEnv) (trunc : bool) : Prop :=
  trunc = all_values (truncations e).

(** The terminated flag against the budget: a flag that is set means
    the budget is reached, and a positive budget that is reached means
    the flag is set. *)
Definition budget_ok (term : gmap agent bool) (budget : gmap agent Z)
    (total : agent → option Z) : Prop :=
  ∀ a b t m, term !! a = Some b → total a = Some t → budget !! a = Some m →
    (b = true → m <= t) ∧ (0 < m → m <= t → b = true).

(** What the constructor of the continuous variant establishes for good. *)
Record continuous_cfg_ok (s : Continuous.env) : Prop := {
  cok_possible : NoDup (possible_agents (Continuous.aec s));
  cok_positions :
    length (possible_agents (Continuous.aec s)) = length (Continuous.agent_positions s);
  cok_budget : ∀ a, a ∈ possible_agents (Continuous.aec s) →
    is_Some (Continuous.max_collect s !! a);
  cok_spaces : ∀ a, a ∈ possible_agents (Continuous.aec s) →
    Continuous.action_spaces s !! a =
      Some {| dn := Z.of_nat (length (Continuous.point_positions s)); dstart := 0 |};
}.

(** The invariant of the continuous variant's episodes. *)
Record continuous_wf (s : Continuous.env) : Prop := {
  cwf_cfg : continuous_cfg_ok s;
  cwf_reset : Continuous.has_reset s = true;
  cwf_aec : aec_wf (Continuous.aec s);
  cwf_terminate : terminate_ok (Continuous.aec s) (Continuous.terminate s);
  cwf_truncate : agents (Continuous.aec s) ≠ [] →
    truncate_ok (Continuous.aec s) (Continuous.truncate s);
  cwf_points : length (Continuous.points s) = length (Continuous.point_positions s);
  cwf_collectors : ∀ a, a ∈ possible_agents (Continuous.aec s) →
    is_Some (oget (Continuous.collectors s) a);
  cwf_terminated :
    budget_ok (terminations (Continuous.aec s)) (Continuous.max_collect s)
      (λ a, Continuous.Collector.total_points_collected <$> oget (Continuous.collectors s) a);
}.

(** What the constructor of the graph variant establishes for good, on
    a valid configuration. *)
Record graph_cfg_ok (s : Graph.env) : Prop := {
  gok_possible : NoDup (possible_agents (Graph.aec s));
  gok_labels :
    length (possible_agents (Graph.aec s)) = length (Graph.init_agent_labels s);
  gok_budget : ∀ a, a ∈ possible_agents (Graph.aec s) →
    is_Some (Graph.max_collect s !! a);
  gok_spaces : ∀ a, a ∈ possible_agents (Graph.aec s) →
    is_Some (Graph.action_spaces s !! a);
  gok_closed : nx.closed (Graph.graph s) = true;
  gok_init_labels : ∀ l, l ∈ Graph.init_agent_labels s → l ∈ nx.nodes (Graph.graph s);
}.

(** The invariant of the graph variant's episodes. *)
Record graph_wf (s : Graph.env) : Prop := {
  gwf_cfg : graph_cfg_ok s;
  gwf_reset : Graph.has_reset s = true;
  gwf_aec : aec_wf (Graph.aec s);
  gwf_terminate : terminate_ok (Graph.aec s) (Graph.terminate s);
  gwf_truncate : agents (Graph.aec s) ≠ [] →
    truncate_ok (Graph.aec s) (Graph.truncate s);
  gwf_totals : ∀ a, a ∈ possible_agents (Graph.aec s) →
    is_Some (Graph.cumulative_rewards s !! a);
  gwf_collectors : ∀ a, a ∈ possible_agents (Graph.aec s) →
    ∃ c, oget (Graph.collectors s) a = Some c ∧
         Graph.Collector.label c ∈ nx.nodes (Graph.graph s);
  gwf_selected : agents (Graph.aec s) ≠ [] →
    ∀ a, agent_selection (Graph.aec s) = Some a → a ∈ agents (Graph.aec s);
  gwf_terminated :
    budget_ok (terminations (Graph.aec s)) (Graph.max_collect s)
      (λ a, Graph.Collector.total_points_collected <$> oget (Graph.collectors s) a);
}.

(** The part of the graph variant's invariant that needs no assumption
    on the configuration. *)
Record graph_inv (s : Graph.env) : Prop := {
  ginv_aec : aec_wf (Graph.aec s);
  ginv_terminate : terminate_ok (Graph.aec s) (Graph.terminate s);
  ginv_truncate : agents (Graph.aec s) ≠ [] →
    truncate_ok (Graph.aec s) (Graph.truncate s);
  ginv_terminated :
    budget_ok (terminations (Graph.aec s)) (Graph.max_collect s)
      (λ a, Graph.Collector.total_points_collected <$> oget (Graph.collectors s) a);
}.

(** A result that is not the "no edge" error of [reward]. *)
Definition edge_safe {A} (m : result A) : Prop :=
  m ≠ Raise (ValueError EdgeNotFound).

(** [mask] is the indicator vector of the neighbours of node [u] in [g]:
    one entry per node, 1 at the neighbours and 0 elsewhere. *)
Definition is_neighbor_mask (g : nx.Graph) (u : Z) (mask : list Z) : Prop :=
  ∃ nbrs, nx.neighbors g u = Ok nbrs ∧
          length mask = length (nx.nodes g) ∧
          ∀ i : nat, (i < length (nx.nodes g))%nat →
            mask !! i = Some (if bool_decide (Z.of_nat i ∈ nbrs) then 1 else 0).

(** * Example environments *)

(** The graph of the spec's scenarios: edges 0 - 1 of weight 2 and
    1 - 2 of weight 3, and a loop of weight 1 at node 2. *)
Definition path3 : nx.Graph :=
  [ (0, [(1, Some 2%R)]);
    (1, [(0, Some 2%R); (2, Some 3%R)]);
    (2, [(1, Some 3%R); (2, Some 1%R)]) ].

(** One agent at node 0 with budget 1, one point at node 2. *)
Definition graph_solo : Graph.config :=
  {| Graph.cfg_graph := path3;
     Graph.cfg_point_labels := [2];
     Graph.cfg_init_agent_labels := [0];
     Graph.cfg_max_collect := [1];
     Graph.cfg_nodes_per_row := None;
     Graph.cfg_cheat_cost := 500;
     Graph.cfg_caught_probability := 0.5;
     Graph.cfg_static_graph := true |}.

(** Two agents at nodes 0 and 1 with budgets 1 and 2, one point at node 2. *)
Definition graph_pair : Graph.config :=
  {| Graph.cfg_graph := path3;
     Graph.cfg_point_labels := [2];
     Graph.cfg_init_agent_labels := [0; 1];
     Graph.cfg_max_collect := [1; 2];
     Graph.cfg_nodes_per_row := None;
     Graph.cfg_cheat_cost := 500;
     Graph.cfg_caught_probability := 0.5;
     Graph.cfg_static_graph := true |}.

(** One agent on the plane with budget 1 and a single point. *)
Definition plane_solo : Continuous.config :=
  {| Continuous.cfg_point_positions := [(0, 0)%R];
     Continuous.cfg_agent_positions := [(3, 4)%R];
     Continuous.cfg_max_collect := [1];
     Continuous.cfg_cheat_cost := 500;
     Continuous.cfg_caught_probability := 0.5 |}.

(** Two agents on the plane with budgets 1 and 2 and a single point. *)
Definition plane_pair : Continuous.config :=
  {| Continuous.cfg_point_positions := [(0, 0)%R];
     Continuous.cfg_agent_positions := [(3, 4)%R; (1, 0)%R];
     Continuous.cfg_max_collect := [1; 2];
     Continuous.cfg_cheat_cost := 500;
     Continuous.cfg_caught_probability := 0.5 |}.

(** The value of a call that returns. *)
Definition the {A : Type} (r : result A)
  : match is_ok r return Type with true => A | false => unit end :=
  match r with
  | Ok a => a
  | Raise _ => ()
  end.

(** The states the examples start from. *)
Definition graph_solo_start : Graph.env := the (Graph.run graph_solo []).
Definition graph_pair_start : Graph.env := the (Graph.run graph_pair []).
Definition plane_pair_start : Continuous.env := the (Continuous.run plane_pair []).

Definition graph_solo_mid : Graph.env := the (Graph.run graph_solo [Some 1]).

(** The solo episodes played to the end: the agent collects its one
    point, is terminated, and is pruned by a last [step(None)]. *)
Definition graph_solo_end : Graph.env :=
  the (Graph.run graph_solo [Some 1; Some 2; None]).
Definition plane_solo_end : Continuous.env :=
  the (Continuous.run plane_solo [Some 0; None]).

(** The pair on the graph after four moves: [agent_0] has cheated on
    the point and is terminated and selected, [agent_1] has just moved
    back to node 1 and is alive. *)
Definition graph_pair_dead : Graph.env :=
  the (Graph.run graph_pair [Some 1; Some 2; Some 2; Some 1]).
Definition graph_pair_pruned : Graph.env :=
  the (Graph.step graph_pair_dead None).

(** The pair on the plane: [agent_0] collects and is terminated,
    [agent_1] collects once more, then the dead [agent_0] is pruned. *)
Definition plane_pair_dead : Continuous.env :=
  the (Continuous.run plane_pair [Some 0; Some 0]).
Definition plane_pair_pruned : Continuous.env :=
  the (Continuous.step plane_pair_dead None).

(** * Further properties: what they are stated with *)

(** The fields of the graph variant that only the constructor writes. *)
Definition graph_same_config (s s' : Graph.env) : Prop :=
  Graph.graph s' = Graph.graph s ∧
  Graph.point_labels s' = Graph.point_labels s ∧
  Graph.init_agent_labels s' = Graph.init_agent_labels s ∧
  Graph.cheat_cost s' = Graph.cheat_cost s ∧
  Graph.caught_probability s' = Graph.caught_probability s ∧
  Graph.nodes_per_row s' = Graph.nodes_per_row s ∧
  Graph.node_width s' = Graph.node_width s ∧
  Graph.node_height s' = Graph.node_height s ∧
  Graph.max_collect s' = Graph.max_collect s ∧
  Graph.action_spaces s' = Graph.action_spaces s ∧
  possible_agents (Graph.aec s') = possible_agents (Graph.aec s).

(** The fields of the continuous variant that only the constructor writes. *)
Definition continuous_same_config (s s' : Continuous.env) : Prop :=
  Continuous.point_positions s' = Continuous.point_positions s ∧
  Continuous.agent_positions s' = Continuous.agent_positions s ∧
  Continuous.cheat_cost s' = Continuous.cheat_cost s ∧
  Continuous.caught_probability s' = Continuous.caught_probability s ∧
  Continuous.max_collect s' = Continuous.max_collect s ∧
  Continuous.action_spaces s' = Continuous.action_spaces s ∧
  possible_agents (Continuous.aec s') = possible_agents (Continuous.aec s).

(** [agents[i % len(agents)]] *)
Definition turn (ags : list agent) (i : Z) : option agent :=
  ags !! Z.to_nat (i `mod` Z.of_nat (length ags)).

(** The scheduler is in step with the agent list: the selected agent is
    the one before the cursor. *)
Definition in_step (e : AECEnv) : Prop :=
  0 <= _current_agent (_agent_selector e) < Z.of_nat (length (agents e)) ∧
  agent_selection e = turn (agents e) (_current_agent (_agent_selector e) - 1).

(** A graph that breaks the label constraint: two nodes, labelled 0
    and 5, joined by an edge of weight 1. *)
Definition gap_graph : nx.Graph :=
  [ (0, [(5, Some 1%R)]); (5, [(0, Some 1%R)]) ].

(** The first state of the pair's episode after [agent_0] has moved to
    node 1. *)
Definition graph_pair_moved : Graph.env :=
  the (Graph.step graph_pair_start (Some 1)).

(** The count of a collector against its agent's budget: it is never
    negative and never above the budget (above 1 for a budget below 1),
    and it is strictly below while the terminated flag is clear. *)
Definition within_budget (term : gmap agent bool) (budget : gmap agent Z)
    (total : agent → option Z) : Prop :=
  ∀ a t m, total a = Some t → budget !! a = Some m →
    0 <= t <= Z.max m 1 ∧ (term !! a = Some false → t < Z.max m 1).

Definition graph_totals (s : Graph.env) (a : agent) : option Z :=
  Graph.Collector.total_points_collected <$> oget (Graph.collectors s) a.
Definition continuous_totals (s : Continuous.env) (a : agent) : option Z :=
  Continuous.Collector.total_points_collected <$> oget (Continuous.collectors s) a.

(** [sum(xs)] on integers. *)
Definition sumZ (xs : list Z) : Z := foldr Z.add 0 xs.

(** The number of points that have been collected at least once. *)
Definition collected_points (pts : odict Z Graph.Point.t) : Z :=
  sumZ ((λ p, if Graph.Point.is_collected p then 1 else 0) <$> ovalues pts).

(** The counters of a collector agree: every collection is either the
    first of its point or a cheat. *)
Definition collector_tally_ok (c : Graph.Collector.t) : Prop :=
  Graph.Collector.total_points_collected c =
    Graph.Collector.unique_points_collected c + Graph.Collector.cheated c ∧
  0 <= Graph.Collector.unique_points_collected c ∧
  0 <= Graph.Collector.cheated c.

(** The collectors' counters against the points' counters. *)
Record tally_ok (s : Graph.env) : Prop := {
  tally_collectors : ∀ a c, (a, c) ∈ Graph.collectors s → collector_tally_ok c;
  tally_points : ∀ l p, (l, p) ∈ Graph.points s → 0 <= Graph.Point.collect_counter p;
  tally_total :
    sumZ (Graph.Collector.total_points_collected <$> ovalues (Graph.collectors s)) =
    sumZ (Graph.Point.collect_counter <$> ovalues (Graph.points s));
  tally_unique :
    sumZ (Graph.Collector.unique_points_collected <$> ovalues (Graph.collectors s)) =
    collected_points (Graph.points s);
}.

(** The solo environment as constructed, before any [reset]. *)
Definition graph_solo_made : Graph.env := the (Graph.init graph_solo).

(** No entry of a reward dict lies outside the declared
    [reward_range = (-inf, 0)]. *)
Definition in_reward_range (m : gmap agent R) : Prop :=
  ∀ a r, m !! a = Some r → (r <= 0)%R.

(** The expected cheating cost and every edge weight are not negative. *)
Definition graph_costs_nonneg (s : Graph.env) : Prop :=
  (0 <= Graph.cheat_cost s * Graph.caught_probability s)%R ∧
  ∀ u v w, nx.weight (Graph.graph s) u v = Ok w → (0 <= w)%R.

(** The seeds [np_random] accepts: none, or a non-negative integer. *)
Definition seed_ok (seed : option Z) : Prop := ∀ x, seed = Some x → 0 <= x.

(** A graph with a negative weight: one edge 0 - 1 of weight -1. *)
Definition negative_edge : nx.Graph :=
  [ (0, [(1, Some (-1)%R)]); (1, [(0, Some (-1)%R)]) ].

(** One agent at node 0 with budget 1, one point at node 1, on the
    graph with the negative weight. *)
Definition graph_negative : Graph.config :=
  {| Graph.cfg_graph := negative_edge;
     Graph.cfg_point_labels := [1];
     Graph.cfg_init_agent_labels := [0];
     Graph.cfg_max_collect := [1];
     Graph.cfg_nodes_per_row := None;
     Graph.cfg_cheat_cost := 500;
     Graph.cfg_caught_probability := 0.5;
     Graph.cfg_static_graph := true |}.

Definition graph_negative_start : Graph.env := the (Graph.run graph_negative []).
Definition graph_negative_moved : Graph.env :=
  the (Graph.step graph_negative_start (Some 1)).

(** * Facts about the containers and the scheduler *)

Lemma bind_Ok {A B} (m : result A) (f : A → result B) (b : B) :
  m ≫= f = Ok b ↔ ∃ a, m = Ok a ∧ f a = Ok b.
Proof.
  destruct m as [a|e]; simpl; split.
  - intros H. exists a. done.
  - intros (a' & [= <-] & H). done.
  - intros [=].
  - intros (a' & [=] & _).
Qed.

(** Splits a hypothesis [x ← m; k = Ok r] into [m = Ok x] and [k = Ok r]. *)
Ltac bind_inv H :=
  let x := fresh "x" in
  let Hx := fresh "E" in
  apply bind_Ok in H; destruct H as (x & Hx & H).

Tactic Notation "bind_as" hyp(H) simple_intropattern(x) ident(Hx) :=
  apply bind_Ok in H; destruct H as (x & Hx & H).

Lemma py_index_elem {A} (l : list A) (i : Z) (x : A) :
  py_index l i = Ok x → x ∈ l.
Proof.
  unfold py_index. intros H.
  repeat case_match; simplify_eq; eapply list_elem_of_lookup_2; eauto.
Qed.

Lemma py_index_ok {A} (l : list A) (i : Z) :
  - Z.of_nat (length l) <= i < Z.of_nat (length l) →
  ∃ x, py_index l i = Ok x.
Proof.
  intros Hi. unfold py_index.
  destruct (Z.leb_spec 0 i), (Z.ltb_spec i (Z.of_nat (length l))); simpl; try lia.
  - destruct (lookup_lt_is_Some_2 l (Z.to_nat i)) as [x Hx]; [lia|].
    rewrite Hx. eauto.
  - destruct (Z.leb_spec (- Z.of_nat (length l)) i), (Z.ltb_spec i 0); simpl; try lia.
    destruct (lookup_lt_is_Some_2 l (Z.to_nat (Z.of_nat (length l) + i))) as [x Hx]; [lia|].
    rewrite Hx. eauto.
Qed.

Lemma py_index_nonneg {A} (l : list A) (i : Z) (x : A) :
  0 <= i → py_index l i = Ok x → l !! Z.to_nat i = Some x.
Proof.
  intros Hi. unfold py_index.
  destruct (Z.leb_spec 0 i); [|lia]. simpl.
  destruct (Z.ltb_spec i (Z.of_nat (length l))); simpl.
  - case_match; congruence.
  - destruct (Z.ltb_spec i 0); [lia|]. rewrite andb_false_r. done.
Qed.

Lemma next_elem (order : list agent) sel sel' a :
  next order sel = Ok (sel', a) → a ∈ order.
Proof.
  unfold next. case_match; [done|]. intros Hn. bind_inv Hn.
  simplify_eq. eapply py_index_elem; eauto.
Qed.

Lemma next_ok (order : list agent) sel :
  order ≠ [] → ∃ sel' a, next order sel = Ok (sel', a) ∧ a ∈ order.
Proof.
  intros Hne. unfold next.
  assert (0 < Z.of_nat (length order)) as Hlen by (destruct order; [done|simpl; lia]).
  destruct (Z.eqb_spec (Z.of_nat (length order)) 0); [lia|].
  pose proof (Z.mod_pos_bound (_current_agent sel + 1) _ Hlen) as Hm.
  destruct (py_index_ok order ((_current_agent sel + 1) `mod` Z.of_nat (length order) - 1))
    as [a Ha]; [lia|].
  rewrite Ha. simpl. eexists _, a. split; [done|]. eapply py_index_elem; eauto.
Qed.

Lemma list_remove_first_inv `{EqDecision A} (x : A) (l l' : list A) :
  list_remove_first x l = Ok l' →
  x ∈ l ∧ (∀ y, y ∈ l' → y ∈ l) ∧ (∀ y, y ∈ l → y ≠ x → y ∈ l') ∧
  (NoDup l → NoDup l' ∧ x ∉ l').
Proof.
  revert l'. induction l as [|y l IH]; intros l' H; simpl in H; [done|].
  destruct (decide (x = y)) as [->|Hne].
  - simplify_eq. split; [left|]. split; [intros z Hz; by right|].
    split; [intros z Hz Hzy; by apply elem_of_cons in Hz as [?|?]|].
    intros [? ?]%NoDup_cons. done.
  - bind_inv H. simplify_eq. destruct (IH _ E) as (Hin & Hsub & Hsup & Hnd).
    split; [by right|].
    split; [intros z [->|Hz]%elem_of_cons; [left|right; auto]|].
    split; [intros z [->|Hz]%elem_of_cons Hzx; [left|right; auto]|].
    intros [Hy Hl]%NoDup_cons. destruct (Hnd Hl) as [Hnd' Hx]. split.
    + apply NoDup_cons. split; [|done]. intros Hy'. apply Hy. auto.
    + intros [?|?]%elem_of_cons; [done|]. by apply Hx.
Qed.

Lemma list_remove_first_ok `{EqDecision A} (x : A) (l : list A) :
  x ∈ l → ∃ l', list_remove_first x l = Ok l'.
Proof.
  induction l as [|y l IH]; intros Hin; [by apply elem_of_nil in Hin|].
  simpl. destruct (decide (x = y)); [eauto|].
  apply elem_of_cons in Hin as [?|Hin]; [done|].
  destruct (IH Hin) as [l' ->]. simpl. eauto.
Qed.

Lemma dict_get_Ok `{Countable K} {V} (d : gmap K V) (k : K) (v : V) :
  dict_get d k = Ok v ↔ d !! k = Some v.
Proof.
  unfold dict_get. destruct (d !! k); split; intros E; by simplify_eq.
Qed.

Lemma dict_del_Ok `{Countable K} {V} (d d' : gmap K V) (k : K) :
  dict_del d k = Ok d' ↔ is_Some (d !! k) ∧ d' = delete k d.
Proof.
  unfold dict_del. destruct (d !! k) eqn:E; split.
  - intros [= <-]. eauto.
  - intros [_ ->]. done.
  - done.
  - intros [[? [=]] _].
Qed.

Lemma is_dead_Ok (e : AECEnv) (a : agent) (b : bool) :
  is_dead e a = Ok b ↔
  (terminations e !! a = Some true ∧ b = true) ∨
  (terminations e !! a = Some false ∧ truncations e !! a = Some b).
Proof.
  unfold is_dead, dict_get.
  destruct (terminations e !! a) as [[]|]; simpl.
  - split; [intros [= <-]; by left|]. by intros [[_ ->]|[[=] _]].
  - destruct (truncations e !! a) as [u|]; split.
    + intros [= <-]. by right.
    + by intros [[[=] _]|[_ [= ->]]].
    + done.
    + by intros [[[=] _]|[_ [=]]].
  - split; [done|]. by intros [[[=] _]|[[=] _]].
Qed.

Lemma deads_order_ok (term trunc : gmap agent bool) (l : list agent) :
  (∀ a, a ∈ l → is_Some (term !! a) ∧ is_Some (trunc !! a)) →
  ∃ r, deads_order term trunc l = Ok r.
Proof.
  induction l as [|a l IH]; intros Hl; simpl; [eauto|].
  destruct (Hl a) as [[t Ht] [u Hu]]; [left|].
  destruct IH as [r Hr]; [intros b Hb; apply Hl; by right|].
  unfold dict_get. rewrite Ht, Hr. simpl. destruct t; simpl; [eauto|].
  rewrite Hu. simpl. eauto.
Qed.

Lemma deads_order_elem (term trunc : gmap agent bool) (l r : list agent) (a : agent) :
  deads_order term trunc l = Ok r → a ∈ r → a ∈ l.
Proof.
  revert r. induction l as [|b l IH]; intros r H Ha; simpl in H.
  - by simplify_eq.
  - do 3 bind_inv H. simplify_eq. destruct x0.
    + apply elem_of_cons in Ha as [->|Ha]; [left|right; eauto].
    + right. eauto.
Qed.

(** What a returning [_was_dead_step] has done. *)
Lemma was_dead_step_inv (e e' : AECEnv) (act : action) :
  _was_dead_step e act = Ok e' →
  act = None ∧
  ∃ a, agent_selection e = Some a ∧ is_dead e a = Ok true ∧
       list_remove_first a (agents e) = Ok (agents e') ∧
       possible_agents e' = possible_agents e ∧
       _agent_selector e' = _agent_selector e ∧
       rewards e' = _clear_rewards (delete a (rewards e)) ∧
       is_Some (rewards e !! a) ∧
       _cumulative_rewards e' = delete a (_cumulative_rewards e) ∧
       is_Some (_cumulative_rewards e !! a) ∧
       terminations e' = delete a (terminations e) ∧
       truncations e' = delete a (truncations e) ∧
       is_Some (truncations e !! a) ∧
       infos e' = delete a (infos e) ∧
       is_Some (infos e !! a) ∧
       ∃ b, agent_selection e' = Some b ∧ (b ∈ agents e' ∨ b = a ∨
            _skip_agent_selection e = Some b).
Proof.
  unfold _was_dead_step. destruct act as [x|]; [done|].
  destruct (agent_selection e) as [a|] eqn:Hsel; [|done].
  intros H. split; [done|]. exists a. split; [done|].
  bind_inv H. destruct x; simpl in H; [|done].
  do 7 bind_inv H.
  apply dict_del_Ok in E0 as [? ->], E1 as [? ->], E2 as [? ->],
    E3 as [? ->], E4 as [? ->].
  destruct x5 as [|d0 ds]; simplify_eq; simpl.
  - repeat (split; [done|]).
    destruct (_skip_agent_selection e) as [k|] eqn:Hk; eauto.
  - repeat (split; [done|]).
    exists d0. split; [done|]. left.
    eapply deads_order_elem; [done|left].
Qed.

Lemma was_dead_step_None (e : AECEnv) (a : agent) :
  aec_wf e → agent_selection e = Some a → is_dead e a = Ok true →
  ∃ e', _was_dead_step e None = Ok e'.
Proof.
  intros Hwf Hsel Hdead.
  assert (a ∈ agents e) as Hin.
  { apply (wf_terminations e Hwf). apply is_dead_Ok in Hdead as [[-> _]|[-> _]]; eauto. }
  destruct (proj2 (wf_terminations e Hwf a) Hin) as [t Ht].
  destruct (proj2 (wf_truncations e Hwf a) Hin) as [u Hu].
  destruct (proj2 (wf_rewards e Hwf a) Hin) as [r Hr].
  destruct (proj2 (wf_cumulative e Hwf a) Hin) as [c Hc].
  destruct (proj2 (wf_infos e Hwf a) Hin) as [i Hi].
  unfold _was_dead_step. rewrite Hsel, Hdead. simpl.
  unfold dict_del. rewrite Ht, Hu, Hr, Hc, Hi. simpl.
  destruct (list_remove_first_ok a (agents e) Hin) as [ags Hags].
  rewrite Hags. simpl.
  apply list_remove_first_inv in Hags as (_ & Hsub & Hsup & Hnd).
  destruct (Hnd (wf_nodup e Hwf)) as [_ Hnotin].
  destruct (deads_order_ok (delete a (terminations e)) (delete a (truncations e)) ags)
    as [ds Hds].
  { intros b Hb. assert (b ≠ a) by (intros ->; done).
    rewrite !lookup_delete_ne by done.
    split; [apply (wf_terminations e Hwf)|apply (wf_truncations e Hwf)]; auto. }
  rewrite Hds. simpl. destruct ds; eauto.
Qed.

Lemma all_values_true `{Countable K} (d : gmap K bool) :
  all_values d = true ↔ ∀ k b, d !! k = Some b → b = true.
Proof. unfold all_values. rewrite bool_decide_eq_true. done. Qed.

Lemma all_values_false `{Countable K} (d : gmap K bool) (k : K) :
  d !! k = Some false → all_values d = false.
Proof.
  intros Hk. apply not_true_is_false. intros Hall.
  by specialize (proj1 (all_values_true d) Hall k false Hk).
Qed.

Lemma all_values_delete_true `{Countable K} (d : gmap K bool) (k : K) :
  d !! k = Some true → all_values (delete k d) = all_values d.
Proof.
  intros Hk. apply eq_true_iff_eq. rewrite !all_values_true. split.
  - intros Hall j b Hj. destruct (decide (j = k)) as [->|Hne]; [congruence|].
    apply (Hall j). by rewrite lookup_delete_ne.
  - intros Hall j b Hj. apply lookup_delete_Some in Hj as [_ Hj]. eauto.
Qed.

Lemma keys_are_delete {V} (d : gmap agent V) (l l' : list agent) (a : agent) :
  NoDup l → list_remove_first a l = Ok l' → keys_are d l →
  keys_are (delete a d) l'.
Proof.
  intros Hnd Hrm Hk b.
  apply list_remove_first_inv in Hrm as (_ & Hsub & Hsup & Hnd').
  destruct (Hnd' Hnd) as [_ Hnotin].
  rewrite lookup_delete_is_Some, (Hk b). split.
  - intros [Hne Hin]. auto.
  - intros Hin. split; [intros ->; done|auto].
Qed.

Lemma keys_are_insert {V} (d : gmap agent V) (l : list agent) (a : agent) (v : V) :
  a ∈ l → keys_are d l → keys_are (<[a := v]> d) l.
Proof.
  intros Hin Hk b. rewrite lookup_insert_is_Some, (Hk b).
  split; [intros [->|[_ ?]]; done|]. destruct (decide (a = b)); auto.
Qed.

Lemma keys_are_fromkeys {V} (l : list agent) (v : V) :
  keys_are (dict_fromkeys l v) l.
Proof.
  intros a. unfold dict_fromkeys.
  rewrite <- elem_of_dom, dom_gset_to_gmap, elem_of_list_to_set. done.
Qed.

Lemma lookup_fromkeys {V} (l : list agent) (v w : V) (a : agent) :
  dict_fromkeys l v !! a = Some w → w = v ∧ a ∈ l.
Proof.
  unfold dict_fromkeys. intros [Hin ->]%lookup_gset_to_gmap_Some.
  by apply elem_of_list_to_set in Hin.
Qed.

Lemma accumulate_rewards_Ok (rw cum cum' : gmap agent R) :
  _accumulate_rewards rw cum = Ok cum' →
  ∀ a, is_Some (cum' !! a) ↔ is_Some (cum !! a).
Proof.
  unfold _accumulate_rewards. case_match; [|done]. intros [= <-] a.
  rewrite lookup_merge. destruct (cum !! a), (rw !! a); simpl; split; eauto;
    intros [? [=]].
Qed.

Lemma accumulate_rewards_ok (rw cum : gmap agent R) :
  (∀ a, is_Some (rw !! a) → is_Some (cum !! a)) →
  ∃ cum', _accumulate_rewards rw cum = Ok cum'.
Proof.
  intros Hsub. unfold _accumulate_rewards. case_match; [eauto|].
  exfalso. apply n. intros a. rewrite !elem_of_dom. auto.
Qed.

(** [_accumulate_rewards] adds the agent's reward to its accumulator. *)
Lemma accumulate_rewards_lookup (rw cum cum' : gmap agent R) (a : agent) (c r : R) :
  _accumulate_rewards rw cum = Ok cum' →
  cum !! a = Some c → rw !! a = Some r → cum' !! a = Some (c + r)%R.
Proof.
  unfold _accumulate_rewards. case_match; [|done]. intros [= <-] Hc Hr.
  rewrite lookup_merge, Hc, Hr. done.
Qed.

(** The dead-agent helper keeps the bookkeeping invariant. *)
Lemma was_dead_step_wf (e e' : AECEnv) (act : action) :
  aec_wf e → _was_dead_step e act = Ok e' → aec_wf e'.
Proof.
  intros Hwf H.
  apply was_dead_step_inv in H as (_ & a & Hsel & Hdead & Hrm & Hposs & _ &
    Hrw & _ & Hcum & _ & Hterm & Htrunc & _ & Hinf & _ & b & Hb & _).
  pose proof (wf_nodup e Hwf) as Hnd.
  pose proof (list_remove_first_inv _ _ _ Hrm) as (_ & Hsub & _ & Hnd').
  constructor.
  - by apply Hnd'.
  - intros c Hc. rewrite Hposs. apply (wf_sub e Hwf). auto.
  - rewrite Hrw. intros c. unfold _clear_rewards. rewrite lookup_fmap, fmap_is_Some.
    by apply (keys_are_delete _ _ _ _ Hnd Hrm (wf_rewards e Hwf)).
  - rewrite Hcum. by apply (keys_are_delete _ _ _ _ Hnd Hrm), wf_cumulative.
  - rewrite Hterm. by apply (keys_are_delete _ _ _ _ Hnd Hrm), wf_terminations.
  - rewrite Htrunc. by apply (keys_are_delete _ _ _ _ Hnd Hrm), wf_truncations.
  - rewrite Hinf. by apply (keys_are_delete _ _ _ _ Hnd Hrm), wf_infos.
  - rewrite Htrunc. apply map_Forall_delete, wf_not_truncated. done.
  - rewrite Hb. eauto.
  - rewrite Hposs. by apply wf_possible.
Qed.

(** Under the invariant a dead agent is a terminated one. *)
Lemma dead_is_terminated (e : AECEnv) (a : agent) :
  aec_wf e → is_dead e a = Ok true → terminations e !! a = Some true.
Proof.
  intros Hwf [[H _]|[_ H]]%is_dead_Ok; [done|].
  by specialize (wf_not_truncated e Hwf a true H).
Qed.

(** The dead-agent helper keeps the episode flags right, as long as an
    agent is left. *)
Lemma was_dead_step_flags (e e' : AECEnv) (act : action) (term trunc : bool) :
  aec_wf e → _was_dead_step e act = Ok e' →
  terminate_ok e term → (agents e ≠ [] → truncate_ok e trunc) →
  terminate_ok e' term ∧ (agents e' ≠ [] → truncate_ok e' trunc).
Proof.
  intros Hwf H Hterm Htrunc.
  pose proof (was_dead_step_wf _ _ _ Hwf H) as Hwf'.
  apply was_dead_step_inv in H as (_ & a & Hsel & Hdead & Hrm & _ & _ &
    _ & _ & _ & _ & Ht & Hu & [u Hua] & _).
  pose proof (dead_is_terminated _ _ Hwf Hdead) as Hta.
  unfold terminate_ok, truncate_ok in *. split.
  - rewrite Ht, all_values_delete_true; done.
  - intros Hne. pose proof (wf_not_truncated e Hwf a u Hua) as ->.
    rewrite Htrunc, (all_values_false _ a Hua).
    + destruct (agents e') as [|b l] eqn:Hl; [done|].
      destruct (proj2 (wf_truncations e' Hwf' b)) as [v Hv]; [rewrite Hl; left|].
      pose proof (wf_not_truncated e' Hwf' b v Hv) as ->.
      symmetry. by eapply all_values_false.
    + intros Hnil. apply list_remove_first_inv in Hrm as [Hin _].
      rewrite Hnil in Hin. by apply elem_of_nil in Hin.
Qed.

(** ** Insertion-ordered dicts *)

Section odict.
Context `{EqDecision K} {V : Type}.
Implicit Types (d : odict K V) (k : K) (v : V).

Lemma oget_oset_eq d k v : oget (oset d k v) k = Some v.
Proof.
  induction d as [|[k' v'] d IH]; simpl.
  - by rewrite decide_True.
  - destruct (decide (k = k')) as [->|Hne]; simpl.
    + by rewrite decide_True.
    + by rewrite decide_False.
Qed.

Lemma oget_oset_ne d k k' v : k' ≠ k → oget (oset d k v) k' = oget d k'.
Proof.
  intros Hne. induction d as [|[k0 v0] d IH]; simpl.
  - by rewrite decide_False.
  - destruct (decide (k = k0)) as [->|Hne0]; simpl.
    + by rewrite !decide_False.
    + destruct (decide (k' = k0)); done.
Qed.

Lemma oget_oset d k k' v :
  oget (oset d k v) k' = if decide (k' = k) then Some v else oget d k'.
Proof.
  destruct (decide (k' = k)) as [->|Hne];
    [apply oget_oset_eq|by apply oget_oset_ne].
Qed.

(** Assigning to an existing key leaves the order of the keys alone. *)
Lemma okeys_oset d k v : is_Some (oget d k) → okeys (oset d k v) = okeys d.
Proof.
  unfold okeys. induction d as [|[k0 v0] d IH]; simpl; intros [w Hw]; [done|].
  destruct (decide (k = k0)) as [->|Hne]; simpl; [done|].
  f_equal. apply IH. eauto.
Qed.

Lemma oget_elem d k v : oget d k = Some v → (k, v) ∈ d.
Proof.
  induction d as [|[k0 v0] d IH]; simpl; [done|].
  destruct (decide (k = k0)) as [->|Hne].
  - intros [= ->]. left.
  - intros H. right. auto.
Qed.

Lemma oget_is_Some d k : is_Some (oget d k) ↔ k ∈ okeys d.
Proof.
  unfold okeys. induction d as [|[k0 v0] d IH]; simpl.
  - split; [by intros [? [=]]|by intros ?%elem_of_nil].
  - destruct (decide (k = k0)) as [->|Hne].
    + split; [left|eauto].
    + rewrite IH. split; [by right|]. by intros [?|?]%elem_of_cons.
Qed.

Lemma oget_foldl_oset (items : list (K * V)) d k v :
  oget (foldl (λ d kv, oset d kv.1 kv.2) d items) k = Some v →
  oget d k = Some v ∨ (k, v) ∈ items.
Proof.
  revert d. induction items as [|[k0 v0] items IH]; intros d; simpl; [auto|].
  intros [H|H]%IH; [|right; by right].
  rewrite oget_oset in H. destruct (decide (k = k0)) as [->|Hne]; [|auto].
  simplify_eq. right. left.
Qed.

Lemma oget_foldl_oset_is_Some (items : list (K * V)) d k :
  is_Some (oget d k) ∨ k ∈ items.*1 →
  is_Some (oget (foldl (λ d kv, oset d kv.1 kv.2) d items) k).
Proof.
  revert d. induction items as [|[k0 v0] items IH]; intros d; simpl.
  - intros [?|?%elem_of_nil]; done.
  - intros H. apply IH. rewrite oget_oset.
    destruct (decide (k = k0)) as [->|Hne]; [left; eauto|].
    destruct H as [?|[?|?]%elem_of_cons]; auto. done.
Qed.

Lemma oget_odict_of_list (items : list (K * V)) k v :
  oget (odict_of_list items) k = Some v → (k, v) ∈ items.
Proof. intros [[=]|H]%oget_foldl_oset. done. Qed.

Lemma oget_odict_of_list_is_Some (items : list (K * V)) k :
  k ∈ items.*1 → is_Some (oget (odict_of_list items) k).
Proof. intros H. apply oget_foldl_oset_is_Some. auto. Qed.

Lemma elem_of_oset d k v kv : kv ∈ oset d k v → kv ∈ d ∨ kv = (k, v).
Proof.
  induction d as [|[k0 v0] d IH]; simpl.
  - intros Hkv%list_elem_of_singleton. auto.
  - destruct (decide (k = k0)) as [->|Hne].
    + intros [->|?]%elem_of_cons; [auto|]. left. by right.
    + intros [->|[?|?]%IH]%elem_of_cons; [left; left| |auto]. left. by right.
Qed.

Lemma elem_of_odict_of_list (items : list (K * V)) kv :
  kv ∈ odict_of_list items → kv ∈ items.
Proof.
  unfold odict_of_list.
  assert (∀ d, kv ∈ foldl (λ d kv, oset d kv.1 kv.2) d items → kv ∈ d ∨ kv ∈ items) as H.
  { induction items as [|[k0 v0] items IH]; intros d; simpl; [auto|].
    intros [[?| ->]%elem_of_oset|?]%IH; [auto| |].
    - right. left.
    - right. by right. }
  intros [?%elem_of_nil|?]%H; done.
Qed.

End odict.

Lemma oget_r_Ok `{EqDecision K} {V} (d : odict K V) (k : K) (v : V) :
  oget_r d k = Ok v ↔ oget d k = Some v.
Proof.
  unfold oget_r. destruct (oget d k); split; intros E; by simplify_eq.
Qed.

#[global] Instance agent_name_inj : Inj (=) (=) agent_name.
Proof.
  intros i j H. unfold agent_name in H.
  apply (inj (String.append "agent_")) in H. by apply (inj pretty) in H.
Qed.

Lemma make_agents_NoDup (n : nat) : NoDup (make_agents n).
Proof. unfold make_agents. apply NoDup_fmap_2; [apply _|apply NoDup_seq]. Qed.

Lemma length_make_agents (n : nat) : length (make_agents n) = n.
Proof. unfold make_agents. by rewrite length_fmap, length_seq. Qed.

Lemma build_max_collect_keys (ags : list agent) (i : Z) (mc : list Z)
    (acc m : gmap agent Z) (a : agent) :
  build_max_collect ags i mc acc = Ok m →
  a ∈ ags ∨ is_Some (acc !! a) → is_Some (m !! a).
Proof.
  revert i acc. induction ags as [|b ags IH]; intros i acc H Ha; simpl in H.
  - simplify_eq. by destruct Ha as [?%elem_of_nil|?].
  - bind_inv H. eapply IH; [done|]. rewrite lookup_insert_is_Some.
    destruct (decide (b = a)); [auto|].
    destruct Ha as [[?|?]%elem_of_cons|?]; auto; done.
Qed.

(** * The invariant holds along every episode *)

Lemma fromkeys_not_truncated (l : list agent) :
  map_Forall (λ _ b, b = false) (dict_fromkeys l false).
Proof. intros a b H. by apply lookup_fromkeys in H as [-> _]. Qed.

Lemma fromkeys_all_false (l : list agent) (a : agent) :
  a ∈ l → all_values (dict_fromkeys l false) = false.
Proof.
  intros Hin. apply (all_values_false _ a).
  destruct (proj2 (keys_are_fromkeys l false a) Hin) as [b Hb].
  by pose proof (lookup_fromkeys _ _ _ _ Hb) as [-> _].
Qed.

(** The bookkeeping right after [reset]. *)
Lemma reset_aec_wf (ags : list agent) sel first skip :
  NoDup ags →
  aec_wf {| agents := ags;
            possible_agents := ags;
            _agent_selector := sel;
            agent_selection := Some first;
            rewards := dict_fromkeys ags 0%R;
            _cumulative_rewards := dict_fromkeys ags 0%R;
            terminations := dict_fromkeys ags false;
            truncations := dict_fromkeys ags false;
            infos := dict_fromkeys ags ();
            _skip_agent_selection := skip |}.
Proof.
  intros Hnd.
  constructor; simpl; eauto using keys_are_fromkeys, fromkeys_not_truncated.
Qed.

Lemma budget_ok_reset (ags : list agent) (budget : gmap agent Z)
    (total : agent → option Z) :
  (∀ a t, total a = Some t → t = 0) →
  budget_ok (dict_fromkeys ags false) budget total.
Proof.
  intros Hzero a b t m Hb Ht Hm. apply lookup_fromkeys in Hb as [-> _].
  apply Hzero in Ht as ->. split; [done|lia].
Qed.

Lemma continuous_init_ok (c : Continuous.config) (s0 : Continuous.env) :
  Continuous.init c = Ok s0 → continuous_cfg_ok s0.
Proof.
  unfold Continuous.init. intros H. bind_inv H. case_match; [done|].
  simplify_eq. constructor; simpl.
  - apply make_agents_NoDup.
  - apply length_make_agents.
  - intros a Ha. eapply build_max_collect_keys; eauto.
  - intros a Ha. unfold dict_fromkeys. apply lookup_gset_to_gmap_Some.
    split; [by apply elem_of_list_to_set|done].
Qed.

Lemma continuous_reset_wf (s s' : Continuous.env) seed obs :
  continuous_cfg_ok s → Continuous.reset s seed = Ok (s', obs) →
  continuous_wf s'.
Proof.
  intros Hok H. unfold Continuous.reset in H. bind_as H rng' Hrng.
  bind_as H [sel first] E. simplify_eq.
  pose proof (next_elem _ _ _ _ E) as Hfirst.
  destruct Hok as [Hnd Hlen Hbud Hsp].
  constructor; simpl.
  - by constructor.
  - done.
  - by apply reset_aec_wf.
  - unfold terminate_ok. simpl. symmetry. by eapply fromkeys_all_false.
  - intros _. unfold truncate_ok. simpl. symmetry. by eapply fromkeys_all_false.
  - unfold Continuous._create_points. by rewrite length_fmap.
  - intros a Ha. apply oget_odict_of_list_is_Some.
    rewrite fst_zip; [done|]. rewrite length_fmap. lia.
  - apply budget_ok_reset. intros a t Ht.
    destruct (oget _ a) as [col|] eqn:Hcol; [|done]. simpl in Ht. simplify_eq.
    apply oget_odict_of_list, elem_of_zip_r in Hcol.
    apply list_elem_of_fmap in Hcol as (p & -> & _). done.
Qed.

(** ** The continuous variant *)

(** The two ways a call of [step] returns. *)
Lemma continuous_step_inv (s s' : Continuous.env) (act : action) :
  Continuous.step s act = Ok s' →
  Continuous.has_reset s = true ∧
  ∃ agent_, agent_selection (Continuous.aec s) = Some agent_ ∧
    ((is_dead (Continuous.aec s) agent_ = Ok true ∧
      ∃ e, _was_dead_step (Continuous.aec s) act = Ok e ∧
           s' = Continuous.update s e (Continuous.points s) (Continuous.collectors s)
                  (Continuous.terminate s) (Continuous.truncate s)) ∨
     (is_dead (Continuous.aec s) agent_ = Ok false ∧
      ∃ sp a, Continuous.action_spaces s !! agent_ = Some sp ∧
              act = Some a ∧ contains sp act = true ∧
              Continuous.step_live s agent_ a = Ok s')).
Proof.
  unfold Continuous.step. destruct (Continuous.has_reset s); [|done]. simpl.
  destruct (agent_selection (Continuous.aec s)) as [agent_|]; [|done].
  intros H. split; [done|]. exists agent_. split; [done|].
  bind_inv H. destruct x.
  - left. split; [done|]. bind_inv H. simplify_eq. eauto.
  - right. split; [done|]. bind_inv H. apply dict_get_Ok in E0.
    destruct (contains x act) eqn:Hc; [|done]. simpl in H.
    destruct act as [a|]; [|done]. eauto 10.
Qed.

(** What the live branch computes, field by field. *)
Lemma continuous_step_live_inv (s s' : Continuous.env) (agent_ : agent) (a : Z) :
  Continuous.step_live s agent_ a = Ok s' →
  ∃ p col sel nxt cum budget,
    let e := Continuous.aec s in
    let reward_ := Continuous.reward s col p in
    let col' := Continuous.Collector.collect
                  (Continuous.Collector.set_position col (Continuous.Point.position p)) p in
    let rw := <[agent_ := reward_]> (rewards e) in
    let term :=
      if budget <=? Continuous.Collector.total_points_collected col'.1
      then <[agent_ := true]> (terminations e) else terminations e in
    py_index (Continuous.points s) a = Ok p ∧
    oget (Continuous.collectors s) agent_ = Some col ∧
    next (agents e) (_agent_selector e) = Ok (sel, nxt) ∧
    _accumulate_rewards rw (<[agent_ := 0%R]> (_cumulative_rewards e)) = Ok cum ∧
    Continuous.max_collect s !! agent_ = Some budget ∧
    s' = Continuous.update s
           {| agents := agents e;
              possible_agents := possible_agents e;
              _agent_selector := sel;
              agent_selection := Some nxt;
              rewards := rw;
              _cumulative_rewards := cum;
              terminations := term;
              truncations := truncations e;
              infos := infos e;
              _skip_agent_selection := _skip_agent_selection e |}
           (<[Z.to_nat a := col'.2]> (Continuous.points s))
           (oset (Continuous.collectors s) agent_ col'.1)
           (all_values term) (all_values (truncations e)).
Proof.
  unfold Continuous.step_live. intros H.
  bind_inv H. bind_inv H. apply oget_r_Ok in E0.
  destruct (Continuous.Collector.collect _ x) as [col' p'] eqn:Hcol.
  bind_inv H. destruct x1 as [sel nxt].
  bind_inv H. bind_inv H. bind_inv H.
  apply oget_r_Ok in E3. rewrite oget_oset_eq in E3. apply dict_get_Ok in E4.
  unfold Continuous.Collector.collect in Hcol.
  simplify_eq. exists x, x0, sel, nxt, x1, x3. simpl.
  repeat (split; [done|]). done.
Qed.

(** The bookkeeping after a live step of [agent_]. *)
Lemma live_step_aec_wf (e : AECEnv) (agent_ : agent) sel nxt (r : R)
    (cum : gmap agent R) (cond : bool) :
  aec_wf e → agent_ ∈ agents e →
  _accumulate_rewards (<[agent_ := r]> (rewards e))
    (<[agent_ := 0%R]> (_cumulative_rewards e)) = Ok cum →
  aec_wf {| agents := agents e;
            possible_agents := possible_agents e;
            _agent_selector := sel;
            agent_selection := Some nxt;
            rewards := <[agent_ := r]> (rewards e);
            _cumulative_rewards := cum;
            terminations :=
              (if cond then <[agent_ := true]> (terminations e) else terminations e);
            truncations := truncations e;
            infos := infos e;
            _skip_agent_selection := _skip_agent_selection e |}.
Proof.
  intros Hwf Hin Hacc. destruct Hwf. constructor; simpl; eauto.
  - by apply keys_are_insert.
  - intros a. rewrite (accumulate_rewards_Ok _ _ _ Hacc a).
    by apply keys_are_insert.
  - destruct cond; [by apply keys_are_insert|done].
Qed.

Lemma budget_ok_live (term : gmap agent bool) (budget : gmap agent Z)
    (total total' : agent → option Z) (agent_ : agent) (m t : Z) :
  budget_ok term budget total →
  term !! agent_ = Some false → budget !! agent_ = Some m →
  total' agent_ = Some t → (∀ a, a ≠ agent_ → total' a = total a) →
  budget_ok (if m <=? t then <[agent_ := true]> term else term) budget total'.
Proof.
  intros Hok Hlive Hm Ht Hother a b t0 m0 Hb Ht0 Hm0.
  destruct (decide (a = agent_)) as [->|Hne].
  - assert (m0 = m) as -> by congruence. assert (t0 = t) as -> by congruence.
    destruct (Z.leb_spec m t).
    + rewrite lookup_insert_eq in Hb. by simplify_eq.
    + assert (b = false) as -> by congruence. split; [done|lia].
  - rewrite Hother in Ht0 by done. eapply Hok; [|done..].
    destruct (m <=? t); [by rewrite lookup_insert_ne in Hb|done].
Qed.

Lemma budget_ok_delete (term : gmap agent bool) (budget : gmap agent Z)
    (total : agent → option Z) (a : agent) :
  budget_ok term budget total → budget_ok (delete a term) budget total.
Proof.
  intros Hok b v t m Hb. apply lookup_delete_Some in Hb as [_ Hb]. by apply Hok.
Qed.

(** A live agent is an active one. *)
Lemma live_in_agents (e : AECEnv) (a : agent) :
  aec_wf e → is_Some (terminations e !! a) → a ∈ agents e.
Proof. intros Hwf Ha. by apply (wf_terminations e Hwf). Qed.

Lemma is_dead_false (e : AECEnv) (a : agent) :
  is_dead e a = Ok false →
  terminations e !! a = Some false ∧ truncations e !! a = Some false.
Proof. by intros [[_ [=]]|[? ?]]%is_dead_Ok. Qed.

Lemma continuous_step_wf (s s' : Continuous.env) (act : action) :
  continuous_wf s → Continuous.step s act = Ok s' → continuous_wf s'.
Proof.
  intros Hwf H. destruct Hwf as [[Hnd Hlen Hbud Hsp] Hreset Haec Hterm Htrunc Hpts Hcols Hbok].
  apply continuous_step_inv in H as (_ & agent_ & Hsel & [(Hdead & e & He & ->)|(Hlive & sp & a & _ & -> & _ & H)]).
  - pose proof (was_dead_step_wf _ _ _ Haec He) as Haec'.
    destruct (was_dead_step_flags _ _ _ _ _ Haec He Hterm Htrunc) as [Hterm' Htrunc'].
    apply was_dead_step_inv in He as (_ & a & _ & _ & _ & Hposs & _ & _ & _ & _ & _ & Ht & _).
    constructor; simpl; try done.
    + constructor; simpl; rewrite ?Hposs; done.
    + by rewrite Hposs.
    + rewrite Ht. by apply budget_ok_delete.
  - apply continuous_step_live_inv in H
      as (p & col & sel & nxt & cum & budget & Hp & Hcol & Hnext & Hacc & Hb & ->).
    apply is_dead_false in Hlive as [Hta Hua].
    assert (agent_ ∈ agents (Continuous.aec s)) as Hin by (eapply live_in_agents; eauto).
    constructor; simpl.
    + by constructor.
    + done.
    + by apply live_step_aec_wf.
    + done.
    + done.
    + by rewrite length_insert.
    + intros b Hb'. rewrite oget_oset. case_decide; eauto.
    + eapply budget_ok_live; [done..| |].
      * by rewrite oget_oset_eq.
      * intros b Hne. by rewrite oget_oset_ne.
Qed.

Lemma continuous_reachable_wf (c : Continuous.config) (s : Continuous.env) :
  Continuous.reachable c s → continuous_wf s.
Proof.
  induction 1 as [s0 seed s obs Hinit Hreset|s seed s' obs _ IH Hreset|s act s' _ IH Hstep].
  - eapply continuous_reset_wf; [|done]. by eapply continuous_init_ok.
  - eapply continuous_reset_wf; [|done]. by destruct IH.
  - by eapply continuous_step_wf.
Qed.

(** ** The graph variant *)

Lemma nx_neighbors_Ok (g : nx.Graph) (u : Z) (nbrs : list Z) :
  nx.neighbors g u = Ok nbrs ↔ ∃ adj, oget g u = Some adj ∧ nbrs = okeys adj.
Proof.
  unfold nx.neighbors. destruct (oget g u) as [adj|]; split.
  - intros [= <-]. eauto.
  - by intros (? & [= <-] & ->).
  - done.
  - by intros (? & [=] & _).
Qed.

Lemma nx_neighbors_ok (g : nx.Graph) (u : Z) :
  u ∈ nx.nodes g → ∃ nbrs, nx.neighbors g u = Ok nbrs.
Proof.
  intros [adj Hadj]%oget_is_Some. unfold nx.neighbors. rewrite Hadj. eauto.
Qed.

Lemma nx_closed_neighbors (g : nx.Graph) (u v : Z) (nbrs : list Z) :
  nx.closed g = true → nx.neighbors g u = Ok nbrs → v ∈ nbrs → v ∈ nx.nodes g.
Proof.
  unfold nx.closed. rewrite forallb_forall.
  intros Hcl (adj & Hadj & ->)%nx_neighbors_Ok Hv.
  apply oget_elem in Hadj.
  assert (adj ∈ ovalues g) as Hin%list_elem_of_In.
  { unfold ovalues. apply list_elem_of_fmap. by exists (u, adj). }
  specialize (Hcl _ Hin). rewrite forallb_forall in Hcl.
  apply list_elem_of_In, Hcl in Hv. by apply bool_decide_eq_true in Hv.
Qed.

Lemma nx_weighted_neighbors (g : nx.Graph) (u v : Z) (nbrs : list Z) :
  nx.weighted g = true → nx.neighbors g u = Ok nbrs → v ∈ nbrs →
  ∃ w, nx.weight g u v = Ok w.
Proof.
  unfold nx.weighted. rewrite forallb_forall.
  intros Hw (adj & Hadj & ->)%nx_neighbors_Ok Hv.
  unfold nx.weight, oget_r. rewrite Hadj. simpl.
  apply oget_is_Some in Hv as [d Hd]. rewrite Hd. simpl.
  apply oget_elem in Hadj, Hd.
  assert (adj ∈ ovalues g) as Hin%list_elem_of_In.
  { unfold ovalues. apply list_elem_of_fmap. by exists (u, adj). }
  specialize (Hw _ Hin). rewrite forallb_forall in Hw.
  assert (d ∈ ovalues adj) as Hdin%list_elem_of_In.
  { unfold ovalues. apply list_elem_of_fmap. by exists (v, d). }
  apply Hw, bool_decide_eq_true in Hdin as [w ->]. eauto.
Qed.

Lemma graph_init_ok (c : Graph.config) (s0 : Graph.env) :
  Graph.valid c = true → Graph.init c = Ok s0 → graph_cfg_ok s0.
Proof.
  unfold Graph.valid, Graph.init. intros [Hcl Hlab]%andb_true_iff H.
  bind_inv H. destruct x as [w h]. bind_inv H. bind_inv H.
  simplify_eq. constructor; simpl.
  - apply make_agents_NoDup.
  - apply length_make_agents.
  - intros a Ha. eapply build_max_collect_keys; eauto.
  - intros a Ha. destruct (make_agents _) as [|a0 ags] eqn:Hags.
    + by apply elem_of_nil in Ha.
    + bind_inv E1. case_match; [done|]. simplify_eq.
      by apply keys_are_fromkeys.
  - done.
  - intros l Hl%list_elem_of_In. rewrite forallb_forall in Hlab.
    by apply Hlab, bool_decide_eq_true in Hl.
Qed.

Lemma graph_reset_wf (s s' : Graph.env) seed obs :
  graph_cfg_ok s → Graph.reset s seed = Ok (s', obs) → graph_wf s'.
Proof.
  intros Hok H. unfold Graph.reset in H. bind_as H rng' Hrng.
  bind_as H [sel first] E. bind_as H observations E0. simplify_eq. clear E0.
  pose proof (next_elem _ _ _ _ E) as Hfirst.
  destruct Hok as [Hnd Hlen Hbud Hsp Hcl Hlab].
  constructor; simpl.
  - by constructor.
  - done.
  - by apply reset_aec_wf.
  - unfold terminate_ok. simpl. symmetry. by eapply fromkeys_all_false.
  - intros _. unfold truncate_ok. simpl. symmetry. by eapply fromkeys_all_false.
  - intros a Ha. by apply keys_are_fromkeys.
  - intros a Ha.
    destruct (oget_odict_of_list_is_Some
      (zip (possible_agents (Graph.aec s))
         ((λ l, Graph.Collector.new (Graph.node_position s l) l) <$>
            Graph.init_agent_labels s)) a) as [col Hcol].
    { rewrite fst_zip; [done|]. rewrite length_fmap. lia. }
    exists col. split; [done|].
    apply oget_odict_of_list, elem_of_zip_r in Hcol.
    apply list_elem_of_fmap in Hcol as (l & -> & Hl). simpl. auto.
  - intros _ a [= <-]. done.
  - apply budget_ok_reset. intros a t Ht.
    destruct (oget _ a) as [col|] eqn:Hcol; [|done]. simpl in Ht. simplify_eq.
    apply oget_odict_of_list, elem_of_zip_r in Hcol.
    apply list_elem_of_fmap in Hcol as (p & -> & _). done.
Qed.

(** The two ways a call of [step] returns. *)
Lemma graph_step_inv (s s' : Graph.env) (act : action) :
  Graph.step s act = Ok s' →
  Graph.has_reset s = true ∧
  ∃ agent_, agent_selection (Graph.aec s) = Some agent_ ∧
    ((is_dead (Graph.aec s) agent_ = Ok true ∧ Graph.step_dead s act = Ok s') ∨
     (is_dead (Graph.aec s) agent_ = Ok false ∧
      ∃ sp, Graph.action_spaces s !! agent_ = Some sp ∧
            (contains sp act = true ∨ act = None) ∧
            Graph.step_live s agent_ act = Ok s')).
Proof.
  unfold Graph.step. destruct (Graph.has_reset s); [|done]. simpl.
  destruct (agent_selection (Graph.aec s)) as [agent_|]; [|done].
  intros H. split; [done|]. exists agent_. split; [done|].
  bind_inv H. destruct x; [by left|].
  right. split; [done|]. bind_inv H. apply dict_get_Ok in E0.
  exists x. split; [done|].
  destruct (contains x act) eqn:Hc; simpl in H; [auto|].
  destruct act; [done|auto].
Qed.

(** The dead branch: the framework's helper, then possibly one [next]. *)
Lemma graph_step_dead_inv (s s' : Graph.env) (act : action) :
  Graph.step_dead s act = Ok s' →
  ∃ e e', _was_dead_step (Graph.aec s) act = Ok e ∧
    ((Graph.selection_lost e = false ∧ e' = e) ∨
     (Graph.selection_lost e = true ∧
      ∃ sel nxt, next (agents e) (_agent_selector e) = Ok (sel, nxt) ∧
                 e' = select e sel nxt)) ∧
    s' = Graph.update s (Graph.rng s) e' (Graph.iteration s) (Graph.points s)
           (Graph.collectors s) (Graph.cumulative_rewards s) (Graph.has_reset s)
           (Graph.terminate s) (Graph.truncate s).
Proof.
  unfold Graph.step_dead. intros H. bind_inv H. bind_inv H. simplify_eq.
  exists x, x0. split; [done|]. split; [|done].
  destruct (Graph.selection_lost x).
  - right. split; [done|]. bind_inv E0. destruct x1 as [sel nxt].
    simplify_eq. eauto.
  - left. by simplify_eq.
Qed.

(** The move of the live branch, case by case. *)
Lemma move_and_collect_inv (s : Graph.env) (agent_ : agent)
    (col : Graph.Collector.t) (nbrs : list Z) (act : action) r cols pts :
  Graph.move_and_collect s agent_ col nbrs act = Ok (r, cols, pts) →
  (∃ a, act = Some a ∧ a ∈ nbrs ∧
        Graph.reward s (Graph.Collector.label col) a = Ok r ∧
        let moved := Graph.Collector.move col (Graph.node_position s a) a in
        match oget (Graph.points s) a with
        | Some p =>
            cols = oset (Graph.collectors s) agent_ (Graph.Collector.collect moved p).1 ∧
            pts = oset (Graph.points s) a (Graph.Point.collect p)
        | None =>
            cols = oset (Graph.collectors s) agent_ moved ∧ pts = Graph.points s
        end) ∨
  ((act = None ∨ ∃ a, act = Some a ∧ a ∉ nbrs) ∧
   r = 0%R ∧ cols = Graph.collectors s ∧ pts = Graph.points s).
Proof.
  unfold Graph.move_and_collect. destruct act as [a|].
  - case_bool_decide as Ha.
    + intros H. bind_inv H. left. exists a. do 2 (split; [done|]).
      simpl. destruct (oget (Graph.points s) a);
        unfold Graph.Collector.collect in *; simpl in *; by simplify_eq.
    + intros [= <- <- <-]. right. eauto 10.
  - intros [= <- <- <-]. right. eauto 10.
Qed.

(** After the move every agent still has a collector; only the acting
    agent's may have changed, and it stands on a node. *)
Lemma move_and_collect_collectors (s : Graph.env) (agent_ : agent)
    (col : Graph.Collector.t) (nbrs : list Z) (act : action) r cols pts :
  Graph.move_and_collect s agent_ col nbrs act = Ok (r, cols, pts) →
  oget (Graph.collectors s) agent_ = Some col →
  nx.neighbors (Graph.graph s) (Graph.Collector.label col) = Ok nbrs →
  nx.closed (Graph.graph s) = true →
  Graph.Collector.label col ∈ nx.nodes (Graph.graph s) →
  (∀ b, b ≠ agent_ → oget cols b = oget (Graph.collectors s) b) ∧
  ∃ c, oget cols agent_ = Some c ∧
       Graph.Collector.label c ∈ nx.nodes (Graph.graph s).
Proof.
  intros [(a & -> & Ha & _ & H)|(_ & _ & -> & _)]%move_and_collect_inv
    Hcol Hn Hcl Hlab; [|eauto].
  pose proof (nx_closed_neighbors _ _ _ _ Hcl Hn Ha) as Hnode.
  simpl in H. destruct (oget (Graph.points s) a) as [p|]; destruct H as [-> _].
  - split; [intros b Hb; by rewrite oget_oset_ne|].
    rewrite oget_oset_eq. eauto.
  - split; [intros b Hb; by rewrite oget_oset_ne|].
    rewrite oget_oset_eq. eauto.
Qed.

(** What the live branch computes, field by field. *)
Lemma graph_step_live_inv (s s' : Graph.env) (agent_ : agent) (act : action) :
  Graph.step_live s agent_ act = Ok s' →
  ∃ col nbrs r cols pts c budget total cum sel nxt,
    let e := Graph.aec s in
    let rw := <[agent_ := r]> (rewards e) in
    let term :=
      if budget <=? Graph.Collector.total_points_collected c
      then <[agent_ := true]> (terminations e) else terminations e in
    oget (Graph.collectors s) agent_ = Some col ∧
    nx.neighbors (Graph.graph s) (Graph.Collector.label col) = Ok nbrs ∧
    Graph.move_and_collect s agent_ col nbrs act = Ok (r, cols, pts) ∧
    oget cols agent_ = Some c ∧
    Graph.max_collect s !! agent_ = Some budget ∧
    Graph.cumulative_rewards s !! agent_ = Some total ∧
    _accumulate_rewards rw (<[agent_ := 0%R]> (_cumulative_rewards e)) = Ok cum ∧
    next (agents e) (_agent_selector e) = Ok (sel, nxt) ∧
    s' = Graph.update s (Graph.rng s)
           {| agents := agents e;
              possible_agents := possible_agents e;
              _agent_selector := sel;
              agent_selection := Some nxt;
              rewards := rw;
              _cumulative_rewards := cum;
              terminations := term;
              truncations := truncations e;
              infos := infos e;
              _skip_agent_selection := _skip_agent_selection e |}
           (Graph.iteration s + 1) pts cols
           (<[agent_ := (total + r)%R]> (Graph.cumulative_rewards s))
           (Graph.has_reset s) (all_values term) (all_values (truncations e)).
Proof.
  unfold Graph.step_live. intros H.
  bind_as H col Hcol. apply oget_r_Ok in Hcol.
  bind_as H nbrs Hn. bind_as H [[r cols] pts] Hmove.
  bind_as H c Hc. apply oget_r_Ok in Hc.
  bind_as H budget Hb. apply dict_get_Ok in Hb.
  bind_as H total Ht. apply dict_get_Ok in Ht.
  bind_as H cum Hcum. bind_as H [sel nxt] Hnext. simplify_eq.
  exists col, nbrs, r, cols, pts, c, budget, total, cum, sel, nxt. simpl.
  repeat (split; [done|]). done.
Qed.

Lemma select_aec_wf (e : AECEnv) sel nxt : aec_wf e → aec_wf (select e sel nxt).
Proof. intros []. constructor; simpl; eauto. Qed.

(** The guard of the dead branch: afterwards the selected agent is an
    active one, unless no agent is left. *)
Lemma selection_guard (e e' : AECEnv) :
  is_Some (agent_selection e) →
  (Graph.selection_lost e = false ∧ e' = e) ∨
  (Graph.selection_lost e = true ∧
   ∃ sel nxt, next (agents e) (_agent_selector e) = Ok (sel, nxt) ∧
              e' = select e sel nxt) →
  agents e' = agents e ∧
  (agents e' ≠ [] → ∀ a, agent_selection e' = Some a → a ∈ agents e').
Proof.
  intros [b Hb] [[Hlost ->]|(_ & sel & nxt & Hnext & ->)].
  - split; [done|]. intros Hne a Ha. unfold Graph.selection_lost in Hlost.
    rewrite Hb in Hlost. simplify_eq.
    apply andb_false_iff in Hlost as [Hl|Hl]; apply bool_decide_eq_false in Hl.
    + by apply dec_stable in Hl.
    + done.
  - split; [done|]. simpl. intros _ a [= <-]. by eapply next_elem.
Qed.

Lemma graph_step_wf (s s' : Graph.env) (act : action) :
  graph_wf s → Graph.step s act = Ok s' → graph_wf s'.
Proof.
  intros Hwf H.
  destruct Hwf as [Hcfg Hreset Haec Hterm Htrunc Htot Hcols Hsel Hbok].
  pose proof Hcfg as [Hnd Hlen Hbud Hsp Hcl Hlab].
  apply graph_step_inv in H as (_ & agent_ & Hag & [(Hdead & H)|(Hlive & sp & _ & _ & H)]).
  - apply graph_step_dead_inv in H as (e & e' & He & Hguard & ->).
    pose proof (was_dead_step_wf _ _ _ Haec He) as Haec'.
    destruct (was_dead_step_flags _ _ _ _ _ Haec He Hterm Htrunc) as [Hterm' Htrunc'].
    destruct (selection_guard e e' (wf_selected _ Haec') Hguard) as [Hags Hsel'].
    apply was_dead_step_inv in He as (_ & a & _ & _ & _ & Hposs & _ & _ & _ & _ & _ & Ht & _).
    assert (possible_agents e' = possible_agents (Graph.aec s) ∧
            terminations e' = delete a (terminations (Graph.aec s)) ∧
            truncations e' = truncations e ∧ aec_wf e') as (Hposs' & Ht' & Hu' & Hwf').
    { destruct Hguard as [[_ ->]|(_ & sel & nxt & _ & ->)]; simpl;
        auto using select_aec_wf. }
    constructor; simpl; rewrite ?Hposs'; try done.
    + constructor; simpl; rewrite ?Hposs'; done.
    + unfold terminate_ok in *. by rewrite Ht', <- Ht.
    + rewrite Hags. unfold truncate_ok in *. by rewrite Hu'.
    + rewrite Ht'. by apply budget_ok_delete.
  - apply graph_step_live_inv in H
      as (col & nbrs & r & cols & pts & c & budget & total & cum & sel & nxt &
          Hcol & Hn & Hmove & Hc & Hb & Htotal & Hacc & Hnext & ->).
    apply is_dead_false in Hlive as [Hta Hua].
    assert (agent_ ∈ agents (Graph.aec s)) as Hin by (eapply live_in_agents; eauto).
    pose proof (wf_sub _ Haec _ Hin) as Hposs.
    destruct (Hcols _ Hposs) as (col0 & Hcol0 & Hnode).
    assert (col0 = col) as -> by congruence.
    destruct (move_and_collect_collectors _ _ _ _ _ _ _ _ Hmove Hcol Hn Hcl Hnode)
      as (Hother & c' & Hc' & Hnode').
    assert (c' = c) as -> by congruence.
    constructor; simpl.
    + by constructor.
    + done.
    + by apply live_step_aec_wf.
    + done.
    + done.
    + intros b Hb'. rewrite lookup_insert_is_Some.
      destruct (decide (agent_ = b)); auto.
    + intros b Hb'. destruct (decide (b = agent_)) as [->|Hne]; [eauto|].
      rewrite Hother by done. auto.
    + intros _ a [= <-]. by eapply next_elem.
    + eapply budget_ok_live; [done..| |].
      * by rewrite Hc.
      * intros b Hne. by rewrite Hother.
Qed.

Lemma graph_reachable_wf (c : Graph.config) (s : Graph.env) :
  Graph.valid c = true → Graph.reachable c s → graph_wf s.
Proof.
  intros Hvalid.
  induction 1 as [s0 seed s obs Hinit Hreset|s seed s' obs _ IH Hreset|s act s' _ IH Hstep].
  - eapply graph_reset_wf; [|done]. by eapply graph_init_ok.
  - eapply graph_reset_wf; [|done]. by destruct IH.
  - by eapply graph_step_wf.
Qed.

(** ** Episodes are reachable states *)

Lemma continuous_run_reachable (c : Continuous.config) acts (s : Continuous.env) :
  Continuous.run c acts = Ok s → Continuous.reachable c s.
Proof.
  unfold Continuous.run. intros H. bind_as H s0 Hinit. bind_as H [s1 obs] Hreset.
  assert (∀ s, Ok s1 = Ok s → Continuous.reachable c s) as Hstart.
  { intros ? [= <-]. by eapply Continuous.reach_reset. }
  revert Hstart H. generalize (Ok s1). clear Hreset.
  induction acts as [|act acts IH]; intros r Hr H; simpl in H; [auto|].
  eapply IH; [|done]. intros s2 H2. bind_as H2 s3 H3.
  eapply Continuous.reach_step; eauto.
Qed.

Lemma graph_run_reachable (c : Graph.config) acts (s : Graph.env) :
  Graph.run c acts = Ok s → Graph.reachable c s.
Proof.
  unfold Graph.run. intros H. bind_as H s0 Hinit. bind_as H [s1 obs] Hreset.
  assert (∀ s, Ok s1 = Ok s → Graph.reachable c s) as Hstart.
  { intros ? [= <-]. by eapply Graph.reach_reset. }
  revert Hstart H. generalize (Ok s1). clear Hreset.
  induction acts as [|act acts IH]; intros r Hr H; simpl in H; [auto|].
  eapply IH; [|done]. intros s2 H2. bind_as H2 s3 H3.
  eapply Graph.reach_step; eauto.
Qed.

(** * The "no edge" error of [reward] *)

Lemma edge_safe_bind {A B} (m : result A) (f : A → result B) :
  edge_safe m → (∀ a, m = Ok a → edge_safe (f a)) → edge_safe (m ≫= f).
Proof.
  destruct m as [a|e]; intros Hm Hf; [by apply Hf|].
  intros [= ->]. by apply Hm.
Qed.

Lemma edge_safe_Ok {A} (a : A) : edge_safe (Ok a).
Proof. done. Qed.

Lemma edge_safe_dict_get `{Countable K} {V} (d : gmap K V) k : edge_safe (dict_get d k).
Proof. unfold dict_get. by case_match. Qed.

Lemma edge_safe_dict_del `{Countable K} {V} (d : gmap K V) k : edge_safe (dict_del d k).
Proof. unfold dict_del. by case_match. Qed.

Lemma edge_safe_oget_r `{EqDecision K} {V} (d : odict K V) k : edge_safe (oget_r d k).
Proof. unfold oget_r. by case_match. Qed.

Lemma edge_safe_py_index {A} (l : list A) i : edge_safe (py_index l i).
Proof. unfold py_index. by repeat case_match. Qed.

Lemma edge_safe_next order sel : edge_safe (next order sel).
Proof.
  unfold next. case_match; [done|].
  apply edge_safe_bind; [apply edge_safe_py_index|done].
Qed.

Lemma edge_safe_remove (a : agent) l : edge_safe (list_remove_first a l).
Proof.
  induction l as [|b l IH]; simpl; [done|]. case_decide; [done|].
  by apply edge_safe_bind.
Qed.

Lemma edge_safe_deads term trunc l : edge_safe (deads_order term trunc l).
Proof.
  induction l as [|b l IH]; simpl; [done|].
  apply edge_safe_bind; [apply edge_safe_dict_get|intros t _].
  apply edge_safe_bind; [destruct t; [done|apply edge_safe_dict_get]|intros d _].
  by apply edge_safe_bind.
Qed.

Lemma edge_safe_is_dead e a : edge_safe (is_dead e a).
Proof.
  unfold is_dead. apply edge_safe_bind; [apply edge_safe_dict_get|].
  intros [] _; [done|apply edge_safe_dict_get].
Qed.

Lemma edge_safe_accumulate rw cum : edge_safe (_accumulate_rewards rw cum).
Proof. unfold _accumulate_rewards. by case_match. Qed.

Lemma edge_safe_was_dead_step e act : edge_safe (_was_dead_step e act).
Proof.
  unfold _was_dead_step. destruct act; [done|].
  destruct (agent_selection e); [|done].
  apply edge_safe_bind; [apply edge_safe_is_dead|intros [] _; [|done]]. simpl.
  do 5 (apply edge_safe_bind; [apply edge_safe_dict_del|intros ? _]).
  apply edge_safe_bind; [apply edge_safe_remove|intros ? _].
  apply edge_safe_bind; [apply edge_safe_deads|intros ? _].
  by repeat case_match.
Qed.

Lemma edge_safe_neighbors g u : edge_safe (nx.neighbors g u).
Proof. unfold nx.neighbors. by case_match. Qed.

(** [reward] returns exactly on the weighted edges. *)
Lemma reward_is_ok (s : Graph.env) (u v : Z) :
  is_ok (Graph.reward s u v) = is_ok (nx.weight (Graph.graph s) u v) ∧
  (is_ok (Graph.reward s u v) = false →
   Graph.reward s u v = Raise (ValueError EdgeNotFound)).
Proof.
  unfold Graph.reward, nx.weight, oget_r.
  destruct (oget (Graph.graph s) u) as [adj|]; simpl; [|done].
  destruct (oget adj v) as [[w|]|]; simpl; done.
Qed.

Lemma weight_is_ok (g : nx.Graph) (u v : Z) :
  nx.weighted g = true → is_ok (nx.weight g u v) = nx.has_edge g u v.
Proof.
  intros Hw. unfold nx.has_edge.
  destruct (oget g u) as [adj|] eqn:Hadj.
  - case_bool_decide as Hv.
    + destruct (nx_weighted_neighbors g u v (okeys adj) Hw) as [w ->]; [|done..].
      apply nx_neighbors_Ok. eauto.
    + unfold nx.weight, oget_r. rewrite Hadj. simpl.
      destruct (oget adj v) eqn:Hd; [|done].
      exfalso. apply Hv, oget_is_Some. eauto.
  - unfold nx.weight, oget_r. by rewrite Hadj.
Qed.

Lemma edge_safe_move (s : Graph.env) agent_ col nbrs act :
  nx.weighted (Graph.graph s) = true →
  nx.neighbors (Graph.graph s) (Graph.Collector.label col) = Ok nbrs →
  edge_safe (Graph.move_and_collect s agent_ col nbrs act).
Proof.
  intros Hw Hn. unfold Graph.move_and_collect. destruct act as [a|]; [|done].
  case_bool_decide as Ha; [|done].
  destruct (nx_weighted_neighbors _ _ _ _ Hw Hn Ha) as [w Hwt].
  pose proof (reward_is_ok s (Graph.Collector.label col) a) as [Hok _].
  rewrite Hwt in Hok. destruct (Graph.reward s _ a); [|done]. simpl.
  by repeat case_match.
Qed.

(** C8: on a weighted graph [reward(cur_node, new_node)] raises, and
    then the "no edge" [ValueError], if and only if the graph has no
    edge from [cur_node] to [new_node]; and no call of [step] ends in
    that error, since [step] asks for the reward of neighbours only. *)
Theorem C8_reward_error_iff_no_edge (s : Graph.env) :
  nx.weighted (Graph.graph s) = true →
  (∀ u v, Graph.reward s u v = Raise (ValueError EdgeNotFound) ↔
          nx.has_edge (Graph.graph s) u v = false) ∧
  (∀ u v, is_ok (Graph.reward s u v) = nx.has_edge (Graph.graph s) u v) ∧
  (∀ act, Graph.step s act ≠ Raise (ValueError EdgeNotFound)).
Proof.
  intros Hw.
  assert (∀ u v, is_ok (Graph.reward s u v) = nx.has_edge (Graph.graph s) u v) as Hok.
  { intros u v. destruct (reward_is_ok s u v) as [-> _]. by apply weight_is_ok. }
  split; [|split; [done|]].
  - intros u v. rewrite <- Hok. split; [by intros ->|].
    by apply reward_is_ok.
  - intros act. change (edge_safe (Graph.step s act)). unfold Graph.step.
    destruct (Graph.has_reset s); [|done]. simpl.
    destruct (agent_selection (Graph.aec s)) as [agent_|]; [|done].
    apply edge_safe_bind; [apply edge_safe_is_dead|intros [] _].
    + unfold Graph.step_dead.
      apply edge_safe_bind; [apply edge_safe_was_dead_step|intros e _].
      apply edge_safe_bind; [|done].
      destruct (Graph.selection_lost e); [|done].
      apply edge_safe_bind; [apply edge_safe_next|by intros []].
    + apply edge_safe_bind; [apply edge_safe_dict_get|intros sp _].
      case_match; [done|]. unfold Graph.step_live.
      apply edge_safe_bind; [apply edge_safe_oget_r|intros col _].
      apply edge_safe_bind; [apply edge_safe_neighbors|intros nbrs Hn].
      apply edge_safe_bind; [by apply edge_safe_move|intros [[r cols] pts] _].
      apply edge_safe_bind; [apply edge_safe_oget_r|intros c _].
      apply edge_safe_bind; [apply edge_safe_dict_get|intros budget _].
      apply edge_safe_bind; [apply edge_safe_dict_get|intros total _].
      apply edge_safe_bind; [apply edge_safe_accumulate|intros cum _].
      apply edge_safe_bind; [apply edge_safe_next|by intros []].
Qed.

Lemma C8_witness :
  ∃ s, Graph.run graph_solo [] = Ok s ∧
       nx.weighted (Graph.graph s) = true ∧
       ∀ act, Graph.step s act ≠ Raise (ValueError EdgeNotFound).
Proof.
  eexists. split; [vm_compute; reflexivity|]. split; [reflexivity|].
  apply C8_reward_error_iff_no_edge. reflexivity.
Defined.

(** * Resetting twice *)

Lemma reseed_again (rng rng' seed : option Z) :
  reseed rng seed = Ok rng' → reseed rng' seed = Ok rng'.
Proof. destruct seed; simpl; [done|]. by intros [= ->]. Qed.

Lemma continuous_reset_again (s s1 : Continuous.env) seed obs :
  Continuous.reset s seed = Ok (s1, obs) → Continuous.reset s1 seed = Ok (s1, obs).
Proof.
  unfold Continuous.reset. intros H. bind_as H rng' Hrng. bind_as H [sel first] Hsel.
  injection H as <- <-. simpl. rewrite (reseed_again _ _ _ Hrng). simpl.
  rewrite Hsel. done.
Qed.

Lemma graph_reset_again (s s1 : Graph.env) seed obs :
  Graph.reset s seed = Ok (s1, obs) → Graph.reset s1 seed = Ok (s1, obs).
Proof.
  intros H. pose proof H as H0. unfold Graph.reset in H.
  bind_as H rng' Hrng. bind_as H [sel first] Hsel. bind_as H observations Hobs.
  injection H as <- <-.
  destruct seed; simpl in Hrng; [|injection Hrng as <-]; exact H0.
Qed.

Lemma observe_all_lookup (s : Graph.env) (ags : list agent)
    (acc obs : gmap agent Graph.observation) (a : agent) (o : Graph.observation) :
  Graph.observe_all s ags acc = Ok obs → obs !! a = Some o →
  Graph.observe s a = Ok o ∨ acc !! a = Some o.
Proof.
  revert acc. induction ags as [|b ags IH]; intros acc H Ho; simpl in H.
  - simplify_eq. auto.
  - bind_as H ob Hob. destruct (IH _ H Ho) as [?|Hacc]; [auto|].
    apply lookup_insert_Some in Hacc as [[-> ->]|[_ ?]]; auto.
Qed.

Lemma observe_all_keys (s : Graph.env) (ags : list agent)
    (acc obs : gmap agent Graph.observation) (a : agent) :
  Graph.observe_all s ags acc = Ok obs →
  is_Some (obs !! a) ↔ a ∈ ags ∨ is_Some (acc !! a).
Proof.
  revert acc. induction ags as [|b ags IH]; intros acc H; simpl in H.
  - simplify_eq. rewrite elem_of_nil. tauto.
  - bind_as H ob Hob. rewrite (IH _ H), lookup_insert_is_Some, elem_of_cons.
    destruct (decide (b = a)) as [->|Hne]; [tauto|]. split.
    + intros [?|[?|[? ?]]]; auto; done.
    + intros [[?|?]|?]; auto; done.
Qed.

(** C9: in both variants a second [reset(seed)] right after the first
    returns the very same observation mapping (and leaves the state as
    the first call left it); its keys are the agents, and every
    collection counter in it is zero. *)
Theorem C9_reset_twice_same_observations :
  (∀ s seed s1 obs, Continuous.reset s seed = Ok (s1, obs) →
     Continuous.reset s1 seed = Ok (s1, obs) ∧
     (∀ a, is_Some (obs !! a) ↔ a ∈ agents (Continuous.aec s1)) ∧
     (∀ a o, obs !! a = Some o →
        o = Continuous.observe s1 a ∧
        Forall (λ n, n = 0) (Continuous.obs_collected o))) ∧
  (∀ s seed s1 obs, Graph.reset s seed = Ok (s1, obs) →
     Graph.reset s1 seed = Ok (s1, obs) ∧
     (∀ a, is_Some (obs !! a) ↔ a ∈ agents (Graph.aec s1)) ∧
     (∀ a o, obs !! a = Some o →
        Graph.observe s1 a = Ok o ∧
        Forall (λ n, n = 0) (Graph.obs_collected (Graph.obs_state o)))).
Proof.
  split.
  - intros s seed s1 obs H. split; [by eapply continuous_reset_again|].
    unfold Continuous.reset in H. bind_as H rng' Hrng. bind_as H [sel first] Hsel.
    injection H as <- <-. simpl. split; [apply keys_are_fromkeys|].
    intros a o [-> _]%lookup_fromkeys. split; [done|]. simpl.
    unfold Continuous._create_points. rewrite <- list_fmap_compose.
    apply Forall_fmap, Forall_forall. done.
  - intros s seed s1 obs H. split; [by eapply graph_reset_again|].
    unfold Graph.reset in H. bind_as H rng' Hrng. bind_as H [sel first] Hsel.
    bind_as H observations Hobs. injection H as <- <-. simpl. split.
    + intros a. rewrite (observe_all_keys _ _ _ _ a Hobs), lookup_empty.
      split; [intros [?|[? [=]]]; done|auto].
    + intros a o Ho.
      destruct (observe_all_lookup _ _ _ _ _ _ Hobs Ho) as [Hob|Hob];
        [|by rewrite lookup_empty in Hob].
      split; [done|]. unfold Graph.observe in Hob. bind_as Hob mask Hmask.
      injection Hob as <-. simpl. apply Forall_fmap, Forall_forall.
      intros p [l Hp]%list_elem_of_fmap. destruct Hp as [-> Hl].
      destruct l as [l p]. apply elem_of_odict_of_list in Hl.
      apply list_elem_of_fmap in Hl as (l' & [= -> ->] & _). done.
Qed.

Lemma C9_witness :
  ∃ s0 s1 obs, Graph.init graph_pair = Ok s0 ∧
               Graph.reset s0 (Some 7) = Ok (s1, obs) ∧
               Graph.reset s1 (Some 7) = Ok (s1, obs).
Proof.
  eexists _, _, _. split; [vm_compute; reflexivity|].
  lazymatch goal with
  | |- ?A ∧ _ => assert A as H by (vm_compute; reflexivity)
  end.
  split; [exact H|].
  exact (proj1 (proj2 C9_reset_twice_same_observations _ _ _ _ H)).
Defined.

(** * The action mask *)

Lemma mark_neighbors_spec (nbrs : list Z) (mask : list Z) :
  (∀ v, v ∈ nbrs → 0 <= v < Z.of_nat (length mask)) →
  ∃ mask', Graph.mark_neighbors mask nbrs = Ok mask' ∧
           length mask' = length mask ∧
           ∀ i : nat, (i < length mask)%nat →
             mask' !! i = if bool_decide (Z.of_nat i ∈ nbrs) then Some 1 else mask !! i.
Proof.
  revert mask. induction nbrs as [|nb nbrs IH]; intros mask Hrange.
  - exists mask. split; [done|]. split; [done|]. intros i _.
    rewrite bool_decide_eq_false_2; [done|]. apply not_elem_of_nil.
  - cbn [Graph.mark_neighbors]. assert (0 <= nb < Z.of_nat (length mask)) as Hnb by (apply Hrange; left).
    unfold Graph.np_setitem.
    destruct (Z.leb_spec 0 nb), (Z.ltb_spec nb (Z.of_nat (length mask))); try lia.
    simpl. destruct (IH (<[Z.to_nat nb := 1]> mask)) as (mask' & -> & Hlen & Hmask).
    { intros v Hv. rewrite length_insert. apply Hrange. by right. }
    rewrite length_insert in Hlen, Hmask.
    exists mask'. split; [done|]. split; [done|]. intros i Hi.
    rewrite (Hmask i Hi). destruct (decide (Z.of_nat i = nb)) as [Heq|Hne].
    + rewrite (bool_decide_eq_true_2 (Z.of_nat i ∈ nb :: nbrs)) by (rewrite Heq; left).
      case_bool_decide; [done|]. rewrite <- Heq, Nat2Z.id.
      by apply list_lookup_insert_eq.
    + rewrite list_lookup_insert_ne by lia.
      case_bool_decide as H1; case_bool_decide as H2; try done.
      * exfalso. apply H2. by right.
      * exfalso. apply H1. by apply elem_of_cons in H2 as [?|?].
Qed.

Lemma nx_contiguous_nodes (g : nx.Graph) (v : Z) :
  nx.contiguous g = true → v ∈ nx.nodes g →
  0 <= v < Z.of_nat (length (nx.nodes g)).
Proof.
  unfold nx.contiguous. rewrite forallb_forall. intros H Hv%list_elem_of_In.
  apply H in Hv. apply andb_true_iff in Hv as [?%Z.leb_le ?%Z.ltb_lt]. done.
Qed.

(** [observe] on any state whose graph keeps the documented label
    constraint: the mask is the indicator of the current neighbours. *)
Lemma observe_mask (s : Graph.env) (a : agent) (col : Graph.Collector.t) :
  nx.closed (Graph.graph s) = true → nx.contiguous (Graph.graph s) = true →
  oget (Graph.collectors s) a = Some col →
  Graph.Collector.label col ∈ nx.nodes (Graph.graph s) →
  ∃ mask, Graph._get_action_mask s a = Ok mask ∧
          Graph.observe s a = Ok {| Graph.obs_state := Graph.state s;
                                    Graph.action_mask := mask |} ∧
          is_neighbor_mask (Graph.graph s) (Graph.Collector.label col) mask.
Proof.
  intros Hcl Hcont Hcol Hnode.
  destruct (nx_neighbors_ok _ _ Hnode) as [nbrs Hn].
  destruct (mark_neighbors_spec nbrs (replicate (length (nx.nodes (Graph.graph s))) 0))
    as (mask & Hmask & Hlen & Hspec).
  { intros v Hv. rewrite length_replicate. apply nx_contiguous_nodes; [done|].
    by eapply nx_closed_neighbors. }
  rewrite length_replicate in Hlen, Hspec.
  assert (Graph._get_action_mask s a = Ok mask) as Hget.
  { unfold Graph._get_action_mask, oget_r. rewrite Hcol. simpl. by rewrite Hn. }
  exists mask. split; [done|]. split.
  - unfold Graph.observe. by rewrite Hget.
  - exists nbrs. split; [done|]. split; [done|]. intros i Hi.
    rewrite (Hspec i Hi). case_bool_decide; [done|].
    by apply lookup_replicate_2.
Qed.

(** C6: after reset, for every agent, [observe(agent)] returns the
    state together with a mask of one entry per node, 1 exactly at the
    neighbours of the node the agent's collector stands on; and the
    mask follows the graph that is current at the call, also when the
    topology has been replaced in between. *)
Theorem C6_action_mask_is_neighbor_indicator
    (c : Graph.config) (s : Graph.env) (a : agent) :
  Graph.valid c = true → Graph.reachable c s →
  a ∈ possible_agents (Graph.aec s) →
  ∃ col, oget (Graph.collectors s) a = Some col ∧
    (nx.contiguous (Graph.graph s) = true →
     ∃ mask, Graph.observe s a = Ok {| Graph.obs_state := Graph.state s;
                                       Graph.action_mask := mask |} ∧
             is_neighbor_mask (Graph.graph s) (Graph.Collector.label col) mask) ∧
    (∀ g, nx.closed g = true → nx.contiguous g = true →
          Graph.Collector.label col ∈ nx.nodes g →
     ∃ mask, Graph.observe (Graph.set_graph s g) a =
               Ok {| Graph.obs_state := Graph.state (Graph.set_graph s g);
                     Graph.action_mask := mask |} ∧
             is_neighbor_mask g (Graph.Collector.label col) mask).
Proof.
  intros Hvalid Hreach Ha.
  pose proof (graph_reachable_wf _ _ Hvalid Hreach) as Hwf.
  destruct (gwf_collectors s Hwf a Ha) as (col & Hcol & Hnode).
  exists col. split; [done|]. split.
  - intros Hcont.
    destruct (observe_mask s a col (gok_closed s (gwf_cfg s Hwf)) Hcont Hcol Hnode)
      as (mask & _ & Hobs & Hmask). eauto.
  - intros g Hcl Hcont Hnode'.
    destruct (observe_mask (Graph.set_graph s g) a col Hcl Hcont Hcol Hnode')
      as (mask & _ & Hobs & Hmask). eauto.
Qed.

Lemma C6_witness :
  ∃ s col, Graph.run graph_pair [Some 1] = Ok s ∧
    oget (Graph.collectors s) "agent_0" = Some col ∧
    Graph.Collector.label col = 1 ∧
    ∃ mask, Graph.observe s "agent_0" =
              Ok {| Graph.obs_state := Graph.state s; Graph.action_mask := mask |} ∧
            is_neighbor_mask (Graph.graph s) 1 mask.
Proof.
  eexists _, _. split; [vm_compute; reflexivity|].
  split; [vm_compute; reflexivity|]. split; [reflexivity|].
  destruct (C6_action_mask_is_neighbor_indicator graph_pair _ "agent_0"
              eq_refl (graph_run_reachable graph_pair [Some 1] _ eq_refl))
    as (col & Hcol & Hmask & _).
  - vm_compute. set_solver.
  - vm_compute in Hcol. injection Hcol as <-. apply Hmask. reflexivity.
Defined.

(** * Live steps return *)

Lemma live_is_dead (e : AECEnv) (a : agent) :
  live e a → agent_selection e = Some a ∧ is_dead e a = Ok false.
Proof.
  intros (Hsel & Ht & Hu). split; [done|]. apply is_dead_Ok. by right.
Qed.

Lemma live_accumulate_ok (e : AECEnv) (a : agent) (r : R) :
  aec_wf e → a ∈ agents e →
  ∃ cum, _accumulate_rewards (<[a := r]> (rewards e))
           (<[a := 0%R]> (_cumulative_rewards e)) = Ok cum.
Proof.
  intros Hwf Hin. apply accumulate_rewards_ok. intros b.
  rewrite !lookup_insert_is_Some.
  rewrite (wf_rewards e Hwf b), (wf_cumulative e Hwf b).
  destruct (decide (a = b)); [auto|]. intros [?|[_ ?]]; auto.
Qed.

(** In a live step of the graph variant nothing but the move can raise. *)
Lemma graph_step_live_ok (s : Graph.env) (a : agent) (act : action)
    col nbrs r cols pts :
  graph_wf s → live (Graph.aec s) a →
  oget (Graph.collectors s) a = Some col →
  nx.neighbors (Graph.graph s) (Graph.Collector.label col) = Ok nbrs →
  Graph.move_and_collect s a col nbrs act = Ok (r, cols, pts) →
  ∃ s', Graph.step_live s a act = Ok s'.
Proof.
  intros Hwf (Hsel & Ht & Hu) Hcol Hn Hmove.
  assert (a ∈ agents (Graph.aec s)) as Hin
    by (eapply live_in_agents; [apply Hwf|eauto]).
  pose proof (wf_sub _ (gwf_aec s Hwf) _ Hin) as Hposs.
  destruct (gwf_collectors s Hwf a Hposs) as (col0 & Hcol0 & Hnode).
  assert (col0 = col) as -> by congruence.
  destruct (move_and_collect_collectors _ _ _ _ _ _ _ _ Hmove Hcol Hn
              (gok_closed s (gwf_cfg s Hwf)) Hnode) as (_ & c & Hc & _).
  destruct (gok_budget s (gwf_cfg s Hwf) a Hposs) as [budget Hb].
  destruct (gwf_totals s Hwf a Hposs) as [total Htot].
  destruct (live_accumulate_ok _ a r (gwf_aec s Hwf) Hin) as [cum Hcum].
  destruct (next_ok (agents (Graph.aec s)) (_agent_selector (Graph.aec s)))
    as (sel & nxt & Hnext & _).
  { intros Hnil. rewrite Hnil in Hin. by apply elem_of_nil in Hin. }
  unfold Graph.step_live, oget_r, dict_get.
  rewrite Hcol. simpl. rewrite Hn. simpl. rewrite Hmove. simpl.
  rewrite Hc. simpl. rewrite Hb. simpl. rewrite Htot. simpl.
  rewrite Hcum. simpl. rewrite Hnext. simpl. eauto.
Qed.

(** A live agent passes the dead test and the action-space test with
    [None] or with an action of its space. *)
Lemma graph_step_live_eq (s : Graph.env) (a : agent) (act : action) sp :
  Graph.has_reset s = true → live (Graph.aec s) a →
  Graph.action_spaces s !! a = Some sp →
  contains sp act = true ∨ act = None →
  Graph.step s act = Graph.step_live s a act.
Proof.
  intros Hreset Hlive Hsp Hact. apply live_is_dead in Hlive as [Hsel Hdead].
  unfold Graph.step, dict_get. rewrite Hreset, Hsel. simpl. rewrite Hdead. simpl.
  rewrite Hsp. simpl. destruct Hact as [->| ->]; [done|].
  by rewrite andb_false_r.
Qed.

(** In the continuous variant a live step with an action of the space
    returns. *)
Lemma continuous_step_live_ok (s : Continuous.env) (a : agent) (x : Z) sp :
  continuous_wf s → live (Continuous.aec s) a →
  Continuous.action_spaces s !! a = Some sp → contains sp (Some x) = true →
  ∃ s', Continuous.step s (Some x) = Ok s' ∧ Continuous.step_live s a x = Ok s'.
Proof.
  intros Hwf Hlive Hsp Hact. pose proof Hlive as (_ & Ht & _).
  apply live_is_dead in Hlive as [Hsel Hdead].
  assert (a ∈ agents (Continuous.aec s)) as Hin
    by (eapply live_in_agents; [apply Hwf|eauto]).
  pose proof (wf_sub _ (cwf_aec s Hwf) _ Hin) as Hposs.
  rewrite (cok_spaces s (cwf_cfg s Hwf) a Hposs) in Hsp. injection Hsp as <-.
  simpl in Hact. apply andb_true_iff in Hact as [Hlo%Z.leb_le Hhi%Z.ltb_lt].
  rewrite <- (cwf_points s Hwf) in Hhi.
  destruct (py_index_ok (Continuous.points s) x) as [p Hp]; [lia|].
  destruct (cwf_collectors s Hwf a Hposs) as [col Hcol].
  destruct (cok_budget s (cwf_cfg s Hwf) a Hposs) as [budget Hb].
  destruct (live_accumulate_ok _ a (Continuous.reward s col p) (cwf_aec s Hwf) Hin)
    as [cum Hcum].
  destruct (next_ok (agents (Continuous.aec s)) (_agent_selector (Continuous.aec s)))
    as (sel & nxt & Hnext & _).
  { intros Hnil. rewrite Hnil in Hin. by apply elem_of_nil in Hin. }
  assert (∃ s', Continuous.step_live s a x = Ok s') as [s' Hs'].
  { unfold Continuous.step_live, oget_r, dict_get.
    rewrite Hp. simpl. rewrite Hcol. simpl. rewrite Hnext. simpl.
    rewrite Hcum. simpl. rewrite oget_oset_eq. simpl. rewrite Hb. simpl. eauto. }
  exists s'. split; [|done].
  unfold Continuous.step, dict_get. rewrite (cwf_reset s Hwf), Hsel. simpl.
  rewrite Hdead. simpl. rewrite (cok_spaces s (cwf_cfg s Hwf) a Hposs). simpl.
  destruct (Z.leb_spec 0 x), (Z.ltb_spec x (0 + Z.of_nat (length (Continuous.point_positions s))));
    simpl; try done; rewrite <- (cwf_points s Hwf) in *; lia.
Qed.

(** * Actions that do not move *)

(** A live step of the graph variant with [None], or with an action of
    the space that names no neighbour. *)
Lemma graph_noop_step (s : Graph.env) (a : agent) (act : action) sp col nbrs :
  graph_wf s → live (Graph.aec s) a →
  Graph.action_spaces s !! a = Some sp →
  oget (Graph.collectors s) a = Some col →
  nx.neighbors (Graph.graph s) (Graph.Collector.label col) = Ok nbrs →
  act = None ∨ (∃ x, act = Some x ∧ contains sp act = true ∧ x ∉ nbrs) →
  ∃ s' sel nxt budget,
    Graph.step s act = Ok s' ∧
    rewards (Graph.aec s') !! a = Some 0%R ∧
    Graph.collectors s' = Graph.collectors s ∧
    Graph.points s' = Graph.points s ∧
    next (agents (Graph.aec s)) (_agent_selector (Graph.aec s)) = Ok (sel, nxt) ∧
    agent_selection (Graph.aec s') = Some nxt ∧
    _agent_selector (Graph.aec s') = sel ∧
    Graph.iteration s' = Graph.iteration s + 1 ∧
    Graph.max_collect s !! a = Some budget ∧
    terminations (Graph.aec s') !! a =
      Some (budget <=? Graph.Collector.total_points_collected col) ∧
    Graph.terminate s' = all_values (terminations (Graph.aec s')).
Proof.
  intros Hwf Hlive Hsp Hcol Hn Hact.
  assert (Graph.move_and_collect s a col nbrs act =
          Ok (0%R, Graph.collectors s, Graph.points s)) as Hmove.
  { unfold Graph.move_and_collect. destruct Hact as [->|(x & -> & _ & Hx)]; [done|].
    by rewrite bool_decide_eq_false_2. }
  destruct (graph_step_live_ok s a act _ _ _ _ _ Hwf Hlive Hcol Hn Hmove) as [s' Hs'].
  rewrite <- (graph_step_live_eq s a act sp (gwf_reset s Hwf) Hlive Hsp) in Hs'.
  2:{ destruct Hact as [->|(x & -> & Hc & _)]; auto. }
  pose proof Hs' as Hstep.
  apply graph_step_inv in Hs' as (_ & a' & Ha' & [(Hdead & _)|(_ & sp' & _ & _ & H)]).
  { destruct Hlive as (Hsel & Ht & Hu). assert (a' = a) as -> by congruence.
    apply is_dead_Ok in Hdead as [[? _]|[_ ?]]; congruence. }
  destruct Hlive as (Hsel & Ht & Hu). assert (a' = a) as -> by congruence.
  apply graph_step_live_inv in H
    as (col' & nbrs' & r & cols & pts & c & budget & total & cum & sel & nxt &
        Hcol' & Hn' & Hmove' & Hc & Hb & Htotal & Hacc & Hnext & ->).
  assert (col' = col) as -> by congruence.
  assert (nbrs' = nbrs) as -> by congruence.
  rewrite Hmove in Hmove'. injection Hmove' as <- <- <-.
  assert (c = col) as -> by congruence.
  eexists _, sel, nxt, budget. split; [exact Hstep|]. simpl.
  split; [by rewrite lookup_insert_eq|]. do 7 (split; [done|]). split; [|done].
  destruct (budget <=? _); [by rewrite lookup_insert_eq|done].
Qed.

(** C2: the two variants treat an invalid action differently.  In the
    continuous variant a live agent's action outside its action space
    makes [step] raise; in the graph variant a live agent's action
    inside the space that names no neighbour of its node makes [step]
    return, with reward 0 and with the collectors and the points as
    they were. *)
Theorem C2_invalid_action_policies :
  (∀ c s a, Continuous.reachable c s → live (Continuous.aec s) a →
     ∃ sp, Continuous.action_spaces s !! a = Some sp ∧
       ∀ act, contains sp act = false →
         Continuous.step s act = Raise (ValueError InvalidAction)) ∧
  (∀ c s a, Graph.valid c = true → Graph.reachable c s → live (Graph.aec s) a →
     ∃ sp col nbrs,
       Graph.action_spaces s !! a = Some sp ∧
       oget (Graph.collectors s) a = Some col ∧
       nx.neighbors (Graph.graph s) (Graph.Collector.label col) = Ok nbrs ∧
       ∀ x, contains sp (Some x) = true → x ∉ nbrs →
         ∃ s', Graph.step s (Some x) = Ok s' ∧
               rewards (Graph.aec s') !! a = Some 0%R ∧
               Graph.collectors s' = Graph.collectors s ∧
               Graph.points s' = Graph.points s).
Proof.
  split.
  - intros c s a Hreach Hlive.
    pose proof (continuous_reachable_wf _ _ Hreach) as Hwf.
    pose proof Hlive as (_ & Ht & _).
    assert (a ∈ agents (Continuous.aec s)) as Hin
      by (eapply live_in_agents; [apply Hwf|eauto]).
    pose proof (wf_sub _ (cwf_aec s Hwf) _ Hin) as Hposs.
    eexists. split; [exact (cok_spaces s (cwf_cfg s Hwf) a Hposs)|].
    intros act Hact. apply live_is_dead in Hlive as [Hsel Hdead].
    unfold Continuous.step, dict_get. rewrite (cwf_reset s Hwf), Hsel. simpl.
    rewrite Hdead. simpl. rewrite (cok_spaces s (cwf_cfg s Hwf) a Hposs). simpl.
    by rewrite Hact.
  - intros c s a Hvalid Hreach Hlive.
    pose proof (graph_reachable_wf _ _ Hvalid Hreach) as Hwf.
    pose proof Hlive as (_ & Ht & _).
    assert (a ∈ agents (Graph.aec s)) as Hin
      by (eapply live_in_agents; [apply Hwf|eauto]).
    pose proof (wf_sub _ (gwf_aec s Hwf) _ Hin) as Hposs.
    destruct (gok_spaces s (gwf_cfg s Hwf) a Hposs) as [sp Hsp].
    destruct (gwf_collectors s Hwf a Hposs) as (col & Hcol & Hnode).
    destruct (nx_neighbors_ok _ _ Hnode) as [nbrs Hn].
    exists sp, col, nbrs. do 3 (split; [done|]). intros x Hx Hnb.
    destruct (graph_noop_step s a (Some x) sp col nbrs Hwf Hlive Hsp Hcol Hn)
      as (s' & sel & nxt & budget & Hstep & Hrw & Hcols & Hpts & _); [eauto 10|].
    eauto.
Qed.

Lemma graph_solo_start_reachable : Graph.reachable graph_solo graph_solo_start.
Proof. apply (graph_run_reachable graph_solo []). vm_compute. reflexivity. Qed.

Lemma graph_pair_start_reachable : Graph.reachable graph_pair graph_pair_start.
Proof. apply (graph_run_reachable graph_pair []). vm_compute. reflexivity. Qed.

Lemma plane_pair_start_reachable : Continuous.reachable plane_pair plane_pair_start.
Proof. apply (continuous_run_reachable plane_pair []). vm_compute. reflexivity. Qed.

Lemma C2_witness :
  live (Continuous.aec plane_pair_start) "agent_0" ∧
  Continuous.step plane_pair_start (Some 1) = Raise (ValueError InvalidAction).
Proof.
  assert (live (Continuous.aec plane_pair_start) "agent_0") as Hlive
    by (repeat split; reflexivity).
  split; [exact Hlive|].
  destruct (proj1 C2_invalid_action_policies plane_pair plane_pair_start "agent_0"
              plane_pair_start_reachable Hlive) as (sp & Hsp & Hraise).
  apply Hraise. vm_compute in Hsp. by injection Hsp as <-.
Defined.

(** [sample] returns [None] exactly when the selected agent's node has
    no neighbour, and a neighbour otherwise. *)
Lemma sample_spec (s : Graph.env) (a : agent) col nbrs (draw : nat) :
  Graph.has_reset s = true → agent_selection (Graph.aec s) = Some a →
  oget (Graph.collectors s) a = Some col →
  nx.neighbors (Graph.graph s) (Graph.Collector.label col) = Ok nbrs →
  (nbrs = [] → Graph.sample s draw = Ok None) ∧
  (nbrs ≠ [] → ∃ x, Graph.sample s draw = Ok (Some x) ∧ x ∈ nbrs).
Proof.
  intros Hreset Hsel Hcol Hn. unfold Graph.sample, oget_r.
  rewrite Hsel, Hreset. simpl. rewrite Hcol. simpl. rewrite Hn. simpl.
  split; [by intros ->|]. intros Hne. destruct nbrs as [|y nbrs]; [done|].
  destruct (lookup_lt_is_Some_2 (y :: nbrs) (draw `mod` length (y :: nbrs))%nat)
    as [x Hx].
  { apply Nat.mod_upper_bound. done. }
  exists x. rewrite Hx. split; [done|]. by eapply list_elem_of_lookup_2.
Qed.

(** C10: in the graph variant [step(None)] for a live agent returns:
    the reward is 0, no collector and no point changes, the turn
    advances by one [next()], the iteration counter grows by one, and
    the termination update runs on the agent's unchanged total.  It
    matches [sample()], which answers [None] when the agent's node has
    no neighbour. *)
Theorem C10_step_none_is_zero_reward_noop
    (c : Graph.config) (s : Graph.env) (a : agent) :
  Graph.valid c = true → Graph.reachable c s → live (Graph.aec s) a →
  ∃ s' sel nxt col budget nbrs,
    Graph.step s None = Ok s' ∧
    rewards (Graph.aec s') !! a = Some 0%R ∧
    Graph.collectors s' = Graph.collectors s ∧
    Graph.points s' = Graph.points s ∧
    next (agents (Graph.aec s)) (_agent_selector (Graph.aec s)) = Ok (sel, nxt) ∧
    agent_selection (Graph.aec s') = Some nxt ∧
    _agent_selector (Graph.aec s') = sel ∧
    Graph.iteration s' = Graph.iteration s + 1 ∧
    oget (Graph.collectors s) a = Some col ∧
    Graph.max_collect s !! a = Some budget ∧
    terminations (Graph.aec s') !! a =
      Some (budget <=? Graph.Collector.total_points_collected col) ∧
    Graph.terminate s' = all_values (terminations (Graph.aec s')) ∧
    nx.neighbors (Graph.graph s) (Graph.Collector.label col) = Ok nbrs ∧
    ∀ draw, (nbrs = [] → Graph.sample s draw = Ok None) ∧
            (nbrs ≠ [] → ∃ x, Graph.sample s draw = Ok (Some x) ∧ x ∈ nbrs).
Proof.
  intros Hvalid Hreach Hlive.
  pose proof (graph_reachable_wf _ _ Hvalid Hreach) as Hwf.
  pose proof Hlive as (Hsel & Ht & _).
  assert (a ∈ agents (Graph.aec s)) as Hin
    by (eapply live_in_agents; [apply Hwf|eauto]).
  pose proof (wf_sub _ (gwf_aec s Hwf) _ Hin) as Hposs.
  destruct (gok_spaces s (gwf_cfg s Hwf) a Hposs) as [sp Hsp].
  destruct (gwf_collectors s Hwf a Hposs) as (col & Hcol & Hnode).
  destruct (nx_neighbors_ok _ _ Hnode) as [nbrs Hn].
  destruct (graph_noop_step s a None sp col nbrs Hwf Hlive Hsp Hcol Hn)
    as (s' & sel & nxt & budget & Hstep & Hrw & Hcols & Hpts & Hnext & Hnxt &
        Hsel' & Hit & Hb & Hterm & Hflag); [by left|].
  exists s', sel, nxt, col, budget, nbrs.
  do 13 (split; [done|]). intros draw.
  by apply (sample_spec s a col nbrs draw (gwf_reset s Hwf)).
Qed.

Lemma C10_witness :
  live (Graph.aec graph_solo_start) "agent_0" ∧
  is_ok (Graph.step graph_solo_start None) = true.
Proof.
  assert (live (Graph.aec graph_solo_start) "agent_0") as Hlive
    by (repeat split; reflexivity).
  split; [exact Hlive|].
  destruct (C10_step_none_is_zero_reward_noop graph_solo graph_solo_start "agent_0"
              eq_refl graph_solo_start_reachable Hlive) as (s' & ? & ? & ? & ? & ? & -> & _).
  reflexivity.
Defined.

(** * The reward of a moving step *)

Lemma continuous_reward_cases (s : Continuous.env) col p :
  let base := Continuous.norm_diff (Continuous.Collector.position col)
                (Continuous.Point.position p) in
  let cheat := (Continuous.cheat_cost s * Continuous.caught_probability s)%R in
  (Continuous.Point.collect_counter p = 0 → Continuous.reward s col p = (- base)%R) ∧
  (0 < Continuous.Point.collect_counter p →
   Continuous.reward s col p = (- (base + cheat))%R) ∧
  ((0 <= cheat)%R → (Continuous.reward s col p <= 0)%R).
Proof.
  simpl. unfold Continuous.reward, Continuous.Point.is_collected, Continuous.cheating_cost.
  pose proof (sqrt_pos
    ((col.(Continuous.Collector.position).1 - p.(Continuous.Point.position).1) *
     (col.(Continuous.Collector.position).1 - p.(Continuous.Point.position).1) +
     (col.(Continuous.Collector.position).2 - p.(Continuous.Point.position).2) *
     (col.(Continuous.Collector.position).2 - p.(Continuous.Point.position).2))) as Hpos.
  unfold Continuous.norm_diff.
  destruct (Z.ltb_spec 0 (Continuous.Point.collect_counter p)).
  - split; [lia|]. split; [done|]. intros. lra.
  - split; [done|]. split; [lia|]. intros. lra.
Qed.

Lemma graph_reward_cases (s : Graph.env) (u v : Z) (w : R) :
  nx.weight (Graph.graph s) u v = Ok w →
  let cheat := (Graph.cheat_cost s * Graph.caught_probability s)%R in
  ∃ r, Graph.reward s u v = Ok r ∧
    (∀ p, oget (Graph.points s) v = Some p →
       (Graph.Point.collect_counter p = 0 → r = (- w)%R) ∧
       (0 < Graph.Point.collect_counter p → r = (- (w + cheat))%R)) ∧
    (oget (Graph.points s) v = None → r = (- w)%R) ∧
    ((0 <= w)%R → (0 <= cheat)%R → (r <= 0)%R).
Proof.
  intros Hw. simpl. unfold Graph.reward. rewrite Hw.
  unfold Graph.Point.is_collected, Graph.cheating_cost.
  destruct (oget (Graph.points s) v) as [p|].
  - destruct (Z.ltb_spec 0 (Graph.Point.collect_counter p)); eexists; (split; [done|]).
    + split; [intros ? [= <-]; split; [lia|done]|]. split; [done|]. intros. lra.
    + split; [intros ? [= <-]; split; [done|lia]|]. split; [done|]. intros. lra.
  - eexists. split; [done|]. split; [done|]. split; [done|]. intros. lra.
Qed.

Lemma graph_negative_start_reachable :
  Graph.reachable graph_negative graph_negative_start.
Proof. apply (graph_run_reachable graph_negative []). vm_compute. reflexivity. Qed.

(** Against C1 as stated: the reward is not always at most 0.  On a
    graph whose edge 0 - 1 has weight -1 the live agent's first move
    along that edge, to a point never collected before, is rewarded
    with +1. *)
Lemma C1_counterexample :
  Graph.reachable graph_negative graph_negative_start ∧
  live (Graph.aec graph_negative_start) "agent_0" ∧
  nx.weight (Graph.graph graph_negative_start) 0 1 = Ok (- 1)%R ∧
  Graph.step graph_negative_start (Some 1) = Ok graph_negative_moved ∧
  rewards (Graph.aec graph_negative_moved) !! "agent_0" = Some 1%R ∧
  ¬ (1 <= 0)%R.
Proof.
  split; [exact graph_negative_start_reachable|].
  split; [repeat split; reflexivity|].
  split; [vm_compute; reflexivity|].
  split; [vm_compute; reflexivity|].
  split; [vm_compute; f_equal; lra|lra].
Qed.

(** C1, amended: a live agent's step to a reachable destination records
    the reward computed on the destination point as it was before the
    step: minus the base cost when its counter was 0, minus the base
    cost and the expected cheating cost when it was positive, although
    the step itself then raises the counter by one.  The base cost is
    the Euclidean distance between the collector and the point
    (continuous variant) or the weight of the edge (graph variant).
    The reward is at most 0 when the expected cheating cost and, in the
    graph variant, the edge weight are not negative. *)
Theorem C1_reward_from_state_before_collection :
  (∀ c s a x sp,
     Continuous.reachable c s → live (Continuous.aec s) a →
     Continuous.action_spaces s !! a = Some sp → contains sp (Some x) = true →
     ∃ s' col p,
       let at_ := Continuous.Collector.position col in
       let to_ := Continuous.Point.position p in
       let base := sqrt ((at_.1 - to_.1) * (at_.1 - to_.1) +
                         (at_.2 - to_.2) * (at_.2 - to_.2))%R in
       let cheat := (Continuous.cheat_cost s * Continuous.caught_probability s)%R in
       Continuous.step s (Some x) = Ok s' ∧
       oget (Continuous.collectors s) a = Some col ∧
       Continuous.points s !! Z.to_nat x = Some p ∧
       rewards (Continuous.aec s') !! a = Some (Continuous.reward s col p) ∧
       (Continuous.Point.collect_counter p = 0 →
        rewards (Continuous.aec s') !! a = Some (- base)%R) ∧
       (0 < Continuous.Point.collect_counter p →
        rewards (Continuous.aec s') !! a = Some (- (base + cheat))%R) ∧
       Continuous.points s' !! Z.to_nat x = Some (Continuous.Point.collect p) ∧
       ((0 <= cheat)%R → (Continuous.reward s col p <= 0)%R)) ∧
  (∀ c s a x sp col nbrs w,
     Graph.valid c = true → Graph.reachable c s → live (Graph.aec s) a →
     Graph.action_spaces s !! a = Some sp → contains sp (Some x) = true →
     oget (Graph.collectors s) a = Some col →
     nx.neighbors (Graph.graph s) (Graph.Collector.label col) = Ok nbrs →
     x ∈ nbrs → nx.weight (Graph.graph s) (Graph.Collector.label col) x = Ok w →
     ∃ s' r,
       let cheat := (Graph.cheat_cost s * Graph.caught_probability s)%R in
       Graph.step s (Some x) = Ok s' ∧
       Graph.reward s (Graph.Collector.label col) x = Ok r ∧
       rewards (Graph.aec s') !! a = Some r ∧
       (∀ p, oget (Graph.points s) x = Some p →
          (Graph.Point.collect_counter p = 0 → r = (- w)%R) ∧
          (0 < Graph.Point.collect_counter p → r = (- (w + cheat))%R) ∧
          oget (Graph.points s') x = Some (Graph.Point.collect p)) ∧
       (oget (Graph.points s) x = None → r = (- w)%R) ∧
       ((0 <= w)%R → (0 <= cheat)%R → (r <= 0)%R)).
Proof.
  split.
  - intros c s a x sp Hreach Hlive Hsp Hx.
    pose proof (continuous_reachable_wf _ _ Hreach) as Hwf.
    destruct (continuous_step_live_ok s a x sp Hwf Hlive Hsp Hx) as (s' & Hstep & H).
    apply continuous_step_live_inv in H
      as (p & col & sel & nxt & cum & budget & Hp & Hcol & Hnext & Hacc & Hb & ->).
    assert (0 <= x) as Hx0.
    { pose proof Hlive as (_ & Ht & _).
      assert (a ∈ agents (Continuous.aec s)) as Hin
        by (eapply live_in_agents; [apply Hwf|eauto]).
      rewrite (cok_spaces s (cwf_cfg s Hwf) a (wf_sub _ (cwf_aec s Hwf) _ Hin)) in Hsp.
      injection Hsp as <-. simpl in Hx. apply andb_true_iff in Hx as [?%Z.leb_le _].
      done. }
    apply (py_index_nonneg _ _ _ Hx0) in Hp.
    destruct (continuous_reward_cases s col p) as (H0 & H1 & Hle).
    eexists _, col, p. split; [exact Hstep|]. simpl. do 2 (split; [done|]).
    rewrite lookup_insert_eq. split; [done|].
    split; [intros ?; by rewrite H0|]. split; [intros ?; by rewrite H1|].
    split; [|done]. apply list_lookup_insert_eq. by eapply lookup_lt_Some.
  - intros c s a x sp col nbrs w Hvalid Hreach Hlive Hsp Hx Hcol Hn Hnb Hw.
    pose proof (graph_reachable_wf _ _ Hvalid Hreach) as Hwf.
    destruct (graph_reward_cases s _ _ w Hw) as (r & Hr & Hpt & Hnone & Hle).
    assert (∃ cols pts,
      Graph.move_and_collect s a col nbrs (Some x) = Ok (r, cols, pts) ∧
      ∀ p, oget (Graph.points s) x = Some p →
           oget pts x = Some (Graph.Point.collect p)) as (cols & pts & Hmove & Hpts).
    { unfold Graph.move_and_collect. rewrite bool_decide_eq_true_2 by done.
      rewrite Hr. simpl. destruct (oget (Graph.points s) x) as [p|] eqn:Hp.
      - eexists _, _. split; [done|]. intros ? [= <-]. by rewrite oget_oset_eq.
      - eexists _, _. split; [done|]. done. }
    destruct (graph_step_live_ok s a (Some x) _ _ _ _ _ Hwf Hlive Hcol Hn Hmove)
      as [s' Hs'].
    pose proof Hs' as Hstep.
    rewrite <- (graph_step_live_eq s a (Some x) sp (gwf_reset s Hwf) Hlive Hsp) in Hstep
      by auto.
    apply graph_step_live_inv in Hs'
      as (col' & nbrs' & r' & cols' & pts' & c0 & budget & total & cum & sel & nxt &
          Hcol' & Hn' & Hmove' & Hc & Hb & Htotal & Hacc & Hnext & ->).
    assert (col' = col) as -> by congruence.
    assert (nbrs' = nbrs) as -> by congruence.
    rewrite Hmove in Hmove'. injection Hmove' as <- <- <-.
    eexists _, r. split; [exact Hstep|]. simpl. split; [done|].
    rewrite lookup_insert_eq. split; [done|]. split; [|done].
    intros p Hp. destruct (Hpt p Hp). auto.
Qed.

Lemma C1_witness :
  (∃ s', Continuous.step plane_pair_start (Some 0) = Ok s' ∧
         rewards (Continuous.aec s') !! "agent_0" = Some (- 5)%R) ∧
  (∃ s', Graph.step graph_pair_start (Some 1) = Ok s' ∧
         rewards (Graph.aec s') !! "agent_0" = Some (- 2)%R).
Proof.
  split.
  - assert (live (Continuous.aec plane_pair_start) "agent_0") as Hlive
      by (repeat split; reflexivity).
    edestruct (proj1 C1_reward_from_state_before_collection
                 plane_pair plane_pair_start "agent_0" 0)
      as (s' & col & p & Hstep & Hcol & Hp & Hrw & H0 & H1 & Hpts & Hle).
    + exact plane_pair_start_reachable.
    + exact Hlive.
    + vm_compute. reflexivity.
    + reflexivity.
    + assert (oget (Continuous.collectors plane_pair_start) "agent_0" =
              Some (Continuous.Collector.new (3, 4)%R)) as Hcol'
        by (vm_compute; reflexivity).
      assert (Continuous.points plane_pair_start !! Z.to_nat 0 =
              Some (Continuous.Point.new (0, 0)%R)) as Hp'
        by (vm_compute; reflexivity).
      rewrite Hcol' in Hcol. injection Hcol as <-.
      rewrite Hp' in Hp. injection Hp as <-.
      exists s'. split; [exact Hstep|]. etrans; [exact (H0 eq_refl)|]. simpl.
      f_equal.
      replace ((3 - 0) * (3 - 0) + (4 - 0) * (4 - 0))%R with (5 * 5)%R by lra.
      rewrite sqrt_square by lra. lra.
  - assert (live (Graph.aec graph_pair_start) "agent_0") as Hlive
      by (repeat split; reflexivity).
    edestruct (proj2 C1_reward_from_state_before_collection
                 graph_pair graph_pair_start "agent_0" 1)
      as (s' & r & Hstep & Hr & Hrw & Hpt & Hnone & Hle).
    + reflexivity.
    + exact graph_pair_start_reachable.
    + exact Hlive.
    + vm_compute. reflexivity.
    + reflexivity.
    + vm_compute. reflexivity.
    + vm_compute. reflexivity.
    + vm_compute. set_solver.
    + vm_compute. reflexivity.
    + exists s'. split; [exact Hstep|]. etrans; [exact Hrw|].
      rewrite (Hnone eq_refl). f_equal; lra.
Defined.

(** * Flags and budgets along an episode *)

Lemma move_and_collect_other (s : Graph.env) (a b : agent) col nbrs act r cols pts :
  Graph.move_and_collect s a col nbrs act = Ok (r, cols, pts) →
  b ≠ a → oget cols b = oget (Graph.collectors s) b.
Proof.
  intros [(x & -> & _ & _ & H)|(_ & _ & -> & _)]%move_and_collect_inv Hne; [|done].
  simpl in H. destruct (oget (Graph.points s) x); destruct H as [-> _];
    by rewrite oget_oset_ne.
Qed.

Lemma graph_init_possible (c : Graph.config) (s0 : Graph.env) :
  Graph.init c = Ok s0 → NoDup (possible_agents (Graph.aec s0)).
Proof.
  unfold Graph.init. intros H. bind_as H [w h] Hshape. bind_as H mc Hmc.
  bind_as H spaces Hsp. simplify_eq. simpl. apply make_agents_NoDup.
Qed.

Lemma graph_reset_inv (s s' : Graph.env) seed obs :
  NoDup (possible_agents (Graph.aec s)) →
  Graph.reset s seed = Ok (s', obs) → graph_inv s'.
Proof.
  intros Hnd H. unfold Graph.reset in H. bind_as H rng' Hrng. bind_as H [sel first] Hsel.
  bind_as H observations Hobs. simplify_eq.
  pose proof (next_elem _ _ _ _ Hsel) as Hfirst.
  constructor; simpl.
  - by apply reset_aec_wf.
  - unfold terminate_ok. simpl. symmetry. by eapply fromkeys_all_false.
  - intros _. unfold truncate_ok. simpl. symmetry. by eapply fromkeys_all_false.
  - apply budget_ok_reset. intros a t Ht.
    destruct (oget _ a) as [col|] eqn:Hcol; [|done]. simpl in Ht. simplify_eq.
    apply oget_odict_of_list, elem_of_zip_r in Hcol.
    apply list_elem_of_fmap in Hcol as (p & -> & _). done.
Qed.

Lemma graph_step_keeps_inv (s s' : Graph.env) (act : action) :
  graph_inv s → Graph.step s act = Ok s' → graph_inv s'.
Proof.
  intros [Haec Hterm Htrunc Hbok] H.
  apply graph_step_inv in H as (_ & agent_ & Hag & [(Hdead & H)|(Hlive & sp & _ & _ & H)]).
  - apply graph_step_dead_inv in H as (e & e' & He & Hguard & ->).
    pose proof (was_dead_step_wf _ _ _ Haec He) as Haec'.
    destruct (was_dead_step_flags _ _ _ _ _ Haec He Hterm Htrunc) as [Hterm' Htrunc'].
    apply was_dead_step_inv in He as (_ & a & _ & _ & _ & _ & _ & _ & _ & _ & _ & Ht & _).
    assert (agents e' = agents e ∧ terminations e' = terminations e ∧
            truncations e' = truncations e ∧ aec_wf e') as (Hags & Ht' & Hu' & Hwf').
    { destruct Hguard as [[_ ->]|(_ & sel & nxt & _ & ->)]; simpl;
        auto using select_aec_wf. }
    constructor; simpl.
    + done.
    + unfold terminate_ok in *. by rewrite Ht'.
    + rewrite Hags. unfold truncate_ok in *. by rewrite Hu'.
    + rewrite Ht', Ht. by apply budget_ok_delete.
  - apply graph_step_live_inv in H
      as (col & nbrs & r & cols & pts & c & budget & total & cum & sel & nxt &
          Hcol & Hn & Hmove & Hc & Hb & Htotal & Hacc & Hnext & ->).
    apply is_dead_false in Hlive as [Hta Hua].
    assert (agent_ ∈ agents (Graph.aec s)) as Hin by (eapply live_in_agents; eauto).
    constructor; simpl.
    + by apply live_step_aec_wf.
    + done.
    + done.
    + eapply budget_ok_live; [done..| |].
      * by rewrite Hc.
      * intros b Hne. by rewrite (move_and_collect_other _ _ _ _ _ _ _ _ _ Hmove).
Qed.

Lemma graph_reachable_inv (c : Graph.config) (s : Graph.env) :
  Graph.reachable c s → graph_inv s.
Proof.
  induction 1 as [s0 seed s obs Hinit Hreset|s seed s' obs _ IH Hreset|s act s' _ IH Hstep].
  - eapply graph_reset_inv; [|done]. by eapply graph_init_possible.
  - eapply graph_reset_inv; [|done]. apply wf_possible, IH.
  - by eapply graph_step_keeps_inv.
Qed.

(** A terminated flag survives every bookkeeping update of a step. *)
Lemma terminated_stays (term term' : gmap agent bool) (a : agent) :
  term !! a = Some true →
  (∃ b, term' = delete b term) ∨
  (∃ b cond, term' = if cond : bool then <[b := true]> term else term) →
  term' !! a ≠ Some false.
Proof.
  intros Ha [(b & ->)|(b & cond & ->)].
  - intros [_ ?]%lookup_delete_Some. congruence.
  - destruct cond; [|congruence].
    destruct (decide (b = a)) as [->|Hne].
    + by rewrite lookup_insert_eq.
    + rewrite lookup_insert_ne by done. congruence.
Qed.

Lemma live_not_dead (e : AECEnv) (a a' : agent) :
  live e a → agent_selection e = Some a' → is_dead e a' = Ok true → False.
Proof.
  intros (Hsel & Ht & Hu) Ha' Hdead. assert (a' = a) as -> by congruence.
  apply is_dead_Ok in Hdead as [[? _]|[_ ?]]; congruence.
Qed.

Lemma continuous_live_step_flag (s s' : Continuous.env) (a : agent) act col budget :
  live (Continuous.aec s) a → Continuous.step s act = Ok s' →
  oget (Continuous.collectors s') a = Some col →
  Continuous.max_collect s !! a = Some budget →
  terminations (Continuous.aec s') !! a =
    Some (budget <=? Continuous.Collector.total_points_collected col).
Proof.
  intros Hlive H Hcol Hb. pose proof Hlive as (Hsel & Ht & Hu).
  apply continuous_step_inv in H
    as (_ & a' & Ha' & [(Hdead & _)|(_ & sp & x & _ & -> & _ & H)]);
    [by destruct (live_not_dead _ _ _ Hlive Ha' Hdead)|].
  assert (a' = a) as -> by congruence.
  apply continuous_step_live_inv in H
    as (p & col0 & sel & nxt & cum & budget' & Hp & Hcol0 & Hnext & Hacc & Hb' & ->).
  simpl in *. rewrite oget_oset_eq in Hcol. injection Hcol as <-.
  assert (budget' = budget) as -> by congruence. simpl.
  destruct (budget <=? _); [by rewrite lookup_insert_eq|done].
Qed.

Lemma continuous_terminated_stays (s s' : Continuous.env) (a : agent) act :
  terminations (Continuous.aec s) !! a = Some true →
  Continuous.step s act = Ok s' →
  terminations (Continuous.aec s') !! a ≠ Some false.
Proof.
  intros Ha H.
  apply continuous_step_inv in H
    as (_ & a' & Ha' & [(Hdead & e & He & ->)|(_ & sp & x & _ & -> & _ & H)]).
  - apply was_dead_step_inv in He as (_ & b & _ & _ & _ & _ & _ & _ & _ & _ & _ & Ht & _).
    simpl. eapply terminated_stays; eauto.
  - apply continuous_step_live_inv in H
      as (p & col0 & sel & nxt & cum & budget' & Hp & Hcol0 & Hnext & Hacc & Hb' & ->).
    simpl. eapply terminated_stays; eauto.
Qed.

Lemma graph_live_step_flag (s s' : Graph.env) (a : agent) act col budget :
  live (Graph.aec s) a → Graph.step s act = Ok s' →
  oget (Graph.collectors s') a = Some col →
  Graph.max_collect s !! a = Some budget →
  terminations (Graph.aec s') !! a =
    Some (budget <=? Graph.Collector.total_points_collected col).
Proof.
  intros Hlive H Hcol Hb. pose proof Hlive as (Hsel & Ht & Hu).
  apply graph_step_inv in H
    as (_ & a' & Ha' & [(Hdead & _)|(_ & sp & _ & _ & H)]);
    [by destruct (live_not_dead _ _ _ Hlive Ha' Hdead)|].
  assert (a' = a) as -> by congruence.
  apply graph_step_live_inv in H
    as (col0 & nbrs & r & cols & pts & c & budget' & total & cum & sel & nxt &
        Hcol0 & Hn & Hmove & Hc & Hb' & Htotal & Hacc & Hnext & ->).
  simpl in *. assert (c = col) as -> by congruence.
  assert (budget' = budget) as -> by congruence.
  destruct (budget <=? _); [by rewrite lookup_insert_eq|done].
Qed.

Lemma graph_terminated_stays (s s' : Graph.env) (a : agent) act :
  terminations (Graph.aec s) !! a = Some true →
  Graph.step s act = Ok s' →
  terminations (Graph.aec s') !! a ≠ Some false.
Proof.
  intros Ha H.
  apply graph_step_inv in H
    as (_ & a' & Ha' & [(Hdead & H)|(_ & sp & _ & _ & H)]).
  - apply graph_step_dead_inv in H as (e & e' & He & Hguard & ->).
    apply was_dead_step_inv in He as (_ & b & _ & _ & _ & _ & _ & _ & _ & _ & _ & Ht & _).
    assert (terminations e' = terminations e) as Ht'
      by (by destruct Hguard as [[_ ->]|(_ & sel & nxt & _ & ->)]).
    simpl. rewrite Ht'. eapply terminated_stays; eauto.
  - apply graph_step_live_inv in H
      as (col0 & nbrs & r & cols & pts & c & budget' & total & cum & sel & nxt &
          Hcol0 & Hn & Hmove & Hc & Hb' & Htotal & Hacc & Hnext & ->).
    simpl. eapply terminated_stays; eauto.
Qed.

(** C3: in both variants, at every state of an episode an agent's
    terminated flag is set only if its total has reached its budget,
    and is set whenever the total has reached a positive budget; the
    step of a live agent sets its flag exactly when its total after the
    step has reached the budget; and a flag that is set is never false
    after a later step (it stays set until the agent is pruned). *)
Theorem C3_terminated_flag_follows_budget :
  (∀ c s, Continuous.reachable c s →
     budget_ok (terminations (Continuous.aec s)) (Continuous.max_collect s)
       (λ a, Continuous.Collector.total_points_collected <$>
               oget (Continuous.collectors s) a) ∧
     (∀ a act s' col budget,
        live (Continuous.aec s) a → Continuous.step s act = Ok s' →
        oget (Continuous.collectors s') a = Some col →
        Continuous.max_collect s !! a = Some budget →
        terminations (Continuous.aec s') !! a =
          Some (budget <=? Continuous.Collector.total_points_collected col)) ∧
     (∀ a act s',
        terminations (Continuous.aec s) !! a = Some true →
        Continuous.step s act = Ok s' →
        terminations (Continuous.aec s') !! a ≠ Some false)) ∧
  (∀ c s, Graph.reachable c s →
     budget_ok (terminations (Graph.aec s)) (Graph.max_collect s)
       (λ a, Graph.Collector.total_points_collected <$> oget (Graph.collectors s) a) ∧
     (∀ a act s' col budget,
        live (Graph.aec s) a → Graph.step s act = Ok s' →
        oget (Graph.collectors s') a = Some col →
        Graph.max_collect s !! a = Some budget →
        terminations (Graph.aec s') !! a =
          Some (budget <=? Graph.Collector.total_points_collected col)) ∧
     (∀ a act s',
        terminations (Graph.aec s) !! a = Some true →
        Graph.step s act = Ok s' →
        terminations (Graph.aec s') !! a ≠ Some false)).
Proof.
  split.
  - intros c s Hreach. split; [apply cwf_terminated; by eapply continuous_reachable_wf|].
    split.
    + intros. by eapply continuous_live_step_flag.
    + intros. by eapply continuous_terminated_stays.
  - intros c s Hreach. split; [apply ginv_terminated; by eapply graph_reachable_inv|].
    split.
    + intros. by eapply graph_live_step_flag.
    + intros. by eapply graph_terminated_stays.
Qed.

Lemma graph_solo_mid_reachable : Graph.reachable graph_solo graph_solo_mid.
Proof. apply (graph_run_reachable graph_solo [Some 1]). vm_compute. reflexivity. Qed.

Lemma C3_witness :
  ∃ s', Graph.step graph_solo_mid (Some 2) = Ok s' ∧
        live (Graph.aec graph_solo_mid) "agent_0" ∧
        terminations (Graph.aec s') !! "agent_0" = Some true.
Proof.
  eexists. split; [vm_compute; reflexivity|].
  assert (live (Graph.aec graph_solo_mid) "agent_0") as Hlive
    by (repeat split; reflexivity).
  split; [exact Hlive|].
  lazymatch goal with
  | |- terminations (Graph.aec ?s') !! _ = _ =>
      etrans;
        [eapply (proj1 (proj2 (proj2 C3_terminated_flag_follows_budget
                   graph_solo graph_solo_mid graph_solo_mid_reachable))
                   "agent_0" (Some 2) s' _ _ Hlive)|]
  end.
  - vm_compute. reflexivity.
  - vm_compute. reflexivity.
  - vm_compute. reflexivity.
  - reflexivity.
Defined.

(** * The episode flags *)

Lemma graph_solo_end_reachable : Graph.reachable graph_solo graph_solo_end.
Proof.
  apply (graph_run_reachable graph_solo [Some 1; Some 2; None]).
  vm_compute. reflexivity.
Qed.

Lemma plane_solo_end_reachable : Continuous.reachable plane_solo plane_solo_end.
Proof.
  apply (continuous_run_reachable plane_solo [Some 0; None]).
  vm_compute. reflexivity.
Qed.

(** Against C7 as stated: once the last agent is pruned, [truncate] is
    still false although no agent is left whose truncated flag is
    false, in both variants. *)
Lemma C7_counterexample :
  (Graph.reachable graph_solo graph_solo_end ∧
   Graph.truncate graph_solo_end = false ∧
   truncations (Graph.aec graph_solo_end) = ∅ ∧
   all_values (truncations (Graph.aec graph_solo_end)) = true) ∧
  (Continuous.reachable plane_solo plane_solo_end ∧
   Continuous.truncate plane_solo_end = false ∧
   truncations (Continuous.aec plane_solo_end) = ∅ ∧
   all_values (truncations (Continuous.aec plane_solo_end)) = true).
Proof.
  split.
  - split; [exact graph_solo_end_reachable|]. by vm_compute.
  - split; [exact plane_solo_end_reachable|]. by vm_compute.
Qed.

(** C7, amended: at every state of an episode, in both variants,
    [terminate] is true iff every agent's terminated flag is true; and
    as long as an agent is left, [truncate] is true iff every agent's
    truncated flag is true. *)
Theorem C7_episode_flags_while_agents_remain :
  (∀ c s, Continuous.reachable c s →
     (Continuous.terminate s = true ↔
      ∀ a b, terminations (Continuous.aec s) !! a = Some b → b = true) ∧
     (agents (Continuous.aec s) ≠ [] →
      (Continuous.truncate s = true ↔
       ∀ a b, truncations (Continuous.aec s) !! a = Some b → b = true))) ∧
  (∀ c s, Graph.reachable c s →
     (Graph.terminate s = true ↔
      ∀ a b, terminations (Graph.aec s) !! a = Some b → b = true) ∧
     (agents (Graph.aec s) ≠ [] →
      (Graph.truncate s = true ↔
       ∀ a b, truncations (Graph.aec s) !! a = Some b → b = true))).
Proof.
  split.
  - intros c s Hwf%continuous_reachable_wf. split.
    + rewrite (cwf_terminate s Hwf). apply all_values_true.
    + intros Hne. rewrite (cwf_truncate s Hwf Hne). apply all_values_true.
  - intros c s Hinv%graph_reachable_inv. split.
    + rewrite (ginv_terminate s Hinv). apply all_values_true.
    + intros Hne. rewrite (ginv_truncate s Hinv Hne). apply all_values_true.
Qed.

Lemma C7_witness :
  Graph.terminate graph_solo_end = true ↔
  ∀ a b, terminations (Graph.aec graph_solo_end) !! a = Some b → b = true.
Proof.
  exact (proj1 (proj2 C7_episode_flags_while_agents_remain
                  graph_solo graph_solo_end graph_solo_end_reachable)).
Defined.

(** * The step of a dead agent *)

(** What the framework's helper leaves alone, and what it clears. *)
Lemma was_dead_step_frame (e e' : AECEnv) (act : action) (a : agent) :
  aec_wf e → agent_selection e = Some a → _was_dead_step e act = Ok e' →
  act = None ∧
  (∀ b, b ≠ a → _cumulative_rewards e' !! b = _cumulative_rewards e !! b) ∧
  (∀ b r, rewards e' !! b = Some r → r = 0%R) ∧
  (∀ b, b ∈ agents e' ↔ b ∈ agents e ∧ b ≠ a).
Proof.
  intros Hwf Hsel H.
  apply was_dead_step_inv in H as (-> & a' & Ha' & _ & Hrm & _ & _ & Hrw & _ &
    Hcum & _).
  assert (a' = a) as -> by congruence.
  split; [done|]. split; [|split].
  - intros b Hne. rewrite Hcum. by apply lookup_delete_ne.
  - intros b r. rewrite Hrw. unfold _clear_rewards. rewrite lookup_fmap.
    intros (? & _ & ->)%fmap_Some. done.
  - apply list_remove_first_inv in Hrm as (_ & Hsub & Hsup & Hnd).
    destruct (Hnd (wf_nodup e Hwf)) as [_ Hnotin]. intros b. split.
    + intros Hb. split; [auto|]. by intros ->.
    + intros [? ?]. auto.
Qed.

Lemma continuous_step_dead (s : Continuous.env) (a : agent) :
  continuous_wf s → agent_selection (Continuous.aec s) = Some a →
  is_dead (Continuous.aec s) a = Ok true →
  (∀ act s', Continuous.step s act = Ok s' → act = None) ∧
  ∃ s', Continuous.step s None = Ok s' ∧
    Continuous.points s' = Continuous.points s ∧
    Continuous.collectors s' = Continuous.collectors s ∧
    (∀ b, b ≠ a → _cumulative_rewards (Continuous.aec s') !! b =
                   _cumulative_rewards (Continuous.aec s) !! b) ∧
    (∀ b r, rewards (Continuous.aec s') !! b = Some r → r = 0%R) ∧
    (∀ b, b ∈ agents (Continuous.aec s') ↔ b ∈ agents (Continuous.aec s) ∧ b ≠ a).
Proof.
  intros Hwf Hsel Hdead.
  assert (∀ act, Continuous.step s act =
    e ← _was_dead_step (Continuous.aec s) act;
    Ok (Continuous.update s e (Continuous.points s) (Continuous.collectors s)
          (Continuous.terminate s) (Continuous.truncate s))) as Hstep.
  { intros act. unfold Continuous.step.
    rewrite (cwf_reset s Hwf), Hsel. simpl. by rewrite Hdead. }
  split.
  - intros act s' H. rewrite Hstep in H. bind_as H e He.
    by apply (was_dead_step_frame _ _ _ a (cwf_aec s Hwf) Hsel) in He as [-> _].
  - destruct (was_dead_step_None _ a (cwf_aec s Hwf) Hsel Hdead) as [e He].
    eexists. rewrite Hstep, He. simpl. split; [done|]. simpl.
    apply (was_dead_step_frame _ _ _ a (cwf_aec s Hwf) Hsel) in He
      as (_ & Hcum & Hrw & Hags). auto.
Qed.

Lemma graph_step_dead (s : Graph.env) (a : agent) :
  Graph.has_reset s = true → aec_wf (Graph.aec s) →
  agent_selection (Graph.aec s) = Some a →
  is_dead (Graph.aec s) a = Ok true →
  (∀ act s', Graph.step s act = Ok s' → act = None) ∧
  ∃ s', Graph.step s None = Ok s' ∧
    Graph.points s' = Graph.points s ∧
    Graph.collectors s' = Graph.collectors s ∧
    Graph.cumulative_rewards s' = Graph.cumulative_rewards s ∧
    Graph.iteration s' = Graph.iteration s ∧
    (∀ b, b ≠ a → _cumulative_rewards (Graph.aec s') !! b =
                   _cumulative_rewards (Graph.aec s) !! b) ∧
    (∀ b r, rewards (Graph.aec s') !! b = Some r → r = 0%R) ∧
    (∀ b, b ∈ agents (Graph.aec s') ↔ b ∈ agents (Graph.aec s) ∧ b ≠ a).
Proof.
  intros Hreset Hwf Hsel Hdead.
  assert (∀ act, Graph.step s act = Graph.step_dead s act) as Hstep.
  { intros act. unfold Graph.step. rewrite Hreset, Hsel. simpl. by rewrite Hdead. }
  split.
  - intros act s' H. rewrite Hstep in H.
    apply graph_step_dead_inv in H as (e & e' & He & _).
    by apply (was_dead_step_frame _ _ _ a Hwf Hsel) in He as [-> _].
  - destruct (was_dead_step_None _ a Hwf Hsel Hdead) as [e He].
    assert (∃ e', (if Graph.selection_lost e
                   then '(sel, nxt) ← next (agents e) (_agent_selector e);
                        Ok (select e sel nxt)
                   else Ok e) = Ok e' ∧
                  agents e' = agents e ∧ rewards e' = rewards e ∧
                  _cumulative_rewards e' = _cumulative_rewards e)
      as (e' & He' & Hags' & Hrw' & Hcum').
    { destruct (Graph.selection_lost e) eqn:Hlost; [|eauto].
      destruct (next_ok (agents e) (_agent_selector e)) as (sel & nxt & -> & _).
      - unfold Graph.selection_lost in Hlost.
        destruct (agent_selection e);
          [apply andb_true_iff in Hlost as [_ Hlost]|];
          by apply bool_decide_eq_true in Hlost.
      - simpl. eauto. }
    eexists. rewrite Hstep. unfold Graph.step_dead. rewrite He. simpl.
    rewrite He'. simpl. split; [done|]. simpl. do 4 (split; [done|]).
    rewrite Hags', Hrw', Hcum'.
    apply (was_dead_step_frame _ _ _ a Hwf Hsel) in He as (_ & Hcum & Hrw & Hags).
    auto.
Qed.

Lemma graph_reachable_reset (c : Graph.config) (s : Graph.env) :
  Graph.reachable c s → Graph.has_reset s = true.
Proof.
  induction 1 as [s0 seed s obs Hinit H|s seed s' obs _ IH H|s act s' _ IH H].
  - unfold Graph.reset in H. bind_as H rng' Hrng. bind_as H [sel first] Hsel. bind_as H o Ho.
    by simplify_eq.
  - unfold Graph.reset in H. bind_as H rng' Hrng. bind_as H [sel first] Hsel. bind_as H o Ho.
    by simplify_eq.
  - apply graph_step_inv in H as (_ & a & _ & [(_ & H)|(_ & sp & _ & _ & H)]).
    + apply graph_step_dead_inv in H as (e & e' & _ & _ & ->). done.
    + apply graph_step_live_inv in H
        as (? & ? & ? & ? & ? & ? & ? & ? & ? & ? & ? & _ & _ & _ & _ & _ & _ & _ & _ & ->).
      done.
Qed.

Lemma graph_pair_dead_reachable : Graph.reachable graph_pair graph_pair_dead.
Proof.
  apply (graph_run_reachable graph_pair [Some 1; Some 2; Some 2; Some 1]).
  vm_compute. reflexivity.
Qed.

(** Against C5 as stated: the step of the dead [agent_0] changes the
    reward of the surviving [agent_1], which was -3 for its last move
    and is 0 afterwards. *)
Lemma C5_counterexample :
  Graph.reachable graph_pair graph_pair_dead ∧
  agent_selection (Graph.aec graph_pair_dead) = Some "agent_0" ∧
  is_dead (Graph.aec graph_pair_dead) "agent_0" = Ok true ∧
  Graph.step graph_pair_dead None = Ok graph_pair_pruned ∧
  "agent_1" ∈ agents (Graph.aec graph_pair_pruned) ∧
  rewards (Graph.aec graph_pair_dead) !! "agent_1" = Some (- 3)%R ∧
  rewards (Graph.aec graph_pair_pruned) !! "agent_1" = Some 0%R ∧
  rewards (Graph.aec graph_pair_pruned) !! "agent_1" ≠
    rewards (Graph.aec graph_pair_dead) !! "agent_1".
Proof.
  split; [exact graph_pair_dead_reachable|].
  split; [reflexivity|]. split; [reflexivity|].
  split; [vm_compute; reflexivity|].
  split; [vm_compute; set_solver|].
  assert (rewards (Graph.aec graph_pair_dead) !! "agent_1" = Some (- 3)%R) as H3
    by (vm_compute; f_equal; lra).
  assert (rewards (Graph.aec graph_pair_pruned) !! "agent_1" = Some 0%R) as H0
    by (vm_compute; reflexivity).
  split; [exact H3|]. split; [exact H0|].
  rewrite H3, H0. intros [= H]. lra.
Qed.

(** C5, amended: in both variants a [step] called while the selected
    agent is dead returns only for the action [None], and then, at
    every state of an episode, it returns having pruned that agent and
    nothing else: the points, the collectors (and in the graph variant
    the iteration counter and the accumulated rewards) are as they
    were, and so is every other agent's [_cumulative_rewards] entry;
    the entries of [rewards] that remain are all 0. *)
Theorem C5_dead_step_prunes_and_clears_rewards :
  (∀ c s a, Continuous.reachable c s →
     agent_selection (Continuous.aec s) = Some a →
     is_dead (Continuous.aec s) a = Ok true →
     (∀ act s', Continuous.step s act = Ok s' → act = None) ∧
     ∃ s', Continuous.step s None = Ok s' ∧
       Continuous.points s' = Continuous.points s ∧
       Continuous.collectors s' = Continuous.collectors s ∧
       (∀ b, b ≠ a → _cumulative_rewards (Continuous.aec s') !! b =
                      _cumulative_rewards (Continuous.aec s) !! b) ∧
       (∀ b r, rewards (Continuous.aec s') !! b = Some r → r = 0%R) ∧
       (∀ b, b ∈ agents (Continuous.aec s') ↔
             b ∈ agents (Continuous.aec s) ∧ b ≠ a)) ∧
  (∀ c s a, Graph.reachable c s →
     agent_selection (Graph.aec s) = Some a →
     is_dead (Graph.aec s) a = Ok true →
     (∀ act s', Graph.step s act = Ok s' → act = None) ∧
     ∃ s', Graph.step s None = Ok s' ∧
       Graph.points s' = Graph.points s ∧
       Graph.collectors s' = Graph.collectors s ∧
       Graph.cumulative_rewards s' = Graph.cumulative_rewards s ∧
       Graph.iteration s' = Graph.iteration s ∧
       (∀ b, b ≠ a → _cumulative_rewards (Graph.aec s') !! b =
                      _cumulative_rewards (Graph.aec s) !! b) ∧
       (∀ b r, rewards (Graph.aec s') !! b = Some r → r = 0%R) ∧
       (∀ b, b ∈ agents (Graph.aec s') ↔ b ∈ agents (Graph.aec s) ∧ b ≠ a)).
Proof.
  split.
  - intros c s a Hreach. apply continuous_step_dead.
    by eapply continuous_reachable_wf.
  - intros c s a Hreach. apply graph_step_dead.
    + by eapply graph_reachable_reset.
    + apply ginv_aec. by eapply graph_reachable_inv.
Qed.

Lemma C5_witness :
  ∃ s', Graph.step graph_pair_dead None = Ok s' ∧
        Graph.points s' = Graph.points graph_pair_dead ∧
        Graph.collectors s' = Graph.collectors graph_pair_dead.
Proof.
  destruct (proj2 C5_dead_step_prunes_and_clears_rewards
              graph_pair graph_pair_dead "agent_0"
              graph_pair_dead_reachable eq_refl eq_refl)
    as (_ & s' & Hstep & Hpts & Hcols & _).
  exists s'. auto.
Defined.

(** * The selected agent *)

(** In the graph variant the selected agent is an active one after
    [reset] and after every [step] that leaves an agent: the guard of
    the dead branch calls [next()] when the helper has left the pruned
    agent selected. *)
Lemma graph_selection_in_agents :
  (∀ s seed s' obs, Graph.reset s seed = Ok (s', obs) →
     ∃ a, agent_selection (Graph.aec s') = Some a ∧ a ∈ agents (Graph.aec s')) ∧
  (∀ s act s', Graph.step s act = Ok s' → agents (Graph.aec s') ≠ [] →
     ∃ a, agent_selection (Graph.aec s') = Some a ∧ a ∈ agents (Graph.aec s')).
Proof.
  split.
  - intros s seed s' obs H. unfold Graph.reset in H.
    bind_as H rng' Hrng. bind_as H [sel first] Hsel. bind_as H o Ho. simplify_eq. simpl.
    exists first. split; [done|]. by eapply next_elem.
  - intros s act s' H Hne.
    apply graph_step_inv in H as (_ & a & _ & [(_ & H)|(_ & sp & _ & _ & H)]).
    + apply graph_step_dead_inv in H as (e & e' & He & Hguard & ->). simpl in *.
      apply was_dead_step_inv in He as (_ & ? & _ & _ & _ & _ & _ & _ & _ & _ & _ &
        _ & _ & _ & _ & _ & b & Hb & _).
      destruct (selection_guard e e' (ex_intro _ b Hb) Hguard) as [_ Hsel].
      assert (is_Some (agent_selection e')) as [b' Hb'].
      { destruct Hguard as [[_ ->]|(_ & sel & nxt & _ & ->)]; simpl; eauto. }
      exists b'. split; [done|]. by apply Hsel.
    + apply graph_step_live_inv in H
        as (? & ? & ? & ? & ? & ? & ? & ? & ? & sel & nxt & _ & _ & _ & _ & _ & _ & _ &
            Hnext & ->).
      simpl. exists nxt. split; [done|]. by eapply next_elem.
Qed.

Lemma plane_pair_dead_reachable : Continuous.reachable plane_pair plane_pair_dead.
Proof.
  apply (continuous_run_reachable plane_pair [Some 0; Some 0]).
  vm_compute. reflexivity.
Qed.

(** C4 on the continuous variant, which has no such guard: with two
    agents of budgets 1 and 2, [agent_0] collects and is terminated,
    [agent_1] collects, and the step of the dead [agent_0] prunes it
    and leaves it selected.  [agent_1] is still active, the selected
    agent is not, and the next call of [step] ends in a [KeyError]. *)
Theorem C4_continuous_selection_not_in_agents :
  Continuous.reachable plane_pair plane_pair_dead ∧
  Continuous.step plane_pair_dead None = Ok plane_pair_pruned ∧
  agents (Continuous.aec plane_pair_pruned) = ["agent_1"] ∧
  agent_selection (Continuous.aec plane_pair_pruned) = Some "agent_0" ∧
  ("agent_0" ∉ agents (Continuous.aec plane_pair_pruned)) ∧
  (∀ act, Continuous.step plane_pair_pruned act = Raise KeyError).
Proof.
  split; [exact plane_pair_dead_reachable|].
  split; [vm_compute; reflexivity|].
  split; [reflexivity|]. split; [reflexivity|].
  split; [by intros [[=]|?%elem_of_nil]%elem_of_cons|].
  intros act. reflexivity.
Qed.

(** * The spec's scenarios, replayed *)

(** One agent at node 0 with budget 1: the move to node 1 costs 2 and
    does not terminate the agent. *)
Example scenario_first_move :
  rewards (Graph.aec graph_solo_mid) !! "agent_0" = Some (- 2)%R ∧
  (Graph.Collector.label <$> oget (Graph.collectors graph_solo_mid) "agent_0") = Some 1 ∧
  terminations (Graph.aec graph_solo_mid) !! "agent_0" = Some false.
Proof.
  split; [vm_compute; f_equal; lra|]. split; reflexivity.
Qed.

(** The move on to node 2 costs 3, collects the point and terminates
    the agent, with one unique point and no cheating. *)
Example scenario_second_move :
  ∃ s col, Graph.run graph_solo [Some 1; Some 2] = Ok s ∧
    rewards (Graph.aec s) !! "agent_0" = Some (- 3)%R ∧
    terminations (Graph.aec s) !! "agent_0" = Some true ∧
    oget (Graph.collectors s) "agent_0" = Some col ∧
    Graph.Collector.label col = 2 ∧
    Graph.Collector.total_points_collected col = 1 ∧
    Graph.Collector.unique_points_collected col = 1 ∧
    Graph.Collector.cheated col = 0.
Proof.
  eexists _, _. split; [vm_compute; reflexivity|].
  split; [vm_compute; f_equal; lra|]. split; [reflexivity|].
  split; [vm_compute; reflexivity|]. repeat split.
Qed.

(** With a second agent of budget 2 standing on the collected point,
    taking the loop of weight 1 costs 1 + 500 * 0.5 = 251 and counts as
    cheating. *)
Example scenario_cheating :
  ∃ s col, Graph.run graph_pair [Some 1; Some 2; Some 2; Some 2] = Ok s ∧
    rewards (Graph.aec s) !! "agent_1" = Some (- 251)%R ∧
    oget (Graph.collectors s) "agent_1" = Some col ∧
    Graph.Collector.total_points_collected col = 2 ∧
    Graph.Collector.unique_points_collected col = 1 ∧
    Graph.Collector.cheated col = 1.
Proof.
  eexists _, _. split; [vm_compute; reflexivity|].
  split; [vm_compute; f_equal; lra|].
  split; [vm_compute; reflexivity|]. repeat split.
Qed.

(** * Further properties of the two environments *)

(** ** What a step never writes *)

Lemma graph_step_same_config (s s' : Graph.env) (act : action) :
  Graph.step s act = Ok s' → graph_same_config s s'.
Proof.
  intros H.
  apply graph_step_inv in H as (_ & a & _ & [(_ & H)|(_ & sp & _ & _ & H)]).
  - apply graph_step_dead_inv in H as (e & e' & He & Hguard & ->).
    apply was_dead_step_inv in He as (_ & ? & _ & _ & _ & Hposs & _).
    unfold graph_same_config. simpl. repeat (split; [done|]).
    by destruct Hguard as [[_ ->]|(_ & sel & nxt & _ & ->)].
  - apply graph_step_live_inv in H
      as (? & ? & ? & ? & ? & ? & ? & ? & ? & ? & ? & _ & _ & _ & _ & _ & _ & _ & _ & ->).
    unfold graph_same_config. simpl. repeat (split; [done|]). done.
Qed.

Lemma graph_reset_same_config (s s' : Graph.env) seed obs :
  Graph.reset s seed = Ok (s', obs) → graph_same_config s s'.
Proof.
  unfold Graph.reset. intros H. bind_as H rng' Hrng. bind_as H [sel first] Hsel. bind_as H o Ho.
  simplify_eq. unfold graph_same_config. simpl. repeat (split; [done|]). done.
Qed.

Lemma continuous_step_same_config (s s' : Continuous.env) (act : action) :
  Continuous.step s act = Ok s' → continuous_same_config s s'.
Proof.
  intros H.
  apply continuous_step_inv in H
    as (_ & a & _ & [(_ & e & He & ->)|(_ & sp & x & _ & -> & _ & H)]).
  - apply was_dead_step_inv in He as (_ & ? & _ & _ & _ & Hposs & _).
    unfold continuous_same_config. simpl. repeat (split; [done|]). done.
  - apply continuous_step_live_inv in H
      as (? & ? & ? & ? & ? & ? & _ & _ & _ & _ & _ & ->).
    unfold continuous_same_config. simpl. repeat (split; [done|]). done.
Qed.

Lemma continuous_reset_same_config (s s' : Continuous.env) seed obs :
  Continuous.reset s seed = Ok (s', obs) → continuous_same_config s s'.
Proof.
  unfold Continuous.reset. intros H. bind_as H rng' Hrng. bind_as H [sel first] Hsel.
  simplify_eq. unfold continuous_same_config. simpl. repeat (split; [done|]). done.
Qed.

Lemma graph_same_config_trans (s1 s2 s3 : Graph.env) :
  graph_same_config s1 s2 → graph_same_config s2 s3 → graph_same_config s1 s3.
Proof.
  unfold graph_same_config.
  intros (?&?&?&?&?&?&?&?&?&?&?) (?&?&?&?&?&?&?&?&?&?&?).
  repeat split; congruence.
Qed.

Lemma continuous_same_config_trans (s1 s2 s3 : Continuous.env) :
  continuous_same_config s1 s2 → continuous_same_config s2 s3 →
  continuous_same_config s1 s3.
Proof.
  unfold continuous_same_config.
  intros (?&?&?&?&?&?&?) (?&?&?&?&?&?&?). repeat split; congruence.
Qed.

(** Along an episode the configuration is the constructor's: neither
    [reset] nor [step] writes the graph, the point and agent placements,
    the costs, the budgets, the action spaces or [possible_agents]; and
    a step never adds an agent to [agents]. *)
Theorem configuration_is_never_written :
  (∀ c s, Graph.reachable c s →
     (∃ s0, Graph.init c = Ok s0 ∧ graph_same_config s0 s) ∧
     (∀ act s', Graph.step s act = Ok s' →
        graph_same_config s s' ∧
        ∀ a, a ∈ agents (Graph.aec s') → a ∈ agents (Graph.aec s))) ∧
  (∀ c s, Continuous.reachable c s →
     (∃ s0, Continuous.init c = Ok s0 ∧ continuous_same_config s0 s) ∧
     (∀ act s', Continuous.step s act = Ok s' →
        continuous_same_config s s' ∧
        ∀ a, a ∈ agents (Continuous.aec s') → a ∈ agents (Continuous.aec s))).
Proof.
  split.
  - intros c s Hreach. split.
    + induction Hreach as [s0 seed s obs Hinit H|s seed s' obs _ IH H|s act s' _ IH H].
      * exists s0. split; [done|]. by eapply graph_reset_same_config.
      * destruct IH as (s0 & Hinit & Hsame). exists s0. split; [done|].
        eapply graph_same_config_trans; [done|]. by eapply graph_reset_same_config.
      * destruct IH as (s0 & Hinit & Hsame). exists s0. split; [done|].
        eapply graph_same_config_trans; [done|]. by eapply graph_step_same_config.
    + intros act s' H. split; [by eapply graph_step_same_config|].
      apply graph_step_inv in H as (_ & a & _ & [(_ & H)|(_ & sp & _ & _ & H)]).
      * apply graph_step_dead_inv in H as (e & e' & He & Hguard & ->).
        apply was_dead_step_inv in He as (_ & ? & _ & _ & Hrm & _).
        apply list_remove_first_inv in Hrm as (_ & Hsub & _). simpl.
        intros b Hb. apply Hsub.
        by destruct Hguard as [[_ ->]|(_ & sel & nxt & _ & ->)].
      * apply graph_step_live_inv in H
          as (? & ? & ? & ? & ? & ? & ? & ? & ? & ? & ? & _ & _ & _ & _ & _ & _ & _ & _ & ->).
        done.
  - intros c s Hreach. split.
    + induction Hreach as [s0 seed s obs Hinit H|s seed s' obs _ IH H|s act s' _ IH H].
      * exists s0. split; [done|]. by eapply continuous_reset_same_config.
      * destruct IH as (s0 & Hinit & Hsame). exists s0. split; [done|].
        eapply continuous_same_config_trans; [done|].
        by eapply continuous_reset_same_config.
      * destruct IH as (s0 & Hinit & Hsame). exists s0. split; [done|].
        eapply continuous_same_config_trans; [done|].
        by eapply continuous_step_same_config.
    + intros act s' H. split; [by eapply continuous_step_same_config|].
      apply continuous_step_inv in H
        as (_ & a & _ & [(_ & e & He & ->)|(_ & sp & x & _ & -> & _ & H)]).
      * apply was_dead_step_inv in He as (_ & ? & _ & _ & Hrm & _).
        apply list_remove_first_inv in Hrm as (_ & Hsub & _). done.
      * apply continuous_step_live_inv in H
          as (? & ? & ? & ? & ? & ? & _ & _ & _ & _ & _ & ->).
        done.
Qed.

(** ** Turn order *)

Lemma py_index_turn {A} (l : list A) (i : Z) (x : A) :
  - Z.of_nat (length l) <= i < Z.of_nat (length l) →
  py_index l i = Ok x → l !! Z.to_nat (i `mod` Z.of_nat (length l)) = Some x.
Proof.
  intros Hi. unfold py_index.
  destruct (Z.leb_spec 0 i), (Z.ltb_spec i (Z.of_nat (length l))); simpl; try lia.
  - rewrite Z.mod_small by lia. case_match; congruence.
  - destruct (Z.leb_spec (- Z.of_nat (length l)) i), (Z.ltb_spec i 0); simpl; try lia.
    replace (i `mod` Z.of_nat (length l)) with (Z.of_nat (length l) + i).
    + case_match; congruence.
    + apply (Z.mod_unique _ _ (-1)); lia.
Qed.

(** [next()] moves the cursor one place round the list and returns the
    agent before the new cursor. *)
Lemma next_in_step (order : list agent) sel sel' a :
  next order sel = Ok (sel', a) →
  let n := Z.of_nat (length order) in
  _current_agent sel' = (_current_agent sel + 1) `mod` n ∧
  0 <= _current_agent sel' < n ∧
  turn order (_current_agent sel' - 1) = Some a.
Proof.
  unfold next. destruct (Z.eqb_spec (Z.of_nat (length order)) 0) as [|Hn]; [done|].
  intros H. bind_as H b Hb. simplify_eq. simpl.
  assert (0 < Z.of_nat (length order)) as Hlen by lia.
  pose proof (Z.mod_pos_bound (_current_agent sel + 1) _ Hlen) as Hm.
  split; [done|]. split; [done|]. unfold turn.
  apply py_index_turn; [lia|done].
Qed.

Lemma turn_succ (ags : list agent) (cur : Z) (i : nat) (a : agent) :
  NoDup ags → ags !! i = Some a → turn ags (cur - 1) = Some a →
  turn ags ((cur + 1) `mod` Z.of_nat (length ags) - 1) = turn ags (Z.of_nat i + 1).
Proof.
  intros Hnd Hi Hturn. unfold turn in *.
  pose proof (lookup_lt_Some _ _ _ Hi) as Hlt.
  assert (0 < Z.of_nat (length ags)) as Hlen by lia.
  pose proof (Z.mod_pos_bound (cur - 1) _ Hlen) as Hm.
  assert (Z.to_nat ((cur - 1) `mod` Z.of_nat (length ags)) = i) as Hi'
    by (eapply NoDup_lookup; eauto).
  f_equal. f_equal.
  assert (Z.of_nat i = (cur - 1) `mod` Z.of_nat (length ags)) as -> by lia.
  rewrite Zminus_mod_idemp_l, Zplus_mod_idemp_l. f_equal. lia.
Qed.

(** After [reset] the scheduler is in step with the agent list and the
    first agent is selected. *)
Lemma selector_reset_in_step (order : list agent) sel a :
  selector_reset order = Ok (sel, a) →
  0 <= _current_agent sel < Z.of_nat (length order) ∧
  turn order (_current_agent sel - 1) = Some a ∧ turn order 0 = Some a.
Proof.
  intros H. pose proof (next_in_step _ _ _ _ H) as (Hcur & Hrange & Hturn).
  split; [done|]. split; [done|]. rewrite <- Hturn. unfold turn.
  rewrite Hcur. simpl. rewrite Zminus_mod_idemp_l. done.
Qed.

Lemma graph_live_step_next (s s' : Graph.env) (a : agent) act :
  live (Graph.aec s) a → Graph.step s act = Ok s' →
  ∃ sel nxt,
    next (agents (Graph.aec s)) (_agent_selector (Graph.aec s)) = Ok (sel, nxt) ∧
    agents (Graph.aec s') = agents (Graph.aec s) ∧
    _agent_selector (Graph.aec s') = sel ∧
    agent_selection (Graph.aec s') = Some nxt.
Proof.
  intros Hlive H.
  apply graph_step_inv in H as (_ & a' & Ha' & [(Hdead & _)|(_ & sp & _ & _ & H)]);
    [by destruct (live_not_dead _ _ _ Hlive Ha' Hdead)|].
  apply graph_step_live_inv in H
    as (? & ? & ? & ? & ? & ? & ? & ? & ? & sel & nxt & _ & _ & _ & _ & _ & _ & _ &
        Hnext & ->).
  exists sel, nxt. done.
Qed.

Lemma continuous_live_step_next (s s' : Continuous.env) (a : agent) act :
  live (Continuous.aec s) a → Continuous.step s act = Ok s' →
  ∃ sel nxt,
    next (agents (Continuous.aec s)) (_agent_selector (Continuous.aec s)) = Ok (sel, nxt) ∧
    agents (Continuous.aec s') = agents (Continuous.aec s) ∧
    _agent_selector (Continuous.aec s') = sel ∧
    agent_selection (Continuous.aec s') = Some nxt.
Proof.
  intros Hlive H.
  apply continuous_step_inv in H
    as (_ & a' & Ha' & [(Hdead & _)|(_ & sp & x & _ & -> & _ & H)]);
    [by destruct (live_not_dead _ _ _ Hlive Ha' Hdead)|].
  apply continuous_step_live_inv in H
    as (? & ? & sel & nxt & ? & ? & _ & _ & Hnext & _ & _ & ->).
  exists sel, nxt. done.
Qed.

(** What one [next()] does to a scheduler that is in step. *)
Lemma next_round_robin (e : AECEnv) (a : agent) (i : nat) sel nxt :
  NoDup (agents e) → in_step e → agent_selection e = Some a →
  agents e !! i = Some a →
  next (agents e) (_agent_selector e) = Ok (sel, nxt) →
  Some nxt = turn (agents e) (Z.of_nat i + 1).
Proof.
  intros Hnd [_ Hturn] Hsel Hi Hnext.
  apply next_in_step in Hnext as (Hcur & _ & <-). rewrite Hcur.
  rewrite Hsel in Hturn. by apply (turn_succ _ _ i a).
Qed.

Lemma next_gives_in_step (e : AECEnv) sel nxt (e' : AECEnv) :
  next (agents e) (_agent_selector e) = Ok (sel, nxt) →
  agents e' = agents e → _agent_selector e' = sel →
  agent_selection e' = Some nxt → in_step e'.
Proof.
  intros Hnext Hags Hsel Hnxt. unfold in_step. rewrite Hags, Hsel, Hnxt.
  by apply next_in_step in Hnext as (_ & ? & ->).
Qed.

(** Turns are round-robin.  In both variants [reset] selects the first
    agent, and a live step of the agent at place [i] of [agents]
    selects the agent at place [i + 1], wrapping round at the end of
    the list, provided the scheduler is in step, which it is after
    [reset] and after every live step. *)
Theorem turns_are_round_robin :
  (∀ s seed s' obs, Graph.reset s seed = Ok (s', obs) →
     in_step (Graph.aec s') ∧
     agent_selection (Graph.aec s') = turn (agents (Graph.aec s')) 0) ∧
  (∀ s a act s', live (Graph.aec s) a → Graph.step s act = Ok s' →
     in_step (Graph.aec s') ∧ agents (Graph.aec s') = agents (Graph.aec s)) ∧
  (∀ c s a i act s', Graph.reachable c s → in_step (Graph.aec s) →
     live (Graph.aec s) a → agents (Graph.aec s) !! i = Some a →
     Graph.step s act = Ok s' →
     agent_selection (Graph.aec s') = turn (agents (Graph.aec s)) (Z.of_nat i + 1)) ∧
  (∀ s seed s' obs, Continuous.reset s seed = Ok (s', obs) →
     in_step (Continuous.aec s') ∧
     agent_selection (Continuous.aec s') = turn (agents (Continuous.aec s')) 0) ∧
  (∀ s a act s', live (Continuous.aec s) a → Continuous.step s act = Ok s' →
     in_step (Continuous.aec s') ∧
     agents (Continuous.aec s') = agents (Continuous.aec s)) ∧
  (∀ c s a i act s', Continuous.reachable c s → in_step (Continuous.aec s) →
     live (Continuous.aec s) a → agents (Continuous.aec s) !! i = Some a →
     Continuous.step s act = Ok s' →
     agent_selection (Continuous.aec s') =
       turn (agents (Continuous.aec s)) (Z.of_nat i + 1)).
Proof.
  split; [|split; [|split; [|split; [|split]]]].
  - intros s seed s' obs H. unfold Graph.reset in H.
    bind_as H rng' Hrng. bind_as H [sel first] Hsel. bind_as H o Ho. simplify_eq.
    apply selector_reset_in_step in Hsel as (Hrange & Hturn & H0).
    unfold in_step. simpl. by rewrite Hturn, H0.
  - intros s a act s' Hlive H.
    destruct (graph_live_step_next _ _ _ _ Hlive H) as (sel & nxt & Hnext & Hags & Hsel & Hnxt).
    split; [by eapply next_gives_in_step|done].
  - intros c s a i act s' Hreach Hin Hlive Hi H.
    destruct (graph_live_step_next _ _ _ _ Hlive H) as (sel & nxt & Hnext & _ & _ & ->).
    eapply next_round_robin; [|done| |done..]; [|by destruct Hlive].
    apply wf_nodup, ginv_aec. by eapply graph_reachable_inv.
  - intros s seed s' obs H. unfold Continuous.reset in H.
    bind_as H rng' Hrng. bind_as H [sel first] Hsel. simplify_eq.
    apply selector_reset_in_step in Hsel as (Hrange & Hturn & H0).
    unfold in_step. simpl. by rewrite Hturn, H0.
  - intros s a act s' Hlive H.
    destruct (continuous_live_step_next _ _ _ _ Hlive H)
      as (sel & nxt & Hnext & Hags & Hsel & Hnxt).
    split; [by eapply next_gives_in_step|done].
  - intros c s a i act s' Hreach Hin Hlive Hi H.
    destruct (continuous_live_step_next _ _ _ _ Hlive H)
      as (sel & nxt & Hnext & _ & _ & ->).
    eapply next_round_robin; [|done| |done..]; [|by destruct Hlive].
    apply wf_nodup, cwf_aec. by eapply continuous_reachable_wf.
Qed.

(** ** Reward bookkeeping of a live step *)

Lemma accumulate_after_live_step (e : AECEnv) (a : agent) (r : R) (cum : gmap agent R) :
  _accumulate_rewards (<[a := r]> (rewards e))
    (<[a := 0%R]> (_cumulative_rewards e)) = Ok cum →
  cum !! a = Some r ∧
  ∀ b c rb, b ≠ a → _cumulative_rewards e !! b = Some c → rewards e !! b = Some rb →
    cum !! b = Some (c + rb)%R.
Proof.
  intros Hacc. split.
  - rewrite (accumulate_rewards_lookup _ _ _ a 0%R r Hacc);
      [f_equal; lra|by rewrite lookup_insert_eq..].
  - intros b c rb Hne Hc Hrb.
    apply (accumulate_rewards_lookup _ _ _ b c rb Hacc); by rewrite lookup_insert_ne.
Qed.

(** After a live step of [a] its entry of [rewards] is the reward of
    the step and its entry of [_cumulative_rewards] is that reward
    alone; every other agent keeps its entry of [rewards], and that
    same, older reward is added once more to its entry of
    [_cumulative_rewards].  In the graph variant the step's reward is
    also added to the agent's entry of [cumulative_rewards], the other
    entries of which are kept, and [iteration] grows by one. *)
Theorem live_step_reward_bookkeeping :
  (∀ s a act s', live (Continuous.aec s) a → Continuous.step s act = Ok s' →
     ∃ r, rewards (Continuous.aec s') !! a = Some r ∧
       _cumulative_rewards (Continuous.aec s') !! a = Some r ∧
       ∀ b, b ≠ a →
         rewards (Continuous.aec s') !! b = rewards (Continuous.aec s) !! b ∧
         ∀ c rb, _cumulative_rewards (Continuous.aec s) !! b = Some c →
                 rewards (Continuous.aec s) !! b = Some rb →
                 _cumulative_rewards (Continuous.aec s') !! b = Some (c + rb)%R) ∧
  (∀ s a act s', live (Graph.aec s) a → Graph.step s act = Ok s' →
     ∃ r total, rewards (Graph.aec s') !! a = Some r ∧
       _cumulative_rewards (Graph.aec s') !! a = Some r ∧
       Graph.cumulative_rewards s !! a = Some total ∧
       Graph.cumulative_rewards s' !! a = Some (total + r)%R ∧
       Graph.iteration s' = Graph.iteration s + 1 ∧
       ∀ b, b ≠ a →
         rewards (Graph.aec s') !! b = rewards (Graph.aec s) !! b ∧
         Graph.cumulative_rewards s' !! b = Graph.cumulative_rewards s !! b ∧
         ∀ c rb, _cumulative_rewards (Graph.aec s) !! b = Some c →
                 rewards (Graph.aec s) !! b = Some rb →
                 _cumulative_rewards (Graph.aec s') !! b = Some (c + rb)%R).
Proof.
  split.
  - intros s a act s' Hlive H. pose proof Hlive as (Hsel & _).
    apply continuous_step_inv in H
      as (_ & a' & Ha' & [(Hdead & _)|(_ & sp & x & _ & -> & _ & H)]);
      [by destruct (live_not_dead _ _ _ Hlive Ha' Hdead)|].
    assert (a' = a) as -> by congruence.
    apply continuous_step_live_inv in H
      as (p & col & sel & nxt & cum & budget & _ & _ & _ & Hacc & _ & ->).
    apply accumulate_after_live_step in Hacc as [Hcum Hother].
    eexists. simpl. split; [by rewrite lookup_insert_eq|]. split; [done|].
    intros b Hne. split; [by rewrite lookup_insert_ne|]. intros. by eapply Hother.
  - intros s a act s' Hlive H. pose proof Hlive as (Hsel & _).
    apply graph_step_inv in H
      as (_ & a' & Ha' & [(Hdead & _)|(_ & sp & _ & _ & H)]);
      [by destruct (live_not_dead _ _ _ Hlive Ha' Hdead)|].
    assert (a' = a) as -> by congruence.
    apply graph_step_live_inv in H
      as (col & nbrs & r & cols & pts & c & budget & total & cum & sel & nxt &
          _ & _ & _ & _ & _ & Htotal & Hacc & _ & ->).
    apply accumulate_after_live_step in Hacc as [Hcum Hother].
    exists r, total. simpl. split; [by rewrite lookup_insert_eq|].
    split; [done|]. split; [done|]. split; [by rewrite lookup_insert_eq|].
    split; [done|]. intros b Hne. rewrite !lookup_insert_ne by done.
    split; [done|]. split; [done|]. intros. by eapply Hother.
Qed.

(** ** Construction, and calls before or at [reset] *)

Lemma py_index_out {A} (l : list A) (i : Z) :
  Z.of_nat (length l) <= i → py_index l i = Raise IndexError.
Proof.
  intros Hi. unfold py_index.
  destruct (Z.leb_spec 0 i), (Z.ltb_spec i (Z.of_nat (length l))); simpl; try lia.
  destruct (Z.ltb_spec i 0); [lia|]. by rewrite andb_false_r.
Qed.

(** The budget dictionary is built exactly when [max_collect] has an
    entry for every agent; otherwise the lookup raises [IndexError]. *)
Lemma build_max_collect_cases (ags : list agent) (i : Z) (mc : list Z)
    (acc : gmap agent Z) :
  0 <= i →
  if decide (i + Z.of_nat (length ags) <= Z.of_nat (length mc) ∨ ags = [])
  then is_ok (build_max_collect ags i mc acc) = true
  else build_max_collect ags i mc acc = Raise IndexError.
Proof.
  revert i acc. induction ags as [|a ags IH]; intros i acc Hi.
  - rewrite decide_True by auto. done.
  - cbn [build_max_collect].
    destruct (decide (Z.of_nat (length mc) <= i)) as [Hout|Hin].
    + rewrite py_index_out by done. rewrite decide_False; [done|].
      simpl. intros [?|?]; [lia|done].
    + destruct (py_index_ok mc i) as [m ->]; [lia|]. simpl.
      specialize (IH (i + 1) (<[a := m]> acc) ltac:(lia)). simpl length.
      destruct (decide (i + 1 + Z.of_nat (length ags) <= Z.of_nat (length mc) ∨ ags = []))
        as [Hok|Hshort].
      * rewrite decide_True; [done|]. left. destruct Hok as [?| ->]; simpl; lia.
      * rewrite decide_False; [done|]. intros [?|?]; [|done]. apply Hshort. left. lia.
Qed.

Lemma build_max_collect_IndexError (ags : list agent) (mc : list Z) :
  build_max_collect ags 0 mc ∅ = Raise IndexError ↔ (length mc < length ags)%nat.
Proof.
  pose proof (build_max_collect_cases ags 0 mc ∅ ltac:(done)) as H.
  case_decide as Hd.
  - split; [intros Heq; by rewrite Heq in H|].
    intros Hlt. destruct Hd as [?| ->]; [lia|simpl in Hlt; lia].
  - split; [|done]. intros _.
    destruct (Nat.lt_ge_cases (length mc) (length ags)); [done|].
    exfalso. apply Hd. left. lia.
Qed.

Lemma ceil_div_positive (n m : Z) : 0 < n → 0 < m → 0 < - ((- n) `div` m).
Proof. intros Hn Hm. Z.div_mod_to_equations. nia. Qed.

(** The constructors' errors.  The continuous constructor raises
    [IndexError] exactly when [max_collect] has fewer entries than
    there are agents.  The graph constructor raises [ZeroDivisionError]
    on an empty graph and on [nodes_per_row = 0], whatever the other
    arguments; it raises [IndexError] only for a [max_collect] that is
    too short, and it does so on every non-empty graph laid out with
    the default [nodes_per_row]. *)
Theorem constructor_errors :
  (∀ c, Continuous.init c = Raise IndexError ↔
        (length (Continuous.cfg_max_collect c) <
         length (Continuous.cfg_agent_positions c))%nat) ∧
  (∀ c, Graph.cfg_graph c = [] ∨ Graph.cfg_nodes_per_row c = Some 0 →
        Graph.init c = Raise ZeroDivisionError) ∧
  (∀ c, Graph.init c = Raise IndexError →
        (length (Graph.cfg_max_collect c) <
         length (Graph.cfg_init_agent_labels c))%nat) ∧
  (∀ c, Graph.cfg_graph c ≠ [] → Graph.cfg_nodes_per_row c = None →
        (length (Graph.cfg_max_collect c) <
         length (Graph.cfg_init_agent_labels c))%nat →
        Graph.init c = Raise IndexError).
Proof.
  split; [|split; [|split]].
  - intros c.
    pose proof (build_max_collect_IndexError
      (make_agents (length (Continuous.cfg_agent_positions c)))
      (Continuous.cfg_max_collect c)) as Hb.
    rewrite length_make_agents in Hb. rewrite <- Hb. unfold Continuous.init.
    destruct (build_max_collect _ 0 _ ∅) as [mc|e]; simpl;
      [|by split; intros [= ->]].
    case_match; split; done.
  - intros c Hc. unfold Graph.init, Graph._get_node_shape, Graph.ceil_div, nx.nodes, okeys.
    destruct Hc as [-> | ->]; simpl; [|done].
    destruct (Graph.cfg_nodes_per_row c) as [k|]; simpl; [|done].
    destruct (Z.eqb_spec k 0); simpl; [done|].
    destruct (Z.eqb_spec k 0); simpl; [done|]. rewrite ?Z.div_0_l. done.
  - intros c.
    pose proof (build_max_collect_IndexError
      (make_agents (length (Graph.cfg_init_agent_labels c)))
      (Graph.cfg_max_collect c)) as Hb.
    rewrite length_make_agents in Hb. rewrite <- Hb. unfold Graph.init.
    destruct (Graph._get_node_shape _ _) as [[w h]|e] eqn:Hshape; simpl.
    + destruct (build_max_collect _ 0 _ ∅) as [mc|e]; simpl;
        [|by intros [= ->]].
      destruct (make_agents _); simpl; [done|].
      destruct (Graph.py_min _) as [m|e] eqn:Hmin; simpl.
      * destruct (_ <=? 0); simpl; done.
      * unfold Graph.py_min in Hmin. case_match; by simplify_eq.
    + unfold Graph._get_node_shape, Graph.ceil_div in Hshape.
      repeat (case_match; simplify_eq; simpl in * ); done.
  - intros c Hne Hnpr Hshort. unfold Graph.init. rewrite Hnpr.
    assert (0 < Z.of_nat (length (nx.nodes (Graph.cfg_graph c)))) as Hn.
    { unfold nx.nodes, okeys. rewrite length_fmap.
      destruct (Graph.cfg_graph c); [done|simpl; lia]. }
    pose proof (proj2 (Z.sqrt_up_pos _) Hn) as Hs.
    pose proof (ceil_div_positive _ _ Hn Hs) as Hrows.
    unfold Graph._get_node_shape, Graph.ceil_div.
    destruct (Z.eqb_spec (Z.sqrt_up (Z.of_nat (length (nx.nodes (Graph.cfg_graph c))))) 0);
      [lia|]. simpl.
    lazymatch goal with
    | |- context [?x =? 0] => destruct (Z.eqb_spec x 0) as [Hx|Hx]
    end; [unfold Graph.ceil_div in *; lia|].
    simpl.
    rewrite (proj2 (build_max_collect_IndexError
      (make_agents (length (Graph.cfg_init_agent_labels c)))
      (Graph.cfg_max_collect c))); [done|by rewrite length_make_agents].
Qed.

(** Before the first [reset] every call of [step] fails the
    [has_reset] assertion, in both variants, and so does the graph
    variant's [sample]. *)
Theorem calls_before_reset_raise :
  (∀ c s0 act, Continuous.init c = Ok s0 →
     Continuous.step s0 act = Raise AssertionError) ∧
  (∀ c s0 act draw, Graph.init c = Ok s0 →
     Graph.step s0 act = Raise AssertionError ∧
     Graph.sample s0 draw = Raise AssertionError).
Proof.
  split.
  - intros c s0 act H. unfold Continuous.init in H. bind_as H mc Hmc.
    case_match; by simplify_eq.
  - intros c s0 act draw H. unfold Graph.init in H.
    bind_as H [w h] Hshape. bind_as H mc Hmc. bind_as H spaces Hsp.
    by simplify_eq.
Qed.

Lemma calls_before_reset_witness :
  Graph.step (the (Graph.init graph_solo)) (Some 1) = Raise AssertionError.
Proof.
  apply (proj2 calls_before_reset_raise graph_solo _ (Some 1) 0%nat).
  vm_compute. reflexivity.
Defined.

Lemma observe_all_ok (s : Graph.env) (ags : list agent)
    (acc : gmap agent Graph.observation) :
  (∀ a, a ∈ ags → is_ok (Graph.observe s a) = true) →
  is_ok (Graph.observe_all s ags acc) = true.
Proof.
  revert acc. induction ags as [|a ags IH]; intros acc Hall; simpl; [done|].
  pose proof (Hall a ltac:(left)) as Ha.
  destruct (Graph.observe s a) as [o|]; [|done]. simpl.
  apply IH. intros b Hb. apply Hall. by right.
Qed.

(** The collectors [reset] creates stand on nodes of the graph. *)
Lemma graph_created_collectors (s : Graph.env) (b : agent) :
  graph_cfg_ok s → b ∈ possible_agents (Graph.aec s) →
  ∃ col, oget (Graph._create_collectors s (Graph.init_agent_labels s)
                 (possible_agents (Graph.aec s))) b = Some col ∧
         Graph.Collector.label col ∈ nx.nodes (Graph.graph s).
Proof.
  intros [Hnd Hlen Hbud Hsp Hcl Hlab] Hb.
  destruct (oget_odict_of_list_is_Some
    (zip (possible_agents (Graph.aec s))
       ((λ l, Graph.Collector.new (Graph.node_position s l) l) <$>
          Graph.init_agent_labels s)) b) as [col Hcol].
  { rewrite fst_zip; [done|]. rewrite length_fmap. lia. }
  exists col. split; [done|].
  apply oget_odict_of_list, elem_of_zip_r in Hcol.
  apply list_elem_of_fmap in Hcol as (l & -> & Hl). simpl. auto.
Qed.

Lemma reseed_negative (rng : option Z) (x : Z) :
  x < 0 → reseed rng (Some x) = Raise GymnasiumError.
Proof. intros Hx. simpl. by destruct (Z.ltb_spec x 0); [|lia]. Qed.

Lemma reseed_ok (rng seed : option Z) :
  seed_ok seed → ∃ rng', reseed rng seed = Ok rng'.
Proof.
  intros Hseed. destruct seed as [x|]; simpl; [|eauto].
  destruct (Z.ltb_spec x 0); [|eauto]. specialize (Hseed x eq_refl). lia.
Qed.

(** [reset], its seed and the empty agent list.  In both variants a
    negative seed makes [reset] raise the seeding error before anything
    else is done.  Without a seed, or with a non-negative one, [reset]
    raises [ZeroDivisionError] when there is no agent, from the
    scheduler's modulo; with an agent the continuous [reset] returns,
    and so does the graph [reset] when the initial labels are nodes of
    a graph with the documented labels, since then every agent can be
    observed. *)
Theorem reset_needs_an_agent :
  (∀ s x, x < 0 → Continuous.reset s (Some x) = Raise GymnasiumError) ∧
  (∀ s x, x < 0 → Graph.reset s (Some x) = Raise GymnasiumError) ∧
  (∀ s seed, seed_ok seed → possible_agents (Continuous.aec s) = [] →
     Continuous.reset s seed = Raise ZeroDivisionError) ∧
  (∀ s seed, seed_ok seed → possible_agents (Continuous.aec s) ≠ [] →
     is_ok (Continuous.reset s seed) = true) ∧
  (∀ s seed, seed_ok seed → possible_agents (Graph.aec s) = [] →
     Graph.reset s seed = Raise ZeroDivisionError) ∧
  (∀ c s0 seed, seed_ok seed →
     Graph.valid c = true → nx.contiguous (Graph.cfg_graph c) = true →
     Graph.init c = Ok s0 → Graph.cfg_init_agent_labels c ≠ [] →
     is_ok (Graph.reset s0 seed) = true).
Proof.
  split; [|split; [|split; [|split; [|split]]]].
  - intros s x Hx. unfold Continuous.reset. by rewrite reseed_negative.
  - intros s x Hx. unfold Graph.reset. by rewrite reseed_negative.
  - intros s seed Hseed Hnil. unfold Continuous.reset.
    destruct (reseed_ok (Continuous.rng s) seed Hseed) as [rng' ->]. simpl.
    unfold selector_reset, next. by rewrite Hnil.
  - intros s seed Hseed Hne. unfold Continuous.reset.
    destruct (reseed_ok (Continuous.rng s) seed Hseed) as [rng' ->]. simpl.
    unfold selector_reset.
    destruct (next_ok (possible_agents (Continuous.aec s)) reinit Hne)
      as (sel & a & -> & _). done.
  - intros s seed Hseed Hnil. unfold Graph.reset.
    destruct (reseed_ok (Graph.rng s) seed Hseed) as [rng' ->]. simpl.
    unfold selector_reset, next. by rewrite Hnil.
  - intros c s0 seed Hseed Hvalid Hcont Hinit Hne.
    pose proof (graph_init_ok _ _ Hvalid Hinit) as Hok.
    assert (Graph.graph s0 = Graph.cfg_graph c ∧
            possible_agents (Graph.aec s0) =
              make_agents (length (Graph.cfg_init_agent_labels c))) as [Hg Hposs].
    { unfold Graph.init in Hinit. bind_as Hinit [w h] Hshape.
      bind_as Hinit mc Hmc. bind_as Hinit spaces Hsp. by simplify_eq. }
    destruct (next_ok (possible_agents (Graph.aec s0)) reinit) as (sel & a & Hnext & _).
    { rewrite Hposs. intros Hnil%(f_equal length).
      rewrite length_make_agents in Hnil. by destruct (Graph.cfg_init_agent_labels c). }
    unfold Graph.reset.
    destruct (reseed_ok (Graph.rng s0) seed Hseed) as [rng' ->]. simpl.
    unfold selector_reset. rewrite Hnext. simpl.
    lazymatch goal with
    | |- is_ok (?m ≫= _) = true =>
        assert (is_ok m = true) as Hobs; [|by destruct m]
    end.
    apply observe_all_ok. intros b Hb.
    destruct (graph_created_collectors s0 b Hok Hb) as (col & Hcol & Hnode).
    lazymatch goal with
    | |- is_ok (Graph.observe ?s1 b) = true =>
        destruct (observe_mask s1 b col) as (mask & _ & Hobs & _)
    end.
    + exact (gok_closed s0 Hok).
    + simpl. by rewrite Hg.
    + exact Hcol.
    + exact Hnode.
    + by rewrite Hobs.
Qed.

Lemma reset_needs_an_agent_witness :
  Graph.reset graph_solo_made (Some (-1)) = Raise GymnasiumError ∧
  is_ok (Graph.reset graph_solo_made (Some 7)) = true.
Proof.
  split.
  - apply (proj1 (proj2 reset_needs_an_agent) graph_solo_made (-1)). lia.
  - apply (proj2 (proj2 (proj2 (proj2 (proj2 reset_needs_an_agent))))
             graph_solo graph_solo_made (Some 7)).
    + intros x [= <-]. lia.
    + reflexivity.
    + reflexivity.
    + vm_compute. reflexivity.
    + discriminate.
Defined.

Lemma turns_witness :
  agent_selection (Graph.aec graph_pair_moved) = Some "agent_1".
Proof.
  assert (live (Graph.aec graph_pair_start) "agent_0") as Hlive
    by (repeat split; reflexivity).
  assert (in_step (Graph.aec graph_pair_start)) as Hin
    by (split; [vm_compute; split; congruence|reflexivity]).
  rewrite (proj1 (proj2 (proj2 turns_are_round_robin))
             graph_pair graph_pair_start "agent_0" 0%nat (Some 1) graph_pair_moved
             graph_pair_start_reachable Hin Hlive eq_refl);
    [reflexivity|vm_compute; reflexivity].
Defined.

(** ** Errors of [observe] *)

Lemma np_setitem_cases (mask : list Z) (i v : Z) :
  if decide (- Z.of_nat (length mask) <= i < Z.of_nat (length mask))
  then ∃ mask', Graph.np_setitem mask i v = Ok mask' ∧ length mask' = length mask
  else Graph.np_setitem mask i v = Raise IndexError.
Proof.
  unfold Graph.np_setitem. case_decide as Hi.
  - destruct (Z.leb_spec 0 i), (Z.ltb_spec i (Z.of_nat (length mask))); simpl; try lia.
    + eexists. split; [done|]. by rewrite length_insert.
    + destruct (Z.leb_spec (- Z.of_nat (length mask)) i), (Z.ltb_spec i 0);
        simpl; try lia.
      eexists. split; [done|]. by rewrite length_insert.
  - destruct (Z.leb_spec 0 i), (Z.ltb_spec i (Z.of_nat (length mask))); simpl; try lia.
    + destruct (Z.ltb_spec i 0); [lia|]. by rewrite andb_false_r.
    + destruct (Z.leb_spec (- Z.of_nat (length mask)) i); simpl; [lia|done].
Qed.

Lemma mark_neighbors_out_of_range (nbrs : list Z) (mask : list Z) (v : Z) :
  v ∈ nbrs → ¬ (- Z.of_nat (length mask) <= v < Z.of_nat (length mask)) →
  Graph.mark_neighbors mask nbrs = Raise IndexError.
Proof.
  revert mask. induction nbrs as [|nb nbrs IH]; intros mask Hv Hout.
  - by apply elem_of_nil in Hv.
  - cbn [Graph.mark_neighbors]. pose proof (np_setitem_cases mask nb 1) as Hnb.
    case_decide as Hin.
    + destruct Hnb as (mask' & -> & Hlen). simpl.
      apply elem_of_cons in Hv as [->|Hv]; [done|].
      apply IH; [done|]. by rewrite Hlen.
    + by rewrite Hnb.
Qed.

(** How [observe] fails.  It raises [KeyError] for an agent without a
    collector, the graph library's error when the collector's node is
    not in the graph, and [IndexError] when that node has a neighbour
    whose label is not an index of the mask, that is, outside -N..N-1
    for a graph of N nodes. *)
Theorem observe_errors (s : Graph.env) (a : agent) :
  (oget (Graph.collectors s) a = None → Graph.observe s a = Raise KeyError) ∧
  (∀ col, oget (Graph.collectors s) a = Some col →
     Graph.Collector.label col ∉ nx.nodes (Graph.graph s) →
     Graph.observe s a = Raise NetworkXError) ∧
  (∀ col nbrs v, oget (Graph.collectors s) a = Some col →
     nx.neighbors (Graph.graph s) (Graph.Collector.label col) = Ok nbrs →
     v ∈ nbrs →
     ¬ (- Z.of_nat (length (nx.nodes (Graph.graph s))) <= v
        < Z.of_nat (length (nx.nodes (Graph.graph s)))) →
     Graph.observe s a = Raise IndexError).
Proof.
  unfold Graph.observe, Graph._get_action_mask, oget_r. split; [|split].
  - by intros ->.
  - intros col -> Hnode. simpl. unfold nx.neighbors.
    destruct (oget (Graph.graph s) (Graph.Collector.label col)) eqn:Hadj; [|done].
    exfalso. apply Hnode, oget_is_Some. eauto.
  - intros col nbrs v Hcol Hnbrs Hv Hout. rewrite Hcol. simpl.
    rewrite Hnbrs. simpl.
    rewrite (mark_neighbors_out_of_range nbrs _ v Hv); [done|].
    by rewrite length_replicate.
Qed.

Lemma observe_errors_witness :
  Graph.observe (Graph.set_graph graph_solo_start gap_graph) "agent_0"
    = Raise IndexError.
Proof.
  eapply (proj2 (proj2 (observe_errors _ "agent_0")) _ [5] 5).
  - vm_compute. reflexivity.
  - reflexivity.
  - left.
  - vm_compute. intros [_ H]. discriminate H.
Defined.

(** ** Budgets bound what is collected *)

Lemma within_budget_reset (term : gmap agent bool) (budget : gmap agent Z)
    (total : agent → option Z) :
  (∀ a t, total a = Some t → t = 0) → within_budget term budget total.
Proof. intros H0 a t m Ht _. apply H0 in Ht as ->. lia. Qed.

Lemma within_budget_delete (term : gmap agent bool) (budget : gmap agent Z)
    (total : agent → option Z) (a : agent) :
  within_budget term budget total → within_budget (delete a term) budget total.
Proof.
  intros H b t m Ht Hm. destruct (H b t m Ht Hm) as [Hle Hlt].
  split; [done|]. intros [_ Hb]%lookup_delete_Some. auto.
Qed.

Lemma within_budget_live (term : gmap agent bool) (budget : gmap agent Z)
    (total total' : agent → option Z) (a : agent) (t t' m : Z) :
  within_budget term budget total →
  term !! a = Some false → total a = Some t → total' a = Some t' →
  t' = t ∨ t' = t + 1 →
  budget !! a = Some m →
  (∀ b, b ≠ a → total' b = total b) →
  within_budget (if m <=? t' then <[a := true]> term else term) budget total'.
Proof.
  intros H Ha Ht Ht' Hstep Hm Hother b u n Hu Hn.
  destruct (decide (b = a)) as [->|Hne].
  - assert (u = t') as -> by congruence. assert (n = m) as -> by congruence.
    destruct (H a t m Ht Hm) as [Hle Hlt]. specialize (Hlt Ha).
    split; [lia|]. destruct (Z.leb_spec m t') as [Hge|Hless].
    + rewrite lookup_insert_eq. discriminate.
    + intros _. lia.
  - rewrite Hother in Hu by done. destruct (H b u n Hu Hn) as [Hle Hlt].
    split; [done|]. intros Hb. apply Hlt.
    destruct (m <=? t'); [by rewrite lookup_insert_ne in Hb|done].
Qed.

Lemma graph_reset_within_budget (s s' : Graph.env) seed obs :
  Graph.reset s seed = Ok (s', obs) →
  within_budget (terminations (Graph.aec s')) (Graph.max_collect s') (graph_totals s').
Proof.
  intros H. unfold Graph.reset in H. bind_as H rng' Hrng. bind_as H [sel first] Hsel.
  bind_as H observations Hobs. simplify_eq.
  apply within_budget_reset. intros a t Ht. unfold graph_totals in Ht. simpl in Ht.
  destruct (oget _ a) as [col|] eqn:Hcol; [|done]. simpl in Ht. simplify_eq.
  apply oget_odict_of_list, elem_of_zip_r in Hcol.
  apply list_elem_of_fmap in Hcol as (p & -> & _). done.
Qed.

Lemma move_and_collect_total (s : Graph.env) (a : agent) col nbrs act r cols pts c :
  Graph.move_and_collect s a col nbrs act = Ok (r, cols, pts) →
  oget (Graph.collectors s) a = Some col → oget cols a = Some c →
  Graph.Collector.total_points_collected c = Graph.Collector.total_points_collected col ∨
  Graph.Collector.total_points_collected c = Graph.Collector.total_points_collected col + 1.
Proof.
  intros [(x & -> & _ & _ & H)|(_ & _ & -> & _)]%move_and_collect_inv Hcol Hc.
  - simpl in H. destruct (oget (Graph.points s) x); destruct H as [-> _];
      rewrite oget_oset_eq in Hc; simplify_eq; simpl; auto.
  - left. congruence.
Qed.

Lemma graph_step_within_budget (s s' : Graph.env) (act : action) :
  within_budget (terminations (Graph.aec s)) (Graph.max_collect s) (graph_totals s) →
  Graph.step s act = Ok s' →
  within_budget (terminations (Graph.aec s')) (Graph.max_collect s') (graph_totals s').
Proof.
  intros Hin H.
  apply graph_step_inv in H as (_ & agent_ & Hag & [(Hdead & H)|(Hlive & sp & _ & _ & H)]).
  - apply graph_step_dead_inv in H as (e & e' & He & Hguard & ->).
    apply was_dead_step_inv in He as (_ & a & _ & _ & _ & _ & _ & _ & _ & _ & _ & Ht & _).
    assert (terminations e' = terminations e) as Ht'
      by (by destruct Hguard as [[_ ->]|(_ & sel & nxt & _ & ->)]).
    unfold graph_totals. simpl. rewrite Ht', Ht. by apply within_budget_delete.
  - apply graph_step_live_inv in H
      as (col & nbrs & r & cols & pts & c & budget & total & cum & sel & nxt &
          Hcol & Hn & Hmove & Hc & Hb & Htotal & Hacc & Hnext & ->).
    apply is_dead_false in Hlive as [Hta Hua].
    unfold graph_totals. simpl.
    eapply (within_budget_live _ _ (graph_totals s) _ agent_
              (Graph.Collector.total_points_collected col)
              (Graph.Collector.total_points_collected c)); try done.
    + unfold graph_totals. by rewrite Hcol.
    + by rewrite Hc.
    + by eapply move_and_collect_total.
    + intros b Hne. unfold graph_totals.
      by rewrite (move_and_collect_other _ _ _ _ _ _ _ _ _ Hmove).
Qed.

Lemma continuous_reset_within_budget (s s' : Continuous.env) seed obs :
  Continuous.reset s seed = Ok (s', obs) →
  within_budget (terminations (Continuous.aec s')) (Continuous.max_collect s')
    (continuous_totals s').
Proof.
  intros H. unfold Continuous.reset in H. bind_as H rng' Hrng. bind_as H [sel first] Hsel. simplify_eq.
  apply within_budget_reset. intros a t Ht. unfold continuous_totals in Ht. simpl in Ht.
  destruct (oget _ a) as [col|] eqn:Hcol; [|done]. simpl in Ht. simplify_eq.
  apply oget_odict_of_list, elem_of_zip_r in Hcol.
  apply list_elem_of_fmap in Hcol as (p & -> & _). done.
Qed.

Lemma continuous_step_within_budget (s s' : Continuous.env) (act : action) :
  within_budget (terminations (Continuous.aec s)) (Continuous.max_collect s)
    (continuous_totals s) →
  Continuous.step s act = Ok s' →
  within_budget (terminations (Continuous.aec s')) (Continuous.max_collect s')
    (continuous_totals s').
Proof.
  intros Hin H.
  apply continuous_step_inv in H
    as (_ & agent_ & Hag & [(Hdead & e & He & ->)|(Hlive & sp & a & _ & _ & _ & H)]).
  - apply was_dead_step_inv in He as (_ & b & _ & _ & _ & _ & _ & _ & _ & _ & _ & Ht & _).
    unfold continuous_totals. simpl. rewrite Ht. by apply within_budget_delete.
  - apply continuous_step_live_inv in H
      as (p & col & sel & nxt & cum & budget & Hp & Hcol & Hnext & Hacc & Hb & ->).
    apply is_dead_false in Hlive as [Hta Hua].
    unfold continuous_totals. simpl.
    eapply (within_budget_live _ _ (continuous_totals s) _ agent_
              (Continuous.Collector.total_points_collected col)
              (Continuous.Collector.total_points_collected col + 1)); try done.
    + unfold continuous_totals. by rewrite Hcol.
    + by rewrite oget_oset_eq.
    + by right.
    + intros b Hne. unfold continuous_totals. by rewrite oget_oset_ne.
Qed.

(** No agent collects beyond its budget, in either variant: at every
    state of an episode a collector's count of collected points is at
    least 0 and at most its agent's budget, or at most 1 when the
    budget is below 1 (the first step of such an agent may still
    collect); and while the agent's terminated flag is clear the count
    is strictly below that bound. *)
Theorem collected_within_budget :
  (∀ c s, Graph.reachable c s →
     within_budget (terminations (Graph.aec s)) (Graph.max_collect s) (graph_totals s)) ∧
  (∀ c s, Continuous.reachable c s →
     within_budget (terminations (Continuous.aec s)) (Continuous.max_collect s)
       (continuous_totals s)).
Proof.
  split.
  - induction 1 as [s0 seed s obs _ Hreset|s seed s' obs _ _ Hreset|s act s' _ IH Hstep].
    + by eapply graph_reset_within_budget.
    + by eapply graph_reset_within_budget.
    + by eapply graph_step_within_budget.
  - induction 1 as [s0 seed s obs _ Hreset|s seed s' obs _ _ Hreset|s act s' _ IH Hstep].
    + by eapply continuous_reset_within_budget.
    + by eapply continuous_reset_within_budget.
    + by eapply continuous_step_within_budget.
Qed.

Lemma collected_within_budget_witness :
  0 <= 1 <= Z.max 1 1.
Proof.
  refine (proj1 (proj1 collected_within_budget graph_solo graph_solo_end
                   graph_solo_end_reachable "agent_0" 1 1 _ _));
    vm_compute; reflexivity.
Defined.

(** ** The statistics of the graph variant *)

Lemma sumZ_zero {A} (f : A → Z) (l : list A) :
  (∀ x, x ∈ l → f x = 0) → sumZ (f <$> l) = 0.
Proof.
  unfold sumZ. induction l as [|x l IH]; intros H; [done|].
  rewrite fmap_cons. cbn [foldr].
  rewrite (H x) by left. rewrite IH; [done|]. intros y Hy. apply H. by right.
Qed.

Lemma sumZ_oset `{EqDecision K} {V} (f : V → Z) (d : odict K V) (k : K) (v v' : V) :
  oget d k = Some v →
  sumZ (f <$> ovalues (oset d k v')) = sumZ (f <$> ovalues d) - f v + f v'.
Proof.
  unfold ovalues, sumZ. induction d as [|[k0 v0] d IH]; intros H; [done|].
  cbn [oget oset] in *. destruct (decide (k = k0)) as [->|Hne].
  - simplify_eq. rewrite !fmap_cons. cbn [foldr snd]. lia.
  - rewrite !fmap_cons. cbn [foldr snd]. rewrite IH by done. lia.
Qed.

Lemma elem_of_ovalues {K V} (d : odict K V) (v : V) :
  v ∈ ovalues d → ∃ k, (k, v) ∈ d.
Proof.
  unfold ovalues. intros ([k v0] & -> & H)%list_elem_of_fmap. by exists k.
Qed.

Lemma get_stats_fold (cols : odict agent Graph.Collector.t) stats t u c :
  foldl (λ acc kv,
           let '(stats, total, unique, cheated) := acc in
           let collector : Graph.Collector.t := kv.2 in
           (oset stats kv.1 (Graph.stats_of collector),
            total + Graph.Collector.total_points_collected collector,
            unique + Graph.Collector.unique_points_collected collector,
            cheated + Graph.Collector.cheated collector))
        (stats, t, u, c) cols =
  (foldl (λ d kv, oset d kv.1 kv.2) stats ((λ kv, (kv.1, Graph.stats_of kv.2)) <$> cols),
   t + sumZ (Graph.Collector.total_points_collected <$> ovalues cols),
   u + sumZ (Graph.Collector.unique_points_collected <$> ovalues cols),
   c + sumZ (Graph.Collector.cheated <$> ovalues cols)).
Proof.
  revert stats t u c. induction cols as [|[a col] cols IH]; intros stats t u c.
  - simpl. by rewrite !Z.add_0_r.
  - cbn [foldl]. rewrite IH. unfold ovalues, sumZ.
    rewrite !fmap_cons. cbn [foldr snd fst].
    rewrite !Z.add_assoc. reflexivity.
Qed.

Lemma get_stats_sums (s : Graph.env) :
  Graph._get_stats s =
  (odict_of_list ((λ kv, (kv.1, Graph.stats_of kv.2)) <$> Graph.collectors s),
   sumZ (Graph.Collector.total_points_collected <$> ovalues (Graph.collectors s)),
   sumZ (Graph.Collector.unique_points_collected <$> ovalues (Graph.collectors s)),
   sumZ (Graph.Collector.cheated <$> ovalues (Graph.collectors s))).
Proof. unfold Graph._get_stats. by rewrite get_stats_fold. Qed.

Lemma sumZ_tally (cols : list Graph.Collector.t) :
  (∀ c, c ∈ cols → collector_tally_ok c) →
  sumZ (Graph.Collector.total_points_collected <$> cols) =
    sumZ (Graph.Collector.unique_points_collected <$> cols) +
    sumZ (Graph.Collector.cheated <$> cols) ∧
  0 <= sumZ (Graph.Collector.unique_points_collected <$> cols) ∧
  0 <= sumZ (Graph.Collector.cheated <$> cols).
Proof.
  unfold sumZ. induction cols as [|c cols IH]; intros H; [done|].
  rewrite !fmap_cons. cbn [foldr].
  destruct (H c) as (Hc & Hu & Hch); [left|].
  destruct IH as (IH1 & IH2 & IH3); [intros y Hy; apply H; by right|]. lia.
Qed.

Lemma graph_reset_tally (s s' : Graph.env) seed obs :
  Graph.reset s seed = Ok (s', obs) → tally_ok s'.
Proof.
  intros H. unfold Graph.reset in H. bind_as H rng' Hrng. bind_as H [sel first] Hsel.
  bind_as H observations Hobs. simplify_eq.
  assert (∀ a c, (a, c) ∈ Graph._create_collectors s (Graph.init_agent_labels s)
                            (possible_agents (Graph.aec s)) →
                 ∃ l, c = Graph.Collector.new (Graph.node_position s l) l) as Hcols.
  { intros a c Hc. apply elem_of_odict_of_list, elem_of_zip_r in Hc.
    apply list_elem_of_fmap in Hc as (l & -> & _). by exists l. }
  assert (∀ l p, (l, p) ∈ Graph._create_points s (Graph.point_labels s) →
                 Graph.Point.collect_counter p = 0) as Hpts.
  { intros l p Hp. apply elem_of_odict_of_list in Hp.
    apply list_elem_of_fmap in Hp as (l' & [= -> ->] & _). done. }
  constructor; simpl.
  - intros a c (l & ->)%Hcols. by repeat split.
  - intros l p Hp%Hpts. lia.
  - rewrite !sumZ_zero; [done| |].
    + by intros p (l & Hp%Hpts)%elem_of_ovalues.
    + by intros c (a & (l & ->)%Hcols)%elem_of_ovalues.
  - unfold collected_points. rewrite !sumZ_zero; [done| |].
    + intros p (l & Hp%Hpts)%elem_of_ovalues.
      unfold Graph.Point.is_collected. by rewrite Hp.
    + by intros c (a & (l & ->)%Hcols)%elem_of_ovalues.
Qed.

Lemma graph_step_tally (s s' : Graph.env) (act : action) :
  tally_ok s → Graph.step s act = Ok s' → tally_ok s'.
Proof.
  intros [Hcols Hpts Htotal Hunique] H.
  apply graph_step_inv in H as (_ & agent_ & Hag & [(Hdead & H)|(Hlive & sp & _ & _ & H)]).
  - apply graph_step_dead_inv in H as (e & e' & He & Hguard & ->).
    by constructor.
  - apply graph_step_live_inv in H
      as (col & nbrs & r & cols & pts & c & budget & total & cum & sel & nxt &
          Hcol & Hn & Hmove & Hc & Hb & Htot & Hacc & Hnext & ->).
    pose proof (Hcols _ _ (oget_elem _ _ _ Hcol)) as (Hc1 & Hc2 & Hc3).
    apply move_and_collect_inv in Hmove
      as [(x & -> & _ & _ & Hmove)|(_ & _ & -> & ->)]; [|by constructor].
    simpl in Hmove. destruct (oget (Graph.points s) x) as [p|] eqn:Hp;
      destruct Hmove as [-> ->].
    + pose proof (Hpts _ _ (oget_elem _ _ _ Hp)) as Hp0.
      constructor; simpl.
      * intros a c' [Hin| [= -> ->]]%elem_of_oset; [by eapply Hcols|].
        unfold collector_tally_ok. simpl.
        destruct (Graph.Point.is_collected p); lia.
      * intros l p' [Hin| [= -> ->]]%elem_of_oset; [by eapply Hpts|]. simpl. lia.
      * rewrite (sumZ_oset _ _ _ _ _ Hcol), (sumZ_oset _ _ _ _ _ Hp). simpl. lia.
      * unfold collected_points.
        rewrite (sumZ_oset _ _ _ _ _ Hcol), (sumZ_oset _ _ _ _ _ Hp). simpl.
        unfold collected_points in Hunique. unfold Graph.Point.is_collected in *. simpl.
        destruct (Z.ltb_spec 0 (Graph.Point.collect_counter p)),
                 (Z.ltb_spec 0 (Graph.Point.collect_counter p + 1)); lia.
    + constructor; simpl.
      * intros a c' [Hin| [= -> ->]]%elem_of_oset; [by eapply Hcols|].
        by repeat split.
      * done.
      * rewrite (sumZ_oset _ _ _ _ _ Hcol). simpl. lia.
      * rewrite (sumZ_oset _ _ _ _ _ Hcol). simpl. lia.
Qed.

Lemma graph_reachable_tally (c : Graph.config) (s : Graph.env) :
  Graph.reachable c s → tally_ok s.
Proof.
  induction 1 as [s0 seed s obs _ Hreset|s seed s' obs _ _ Hreset|s act s' _ IH Hstep].
  - by eapply graph_reset_tally.
  - by eapply graph_reset_tally.
  - by eapply graph_step_tally.
Qed.

(** The statistics [_get_stats] reports agree with each other and with
    the points, at every state of an episode of the graph variant: the
    overall total is the overall unique count plus the overall cheat
    count, it is the sum of the points' collect counters, the unique
    count is the number of points collected at least once, and every
    agent's entry is read off its collector and adds up in the same
    way. *)
Theorem stats_are_consistent (c : Graph.config) (s : Graph.env) :
  Graph.reachable c s →
  ∃ stats total unique cheated,
    Graph._get_stats s = (stats, total, unique, cheated) ∧
    total = unique + cheated ∧ 0 <= unique ∧ 0 <= cheated ∧
    total = sumZ (Graph.Point.collect_counter <$> ovalues (Graph.points s)) ∧
    unique = collected_points (Graph.points s) ∧
    ∀ a e, oget stats a = Some e →
      (∃ col, (a, col) ∈ Graph.collectors s ∧ e = Graph.stats_of col) ∧
      Graph.st_total_points_collected e =
        Graph.st_unique_points_collected e + Graph.st_cheated e.
Proof.
  intros [Hcols Hpts Htotal Hunique]%graph_reachable_tally.
  rewrite get_stats_sums. do 4 eexists. split; [done|].
  destruct (sumZ_tally (ovalues (Graph.collectors s))) as (Hsum & Hu & Hc).
  { intros col (a & Hin)%elem_of_ovalues. by eapply Hcols. }
  repeat (split; [done|]).
  intros a e He. apply oget_odict_of_list in He.
  apply list_elem_of_fmap in He as ([a' col] & [= -> ->] & Hin).
  split; [by exists col|]. by destruct (Hcols _ _ Hin) as (? & _).
Qed.

Lemma stats_are_consistent_witness :
  ∃ stats, Graph._get_stats graph_pair_dead = (stats, 2, 1, 1).
Proof.
  destruct (stats_are_consistent graph_pair graph_pair_dead graph_pair_dead_reachable)
    as (stats & total & unique & cheated & Hstats & _).
  exists stats. rewrite Hstats. vm_compute in Hstats. by injection Hstats as <- <- <- <-.
Defined.

(** ** What a step of the graph variant touches *)

(** A step that returns touches one collector and one point at most.
    Every collector but the selected agent's is as it was; the selected
    agent's is as it was, or the action names a neighbour of its node
    and it now sits at that node, at that node's position, with the
    position appended to its path; a point is as it was unless the
    action is its label, and then at most collected once more; and no
    point appears or disappears. *)
Theorem step_moves_along_edges (s s' : Graph.env) (act : action) (a : agent) :
  Graph.step s act = Ok s' → agent_selection (Graph.aec s) = Some a →
  (∀ b, b ≠ a → oget (Graph.collectors s') b = oget (Graph.collectors s) b) ∧
  (∀ col, oget (Graph.collectors s) a = Some col →
     ∃ col', oget (Graph.collectors s') a = Some col' ∧
       (col' = col ∨
        ∃ x nbrs, act = Some x ∧
          nx.neighbors (Graph.graph s) (Graph.Collector.label col) = Ok nbrs ∧
          x ∈ nbrs ∧
          Graph.Collector.label col' = x ∧
          Graph.Collector.position col' = Graph.node_position s x ∧
          Graph.Collector.path_positions col' =
            Graph.Collector.path_positions col ++ [Graph.node_position s x])) ∧
  (∀ l, match oget (Graph.points s) l with
        | Some p =>
            oget (Graph.points s') l = Some p ∨
            (act = Some l ∧ oget (Graph.points s') l = Some (Graph.Point.collect p))
        | None => oget (Graph.points s') l = None
        end).
Proof.
  intros H Ha.
  apply graph_step_inv in H as (_ & a' & Ha' & [(Hdead & H)|(Hlive & sp & _ & _ & H)]).
  - apply graph_step_dead_inv in H as (e & e' & He & Hguard & ->). simpl.
    split; [done|]. split; [eauto|]. intros l. destruct (oget _ l); auto.
  - assert (a' = a) as -> by congruence.
    apply graph_step_live_inv in H
      as (col & nbrs & r & cols & pts & c & budget & total & cum & sel & nxt &
          Hcol & Hn & Hmove & Hc & Hb & Htot & Hacc & Hnext & ->).
    simpl. split; [|split].
    + intros b Hne. by eapply move_and_collect_other.
    + intros col0 Hcol0. assert (col0 = col) as -> by congruence.
      exists c. split; [done|].
      apply move_and_collect_inv in Hmove
        as [(x & -> & Hx & _ & Hmove)|(_ & _ & -> & _)]; [|left; congruence].
      right. exists x, nbrs. repeat (split; [done|]).
      simpl in Hmove. destruct (oget (Graph.points s) x); destruct Hmove as [-> _];
        rewrite oget_oset_eq in Hc; by simplify_eq.
    + intros l.
      apply move_and_collect_inv in Hmove
        as [(x & -> & Hx & _ & Hmove)|(_ & _ & _ & ->)];
        [|destruct (oget _ l); auto].
      simpl in Hmove. destruct (oget (Graph.points s) x) as [p0|] eqn:Hp0;
        destruct Hmove as [_ ->]; [|destruct (oget _ l); auto].
      rewrite oget_oset. case_decide as Hl.
      * subst l. rewrite Hp0. by right.
      * destruct (oget _ l); auto.
Qed.

Lemma step_moves_along_edges_witness :
  oget (Graph.collectors graph_pair_moved) "agent_1"
    = oget (Graph.collectors graph_pair_start) "agent_1".
Proof.
  refine (proj1 (step_moves_along_edges graph_pair_start graph_pair_moved (Some 1)
                   "agent_0" _ _) "agent_1" _).
  - vm_compute. reflexivity.
  - reflexivity.
  - discriminate.
Defined.

(** ** The grid the nodes are laid out on *)

Lemma get_node_shape_Ok (n npr : Z) (w h : R) :
  Graph._get_node_shape n npr = Ok (w, h) →
  npr ≠ 0 ∧ - ((- n) `div` npr) ≠ 0 ∧
  w = (Graph.SCREEN_WIDTH / IZR npr)%R ∧
  h = (Graph.SCREEN_HEIGHT / IZR (- ((- n) `div` npr)))%R.
Proof.
  unfold Graph._get_node_shape, Graph.ceil_div.
  destruct (Z.eqb_spec npr 0) as [|Hnpr]; [done|]. simpl.
  destruct (Z.eqb_spec (- ((- n) `div` npr)) 0) as [|Hrows]; [done|].
  by intros [= <- <-].
Qed.

Lemma node_cell_bounds (n npr l : Z) :
  0 < npr → 0 <= l < n →
  0 <= l `mod` npr < npr ∧
  0 <= l `div` npr < - ((- n) `div` npr) ∧
  l = l `div` npr * npr + l `mod` npr.
Proof. intros Hnpr Hl. Z.div_mod_to_equations. nia. Qed.

Lemma grid_has_room (n npr : Z) :
  0 < n → 0 < npr →
  n <= npr * - ((- n) `div` npr) ∧ (- ((- n) `div` npr) - 1) * npr < n.
Proof. intros Hn Hnpr. Z.div_mod_to_equations. nia. Qed.

(** The grid of a constructed environment.  For a graph of fewer than
    2^52 nodes whose [nodes_per_row] is the default or a positive number
    below 2^52 (sizes at which the constructor's division, ceiling and
    square root on floats give the exact integers): the graph has a
    node; the grid has [nodes_per_row] > 0 columns, by default the
    least number whose square is at least N, and
    rows = ceil(N / nodes_per_row) > 0 rows, the number the node height
    is computed from; it has room for the N nodes and no empty last
    row; and every label l of 0..N-1 is placed at column
    l mod nodes_per_row and row l div nodes_per_row of the grid, its
    position being the column times the node width and the row times
    the node height, and l is row * nodes_per_row + column. *)
Theorem nodes_are_laid_out_on_a_grid (c : Graph.config) (s : Graph.env) :
  Graph.init c = Ok s →
  Z.of_nat (length (nx.nodes (Graph.cfg_graph c))) < 2 ^ 52 →
  (∀ k, Graph.cfg_nodes_per_row c = Some k → 0 < k < 2 ^ 52) →
  let n := Z.of_nat (length (nx.nodes (Graph.graph s))) in
  let npr := Graph.nodes_per_row s in
  ∃ rows,
    Graph.ceil_div n npr = Ok rows ∧
    Graph._get_node_shape n npr = Ok (Graph.node_width s, Graph.node_height s) ∧
    0 < n ∧ 0 < npr ∧ 0 < rows ∧
    n <= npr * rows ∧ (rows - 1) * npr < n ∧
    (Graph.cfg_nodes_per_row c = None →
     npr = Z.sqrt_up n ∧ (npr - 1) * (npr - 1) < n <= npr * npr) ∧
    ∀ l, 0 <= l < n →
      ∃ col row, 0 <= col < npr ∧ 0 <= row < rows ∧ l = row * npr + col ∧
        Graph.node_position s l =
          (IZR col * Graph.node_width s, IZR row * Graph.node_height s)%R.
Proof.
  unfold Graph.init. intros H Hsize Hpos. bind_as H [w h] Hshape. bind_as H mc Hmc.
  bind_as H spaces Hsp. simplify_eq. simpl.
  set (n := Z.of_nat (length (nx.nodes (Graph.cfg_graph c)))) in *.
  set (npr := match Graph.cfg_nodes_per_row c with
              | Some k => k
              | None => Z.sqrt_up n
              end) in *.
  pose proof Hshape as Hshape'.
  apply get_node_shape_Ok in Hshape' as (Hnpr & Hrows & _ & _).
  assert (0 <= n) as Hn0 by (unfold n; lia).
  assert (0 < npr) as Hnpr'.
  { unfold npr in *. destruct (Graph.cfg_nodes_per_row c) as [k|]; [by apply Hpos|].
    pose proof (Z.sqrt_up_nonneg n). lia. }
  assert (0 < n) as Hn.
  { destruct (decide (n = 0)) as [Hz|]; [|lia]. rewrite Hz in Hrows.
    by rewrite Z.div_0_l in Hrows. }
  pose proof (ceil_div_positive n npr Hn Hnpr') as Hrows'.
  destruct (grid_has_room n npr Hn Hnpr') as [Hroom Hlast].
  exists (- ((- n) `div` npr)). split.
  { unfold Graph.ceil_div. by destruct (Z.eqb_spec npr 0). }
  split; [done|]. do 5 (split; [done|]). split.
  - intros Hnone. assert (npr = Z.sqrt_up n) as Hdef by (unfold npr; by rewrite Hnone).
    split; [done|]. rewrite Hdef.
    pose proof (Z.sqrt_up_spec n Hn) as Hspec. unfold Z.pred in Hspec.
    replace (Z.sqrt_up n - 1) with (Z.sqrt_up n + -1) by lia. exact Hspec.
  - intros l Hl. destruct (node_cell_bounds n npr l Hnpr' Hl) as (Hcol & Hrow & Hcell).
    exists (l `mod` npr), (l `div` npr). by repeat (split; [done|]).
Qed.

Lemma nodes_are_laid_out_on_a_grid_witness :
  Graph.ceil_div 3 (Graph.nodes_per_row graph_solo_made) = Ok 2 ∧
  Graph.nodes_per_row graph_solo_made = Z.sqrt_up 3.
Proof.
  destruct (nodes_are_laid_out_on_a_grid graph_solo graph_solo_made)
    as (rows & Hrows & _ & _ & _ & _ & _ & _ & Hdefault & _).
  - vm_compute. reflexivity.
  - reflexivity.
  - intros k Hk. discriminate Hk.
  - split; [reflexivity|]. apply Hdefault. reflexivity.
Defined.

(** ** Actions the mask allows *)

Lemma foldl_min_spec (l : list Z) (x : Z) :
  foldl Z.min x l ∈ x :: l ∧ ∀ y, y ∈ x :: l → foldl Z.min x l <= y.
Proof.
  revert x. induction l as [|z l IH]; intros x; simpl.
  - split; [left|]. intros y [->|[]%elem_of_nil]%elem_of_cons. lia.
  - destruct (IH (Z.min x z)) as [Hin Hle]. split.
    + apply elem_of_cons in Hin as [->|Hin].
      * destruct (Z.min_spec x z) as [[_ ->]|[_ ->]]; [left|right; left].
      * by do 2 right.
    + intros y Hy. pose proof (Hle (Z.min x z) ltac:(left)) as Hmin.
      rewrite !elem_of_cons in Hy. destruct Hy as [Hy|[Hy|Hy]].
      * subst y. lia.
      * subst y. lia.
      * apply Hle. by right.
Qed.

Lemma py_min_Ok (l : list Z) (m : Z) :
  Graph.py_min l = Ok m → m ∈ l ∧ ∀ y, y ∈ l → m <= y.
Proof.
  destruct l as [|x l]; [done|]. intros [= <-]. apply foldl_min_spec.
Qed.

Lemma graph_reachable_config (c : Graph.config) (s : Graph.env) :
  Graph.reachable c s → ∃ s0, Graph.init c = Ok s0 ∧ graph_same_config s0 s.
Proof.
  induction 1 as [s0 seed s obs Hinit H|s seed s' obs _ IH H|s act s' _ IH H].
  - exists s0. split; [done|]. by eapply graph_reset_same_config.
  - destruct IH as (s0 & Hinit & Hsame). exists s0. split; [done|].
    eapply graph_same_config_trans; [done|]. by eapply graph_reset_same_config.
  - destruct IH as (s0 & Hinit & Hsame). exists s0. split; [done|].
    eapply graph_same_config_trans; [done|]. by eapply graph_step_same_config.
Qed.

Lemma graph_init_spaces (c : Graph.config) (s0 : Graph.env) (a : agent) :
  Graph.init c = Ok s0 → a ∈ possible_agents (Graph.aec s0) →
  Graph.graph s0 = Graph.cfg_graph c ∧
  ∃ start, Graph.py_min (nx.nodes (Graph.cfg_graph c)) = Ok start ∧
    Graph.action_spaces s0 !! a =
      Some {| dn := Z.of_nat (length (nx.nodes (Graph.cfg_graph c))); dstart := start |}.
Proof.
  unfold Graph.init. intros H. bind_as H [w h] Hshape. bind_as H mc Hmc.
  bind_as H spaces Hsp. simplify_eq. simpl. intros Ha. split; [done|].
  destruct (make_agents _) as [|a0 ags] eqn:Hags; [by apply elem_of_nil in Ha|].
  bind_as Hsp start Hstart. exists start. split; [done|].
  destruct (_ <=? 0); [done|]. simplify_eq.
  unfold dict_fromkeys. apply lookup_gset_to_gmap_Some. split; [|done].
  by apply elem_of_list_to_set.
Qed.

(** The spaces of an episode on a graph with the documented labels
    contain every node. *)
Lemma graph_space_contains_nodes (c : Graph.config) (s : Graph.env) (a : agent) :
  nx.contiguous (Graph.cfg_graph c) = true →
  Graph.reachable c s → a ∈ possible_agents (Graph.aec s) →
  Graph.graph s = Graph.cfg_graph c ∧
  ∃ sp, Graph.action_spaces s !! a = Some sp ∧
    ∀ x, x ∈ nx.nodes (Graph.graph s) → contains sp (Some x) = true.
Proof.
  intros Hcont (s0 & Hinit & Hsame)%graph_reachable_config Ha.
  destruct Hsame as (Hg & _ & _ & _ & _ & _ & _ & _ & _ & Hsp & Hposs).
  rewrite Hposs in Ha.
  destruct (graph_init_spaces _ _ _ Hinit Ha) as (Hg0 & start & Hmin & Hsp0).
  rewrite Hg, Hg0, Hsp. split; [done|]. eexists. split; [exact Hsp0|].
  intros x Hx. simpl. apply py_min_Ok in Hmin as [Hstart Hle].
  pose proof (nx_contiguous_nodes _ _ Hcont Hstart).
  pose proof (nx_contiguous_nodes _ _ Hcont Hx).
  specialize (Hle x Hx). apply andb_true_iff. split; [apply Z.leb_le|apply Z.ltb_lt]; lia.
Qed.

(** The step of a live agent to a neighbour of its node. *)
Lemma graph_neighbor_step (s : Graph.env) (a : agent) (x : Z) sp col nbrs :
  graph_wf s → nx.weighted (Graph.graph s) = true → live (Graph.aec s) a →
  Graph.action_spaces s !! a = Some sp → contains sp (Some x) = true →
  oget (Graph.collectors s) a = Some col →
  nx.neighbors (Graph.graph s) (Graph.Collector.label col) = Ok nbrs → x ∈ nbrs →
  ∃ s' col', Graph.step s (Some x) = Ok s' ∧
    oget (Graph.collectors s') a = Some col' ∧ Graph.Collector.label col' = x.
Proof.
  intros Hwf Hweighted Hlive Hsp Hx Hcol Hn Hnb.
  destruct (nx_weighted_neighbors _ _ _ _ Hweighted Hn Hnb) as [w Hw].
  destruct (graph_reward_cases s _ _ w Hw) as (r & Hr & _).
  assert (∃ cols pts col',
    Graph.move_and_collect s a col nbrs (Some x) = Ok (r, cols, pts) ∧
    oget cols a = Some col' ∧ Graph.Collector.label col' = x)
    as (cols & pts & col' & Hmove & Hcol' & Hlabel).
  { unfold Graph.move_and_collect. rewrite bool_decide_eq_true_2 by done.
    rewrite Hr. simpl. destruct (oget (Graph.points s) x) as [p|] eqn:Hp.
    - eexists _, _, _. split; [done|]. by rewrite oget_oset_eq.
    - eexists _, _, _. split; [done|]. by rewrite oget_oset_eq. }
  destruct (graph_step_live_ok s a (Some x) _ _ _ _ _ Hwf Hlive Hcol Hn Hmove)
    as [s' Hs'].
  pose proof Hs' as Hstep.
  rewrite <- (graph_step_live_eq s a (Some x) sp (gwf_reset s Hwf) Hlive Hsp) in Hstep
    by auto.
  apply graph_step_live_inv in Hs'
    as (col0 & nbrs' & r' & cols' & pts' & c0 & budget & total & cum & sel & nxt &
        Hcol0 & Hn' & Hmove' & Hc & Hb & Htotal & Hacc & Hnext & ->).
  assert (col0 = col) as -> by congruence.
  assert (nbrs' = nbrs) as -> by congruence.
  rewrite Hmove in Hmove'. injection Hmove' as <- <- <-.
  eexists _, col'. split; [exact Hstep|]. simpl. done.
Qed.

Lemma sample_Some (s : Graph.env) (draw : nat) (x : Z) :
  Graph.sample s draw = Ok (Some x) →
  ∃ a col nbrs, agent_selection (Graph.aec s) = Some a ∧
    oget (Graph.collectors s) a = Some col ∧
    nx.neighbors (Graph.graph s) (Graph.Collector.label col) = Ok nbrs ∧ x ∈ nbrs.
Proof.
  unfold Graph.sample. destruct (agent_selection _) as [a|]; [|done].
  destruct (negb _); [done|]. intros H. bind_as H col Hcol. bind_as H nbrs Hn.
  apply oget_r_Ok in Hcol. exists a, col, nbrs. repeat (split; [done|]).
  destruct nbrs as [|n0 nbrs]; [done|]. injection H as H.
  by eapply list_elem_of_lookup_2.
Qed.

(** The mask, the sampler and [step] agree.  In an episode on a weighted
    graph with the documented labels, for the selected live agent: an
    index at which its action mask is 1, and likewise an action that
    [sample] returns, lies in the agent's action space, and [step] with
    it returns with the agent's collector on the node of that label. *)
Theorem allowed_actions_are_performed (c : Graph.config) (s : Graph.env) (a : agent) :
  Graph.valid c = true → nx.contiguous (Graph.cfg_graph c) = true →
  nx.weighted (Graph.cfg_graph c) = true →
  Graph.reachable c s → live (Graph.aec s) a →
  ∃ mask sp,
    Graph._get_action_mask s a = Ok mask ∧
    Graph.action_spaces s !! a = Some sp ∧
    (∀ i : nat, mask !! i = Some 1 →
       contains sp (Some (Z.of_nat i)) = true ∧
       ∃ s' col', Graph.step s (Some (Z.of_nat i)) = Ok s' ∧
         oget (Graph.collectors s') a = Some col' ∧
         Graph.Collector.label col' = Z.of_nat i) ∧
    (∀ draw x, Graph.sample s draw = Ok (Some x) →
       contains sp (Some x) = true ∧
       ∃ s' col', Graph.step s (Some x) = Ok s' ∧
         oget (Graph.collectors s') a = Some col' ∧
         Graph.Collector.label col' = x).
Proof.
  intros Hvalid Hcont Hweighted Hreach Hlive.
  pose proof (graph_reachable_wf _ _ Hvalid Hreach) as Hwf.
  pose proof Hlive as (Hsel & Ht & _).
  assert (a ∈ possible_agents (Graph.aec s)) as Hposs.
  { apply (wf_sub _ (gwf_aec s Hwf)). eapply live_in_agents; [apply Hwf|eauto]. }
  destruct (graph_space_contains_nodes c s a Hcont Hreach Hposs)
    as (Hg & sp & Hsp & Hnodes).
  destruct (gwf_collectors s Hwf a Hposs) as (col & Hcol & Hnode).
  pose proof (gok_closed s (gwf_cfg s Hwf)) as Hclosed.
  rewrite <- Hg in Hcont, Hweighted.
  destruct (observe_mask s a col Hclosed Hcont Hcol Hnode)
    as (mask & Hmask & _ & nbrs & Hn & Hlen & Hind).
  assert (∀ x, x ∈ nbrs →
    contains sp (Some x) = true ∧
    ∃ s' col', Graph.step s (Some x) = Ok s' ∧
      oget (Graph.collectors s') a = Some col' ∧
      Graph.Collector.label col' = x) as Hgo.
  { intros x Hx.
    assert (contains sp (Some x) = true) as Hin
      by (by eapply Hnodes, nx_closed_neighbors).
    split; [done|]. by eapply graph_neighbor_step. }
  exists mask, sp. do 2 (split; [done|]). split.
  - intros i Hi. apply Hgo.
    pose proof (lookup_lt_Some _ _ _ Hi) as Hlt. rewrite Hlen in Hlt.
    rewrite (Hind i Hlt) in Hi. by case_bool_decide.
  - intros draw x (a' & col' & nbrs' & Ha' & Hcol' & Hn' & Hx)%sample_Some.
    apply Hgo. congruence.
Qed.

Lemma allowed_actions_are_performed_witness :
  ∃ mask, Graph._get_action_mask graph_pair_start "agent_0" = Ok mask ∧
    ∃ s' col', Graph.step graph_pair_start (Some 1) = Ok s' ∧
      oget (Graph.collectors s') "agent_0" = Some col' ∧
      Graph.Collector.label col' = 1.
Proof.
  assert (live (Graph.aec graph_pair_start) "agent_0") as Hlive
    by (repeat split; reflexivity).
  destruct (allowed_actions_are_performed graph_pair graph_pair_start "agent_0"
              eq_refl eq_refl eq_refl graph_pair_start_reachable Hlive)
    as (mask & sp & Hmask & Hsp & Hidx & _).
  exists mask. split; [exact Hmask|].
  apply (Hidx 1%nat). vm_compute in Hmask. by injection Hmask as <-.
Defined.

(** ** Rewards against the declared reward range *)

Lemma in_reward_range_insert (m : gmap agent R) (a : agent) (r : R) :
  in_reward_range m → (r <= 0)%R → in_reward_range (<[a := r]> m).
Proof.
  intros Hm Hr b r'. destruct (decide (b = a)) as [->|Hne].
  - rewrite lookup_insert_eq. by intros [= <-].
  - rewrite lookup_insert_ne by done. apply Hm.
Qed.

Lemma in_reward_range_delete (m : gmap agent R) (a : agent) :
  in_reward_range m → in_reward_range (delete a m).
Proof. intros Hm b r [_ Hb]%lookup_delete_Some. by eapply Hm. Qed.

Lemma in_reward_range_clear (m : gmap agent R) : in_reward_range (_clear_rewards m).
Proof.
  intros a r. unfold _clear_rewards. rewrite lookup_fmap.
  destruct (m !! a); simpl; [|done]. intros [= <-]. lra.
Qed.

Lemma in_reward_range_fromkeys (ags : list agent) :
  in_reward_range (dict_fromkeys ags 0%R).
Proof. intros a r [-> _]%lookup_fromkeys. lra. Qed.

Lemma in_reward_range_accumulate (rw cum cum' : gmap agent R) :
  in_reward_range rw → in_reward_range cum →
  _accumulate_rewards rw cum = Ok cum' → in_reward_range cum'.
Proof.
  intros Hrw Hcum. unfold _accumulate_rewards. case_decide; [|done].
  intros [= <-] a r. rewrite lookup_merge.
  destruct (cum !! a) as [c|] eqn:Hc, (rw !! a) as [x|] eqn:Hx; simpl; try done.
  - intros [= <-]. pose proof (Hcum _ _ Hc). pose proof (Hrw _ _ Hx). lra.
  - intros [= <-]. by eapply Hcum.
Qed.

Lemma graph_reward_in_range (s : Graph.env) (u v : Z) (r : R) :
  graph_costs_nonneg s → Graph.reward s u v = Ok r → (r <= 0)%R.
Proof.
  intros [Hcheat Hweights] H.
  destruct (nx.weight (Graph.graph s) u v) as [w|e] eqn:Hw.
  - destruct (graph_reward_cases s u v w Hw) as (r' & Hr & _ & _ & Hle).
    assert (r' = r) as -> by congruence. apply Hle; [by eapply Hweights|done].
  - unfold Graph.reward in H. rewrite Hw in H. by destruct e.
Qed.

Lemma graph_init_costs (c : Graph.config) (s0 : Graph.env) :
  Graph.init c = Ok s0 →
  Graph.graph s0 = Graph.cfg_graph c ∧
  Graph.cheat_cost s0 = Graph.cfg_cheat_cost c ∧
  Graph.caught_probability s0 = Graph.cfg_caught_probability c.
Proof.
  unfold Graph.init. intros H. bind_as H [w h] Hshape. bind_as H mc Hmc.
  bind_as H spaces Hsp. by simplify_eq.
Qed.

Lemma graph_reachable_costs (c : Graph.config) (s : Graph.env) :
  (0 <= Graph.cfg_cheat_cost c * Graph.cfg_caught_probability c)%R →
  (∀ u v w, nx.weight (Graph.cfg_graph c) u v = Ok w → (0 <= w)%R) →
  Graph.reachable c s → graph_costs_nonneg s.
Proof.
  intros Hcheat Hweights (s0 & Hinit & Hsame)%graph_reachable_config.
  apply graph_init_costs in Hinit as (Hg & Hcc & Hcp).
  destruct Hsame as (Hg' & _ & _ & Hcc' & Hcp' & _).
  unfold graph_costs_nonneg. by rewrite Hg', Hcc', Hcp', Hg, Hcc, Hcp.
Qed.

Lemma graph_reset_in_range (s s' : Graph.env) seed obs :
  Graph.reset s seed = Ok (s', obs) →
  in_reward_range (rewards (Graph.aec s')) ∧
  in_reward_range (_cumulative_rewards (Graph.aec s')) ∧
  in_reward_range (Graph.cumulative_rewards s').
Proof.
  intros H. unfold Graph.reset in H. bind_as H rng' Hrng. bind_as H [sel first] Hsel.
  bind_as H observations Hobs. simplify_eq. simpl.
  auto using in_reward_range_fromkeys.
Qed.

Lemma graph_step_in_range (s s' : Graph.env) (act : action) :
  graph_costs_nonneg s →
  in_reward_range (rewards (Graph.aec s)) →
  in_reward_range (_cumulative_rewards (Graph.aec s)) →
  in_reward_range (Graph.cumulative_rewards s) →
  Graph.step s act = Ok s' →
  in_reward_range (rewards (Graph.aec s')) ∧
  in_reward_range (_cumulative_rewards (Graph.aec s')) ∧
  in_reward_range (Graph.cumulative_rewards s') ∧
  ∀ a t, Graph.cumulative_rewards s !! a = Some t →
    ∃ t', Graph.cumulative_rewards s' !! a = Some t' ∧ (t' <= t)%R.
Proof.
  intros Hcosts Hrw Hcum Htotals H.
  apply graph_step_inv in H as (_ & agent_ & Hag & [(Hdead & H)|(Hlive & sp & _ & _ & H)]).
  - apply graph_step_dead_inv in H as (e & e' & He & Hguard & ->).
    apply was_dead_step_inv in He
      as (_ & a & _ & _ & _ & _ & _ & Hr & _ & Hc & _).
    assert (rewards e' = rewards e ∧ _cumulative_rewards e' = _cumulative_rewards e)
      as [Hr' Hc'] by (by destruct Hguard as [[_ ->]|(_ & sel & nxt & _ & ->)]).
    simpl. rewrite Hr', Hc', Hr, Hc.
    split; [apply in_reward_range_clear|].
    split; [by apply in_reward_range_delete|]. split; [done|].
    intros b t Hb. exists t. split; [done|lra].
  - apply graph_step_live_inv in H
      as (col & nbrs & r & cols & pts & c & budget & total & cum & sel & nxt &
          Hcol & Hn & Hmove & Hc & Hb & Htot & Hacc & Hnext & ->).
    assert (r <= 0)%R as Hr.
    { apply move_and_collect_inv in Hmove
        as [(x & _ & _ & Hreward & _)|(_ & -> & _)]; [|lra].
      by eapply graph_reward_in_range. }
    pose proof (Htotals _ _ Htot) as Htotal.
    simpl. split; [by apply in_reward_range_insert|]. split.
    { eapply in_reward_range_accumulate; [| |exact Hacc].
      - by apply in_reward_range_insert.
      - apply in_reward_range_insert; [done|lra]. }
    split; [apply in_reward_range_insert; [done|lra]|].
    intros b t Hbt. destruct (decide (b = agent_)) as [->|Hne].
    + rewrite lookup_insert_eq. eexists. split; [done|].
      assert (t = total) as -> by congruence. lra.
    + rewrite lookup_insert_ne by done. exists t. split; [done|lra].
Qed.

Lemma continuous_reset_in_range (s s' : Continuous.env) seed obs :
  Continuous.reset s seed = Ok (s', obs) →
  in_reward_range (rewards (Continuous.aec s')) ∧
  in_reward_range (_cumulative_rewards (Continuous.aec s')).
Proof.
  intros H. unfold Continuous.reset in H. bind_as H rng' Hrng. bind_as H [sel first] Hsel.
  simplify_eq. simpl. auto using in_reward_range_fromkeys.
Qed.

Lemma continuous_step_in_range (s s' : Continuous.env) (act : action) :
  (0 <= Continuous.cheat_cost s * Continuous.caught_probability s)%R →
  in_reward_range (rewards (Continuous.aec s)) →
  in_reward_range (_cumulative_rewards (Continuous.aec s)) →
  Continuous.step s act = Ok s' →
  in_reward_range (rewards (Continuous.aec s')) ∧
  in_reward_range (_cumulative_rewards (Continuous.aec s')).
Proof.
  intros Hcheat Hrw Hcum H.
  apply continuous_step_inv in H
    as (_ & agent_ & Hag & [(Hdead & e & He & ->)|(Hlive & sp & a & _ & _ & _ & H)]).
  - apply was_dead_step_inv in He
      as (_ & b & _ & _ & _ & _ & _ & Hr & _ & Hc & _).
    simpl. rewrite Hr, Hc.
    split; [apply in_reward_range_clear|by apply in_reward_range_delete].
  - apply continuous_step_live_inv in H
      as (p & col & sel & nxt & cum & budget & Hp & Hcol & Hnext & Hacc & Hb & ->).
    destruct (continuous_reward_cases s col p) as (_ & _ & Hle).
    specialize (Hle Hcheat). simpl. split; [by apply in_reward_range_insert|].
    eapply in_reward_range_accumulate; [| |exact Hacc].
    + by apply in_reward_range_insert.
    + apply in_reward_range_insert; [done|lra].
Qed.

(** Rewards respect the declared [reward_range = (-inf, 0)].  When the
    expected cheating cost is not negative (and, in the graph variant,
    no edge weight is negative), at every state of an episode every
    entry of [rewards] and of [_cumulative_rewards] is at most 0; in the
    graph variant so is every entry of [cumulative_rewards], and a step
    never raises one of them. *)
Theorem rewards_stay_in_range :
  (∀ c s,
     (0 <= Graph.cfg_cheat_cost c * Graph.cfg_caught_probability c)%R →
     (∀ u v w, nx.weight (Graph.cfg_graph c) u v = Ok w → (0 <= w)%R) →
     Graph.reachable c s →
     in_reward_range (rewards (Graph.aec s)) ∧
     in_reward_range (_cumulative_rewards (Graph.aec s)) ∧
     in_reward_range (Graph.cumulative_rewards s) ∧
     ∀ act s' a t, Graph.step s act = Ok s' →
       Graph.cumulative_rewards s !! a = Some t →
       ∃ t', Graph.cumulative_rewards s' !! a = Some t' ∧ (t' <= t)%R) ∧
  (∀ c s,
     (0 <= Continuous.cfg_cheat_cost c * Continuous.cfg_caught_probability c)%R →
     Continuous.reachable c s →
     in_reward_range (rewards (Continuous.aec s)) ∧
     in_reward_range (_cumulative_rewards (Continuous.aec s))).
Proof.
  split.
  - intros c s Hcheat Hweights Hreach.
    assert (in_reward_range (rewards (Graph.aec s)) ∧
            in_reward_range (_cumulative_rewards (Graph.aec s)) ∧
            in_reward_range (Graph.cumulative_rewards s)) as (Hrw & Hcum & Htot).
    { induction Hreach as [s0 seed s obs _ H|s seed s' obs _ _ H|s act s' Hreach IH H].
      - by eapply graph_reset_in_range.
      - by eapply graph_reset_in_range.
      - destruct IH as (Hrw & Hcum & Htot).
        pose proof (graph_reachable_costs c s Hcheat Hweights Hreach) as Hcosts.
        destruct (graph_step_in_range s s' act Hcosts Hrw Hcum Htot H)
          as (? & ? & ? & _). done. }
    do 3 (split; [done|]). intros act s' a t Hstep Ht.
    pose proof (graph_reachable_costs c s Hcheat Hweights Hreach) as Hcosts.
    destruct (graph_step_in_range s s' act Hcosts Hrw Hcum Htot Hstep)
      as (_ & _ & _ & Hmono). by apply Hmono.
  - intros c s Hcheat Hreach.
    assert (Continuous.cheat_cost s = Continuous.cfg_cheat_cost c ∧
            Continuous.caught_probability s = Continuous.cfg_caught_probability c ∧
            in_reward_range (rewards (Continuous.aec s)) ∧
            in_reward_range (_cumulative_rewards (Continuous.aec s)))
      as (_ & _ & Hrw & Hcum); [|done].
    induction Hreach as [s0 seed s obs Hinit H|s seed s' obs _ IH H|s act s' _ IH H].
    + destruct (continuous_reset_in_range _ _ _ _ H) as [Hrw Hcum].
      apply continuous_reset_same_config in H as (_ & _ & Hcc & Hcp & _).
      unfold Continuous.init in Hinit. bind_as Hinit mc Hmc.
      destruct (_ && _); [done|]. simplify_eq. simpl in *. by rewrite Hcc, Hcp.
    + destruct IH as (Hcc0 & Hcp0 & _ & _).
      destruct (continuous_reset_in_range _ _ _ _ H) as [Hrw Hcum].
      apply continuous_reset_same_config in H as (_ & _ & Hcc & Hcp & _).
      by rewrite Hcc, Hcp.
    + destruct IH as (Hcc0 & Hcp0 & Hrw & Hcum).
      assert (0 <= Continuous.cheat_cost s * Continuous.caught_probability s)%R
        as Hcheat' by (by rewrite Hcc0, Hcp0).
      destruct (continuous_step_in_range s s' act Hcheat' Hrw Hcum H) as [Hrw' Hcum'].
      apply continuous_step_same_config in H as (_ & _ & Hcc & Hcp & _).
      by rewrite Hcc, Hcp.
Qed.

Lemma rewards_stay_in_range_witness :
  in_reward_range (rewards (Graph.aec graph_pair_dead)).
Proof.
  refine (proj1 (proj1 rewards_stay_in_range graph_pair graph_pair_dead _ _
                   graph_pair_dead_reachable)).
  - simpl. lra.
  - intros u v w. unfold nx.weight, oget_r. simpl.
    repeat (case_decide; simpl; try done); intros [= <-]; lra.
Defined.

(** ** Stepping when the selected agent is gone *)

Lemma is_dead_gone (e : AECEnv) (a : agent) :
  aec_wf e → a ∉ agents e → is_dead e a = Raise KeyError.
Proof.
  intros Hwf Ha. unfold is_dead, dict_get.
  destruct (terminations e !! a) as [t|] eqn:Ht; [|done].
  exfalso. apply Ha, (wf_terminations e Hwf). eauto.
Qed.

(** A step on behalf of an agent that is no longer active raises
    [KeyError], whatever the action, in both variants: the lookup of
    its terminated flag fails.  In particular every [step] raises once
    the last agent has been pruned, until the next [reset]. *)
Theorem step_for_a_pruned_agent_raises :
  (∀ c s a act, Graph.reachable c s → agent_selection (Graph.aec s) = Some a →
     a ∉ agents (Graph.aec s) → Graph.step s act = Raise KeyError) ∧
  (∀ c s act, Graph.reachable c s → agents (Graph.aec s) = [] →
     Graph.step s act = Raise KeyError) ∧
  (∀ c s a act, Continuous.reachable c s →
     agent_selection (Continuous.aec s) = Some a →
     a ∉ agents (Continuous.aec s) → Continuous.step s act = Raise KeyError).
Proof.
  assert (∀ c s a act, Graph.reachable c s → agent_selection (Graph.aec s) = Some a →
            a ∉ agents (Graph.aec s) → Graph.step s act = Raise KeyError) as Hgraph.
  { intros c s a act Hreach Hsel Ha. unfold Graph.step.
    rewrite (graph_reachable_reset _ _ Hreach), Hsel. simpl.
    by rewrite (is_dead_gone _ _ (ginv_aec s (graph_reachable_inv _ _ Hreach)) Ha). }
  split; [done|]. split.
  - intros c s act Hreach Hnil.
    destruct (wf_selected _ (ginv_aec s (graph_reachable_inv _ _ Hreach))) as [a Ha].
    apply (Hgraph c s a act Hreach Ha). rewrite Hnil. apply not_elem_of_nil.
  - intros c s a act Hreach Hsel Ha. unfold Continuous.step.
    pose proof (continuous_reachable_wf _ _ Hreach) as Hwf.
    rewrite (cwf_reset s Hwf), Hsel. simpl.
    by rewrite (is_dead_gone _ _ (cwf_aec s Hwf) Ha).
Qed.

Lemma step_for_a_pruned_agent_raises_witness :
  Graph.step graph_solo_end (Some 1) = Raise KeyError.
Proof.
  apply (proj1 (proj2 step_for_a_pruned_agent_raises) graph_solo graph_solo_end (Some 1)).
  - exact graph_solo_end_reachable.
  - reflexivity.
Defined.
